(** * The playback queue coordinator of the TTS reader

    A shallow embedding of [usePlaybackQueue] (hooks/usePlaybackQueue.ts)
    together with the part of [useAudioPlayer] it relies on, and proofs
    about its cancellation discipline, its transport operations and its
    pre-generation window.

    The hook is single threaded and callback driven.  Every function below
    is the synchronous segment of the corresponding source function: it
    runs up to the next [await] (or up to its return) and records what is
    left to do as a continuation in the [pending] pool of the queue.  An
    environment event later resumes one continuation with the value the
    awaited promise settled to. *)

From Stdlib Require Import ZArith String Ascii Lia.
From stdpp Require Import base gmap list.
Local Open Scope Z_scope.

(* ================================================================== *)
(** ** Data model (types/audio.ts)                                     *)
(* ================================================================== *)

Inductive SentenceStatus :=
| SPending | SGenerating | SReady | SPlaying | SPlayed | SError.

#[global] Instance SentenceStatus_eq_dec : EqDecision SentenceStatus.
Proof. solve_decision. Defined.

(** A decoded buffer as [decodeAudio] returns it; the payload stands for
    the samples and the blob attached to them, [buf_duration] for the
    [duration] property. JS numbers that are only passed around are
    integers here. *)
Record AudioBuffer := { buf_data : string; buf_duration : Z }.

Record Sentence := {
  id : Z;
  text : string;
  status : SentenceStatus;
  audioBuffer : option AudioBuffer;
  audioFileUrl : option string;
  duration : option Z;
  error : option string
}.

Record PlaybackState := {
  sentences : list Sentence;
  currentIndex : Z;
  isPlaying : bool;
  isPaused : bool;
  isLoading : bool;
  queueAhead : Z
}.

(** Backend response of [synthesize_chunk]. *)
Record SynthesizeChunkResponse := {
  success : bool;
  audio_base64 : option string;
  resp_duration : option Z;
  resp_error : option string
}.

(** How an awaited promise settles. *)
Inductive Settled (A : Type) :=
| Fulfilled (a : A)
| Rejected (reason : string).
Arguments Fulfilled {A} a.
Arguments Rejected {A} reason.

(** Everything the environment hands back to one [generateSentence] call:
    the [synthesize_chunk] reply, the result of [save_audio_to_file] (only
    consulted on Android) and the result of [decodeAudio].  The source
    awaits the three in turn and touches no state in between, so the
    completion is one event. *)
Record SynthReply := {
  response : Settled SynthesizeChunkResponse;
  saved : Settled string;
  decoded : Settled AudioBuffer
}.

(* ================================================================== *)
(** ** The closure of [usePlaybackQueue] and its environment           *)
(* ================================================================== *)

(** One [setInterval] closure created by [startMusicStatePolling]: the
    generation it captured, its private [isAdvancing] flag, and whether
    the interval is still armed. *)
Record PollClosure := {
  poll_generation : Z;
  isAdvancing : bool;
  poll_live : bool
}.

(** The shared audio element as [useAudioPlayer] drives it:
    [onEndedCallback] holds the index and generation captured by the
    callback that [playWithHtml5Audio] registered. *)
Record AudioPlayer := {
  onEndedCallback : option (Z * Z);
  audio_paused : bool;
  audio_src : bool
}.

(** A suspended computation, named after what it waits for:
    - [KSynth]: [generateSentence(index)] at [await invoke("synthesize_chunk")];
      [awaiter] is the [playSentenceAtIndex] that awaits its promise, if any;
    - [KRetry]: [playSentenceAtIndex(index, generation)] after
      [await generateSentence(index)] returned at once, or during its
      100 ms wait; both resume with the same two statements;
    - [KMusicPlay]: [playSentenceAtIndex] at [await musicPlay(...)];
    - [KPollQuery]: a poll tick at [await getMusicState()];
    - [KLoadClear], [KLoadSplit]: [loadText] at its two [await invoke];
    - [KDone]: a continuation that has run.
    [notify] is the poll closure that awaits the whole play chain (the
    tick does [await playSentenceAtIndex(...)] and then resets its
    [isAdvancing]). *)
Inductive Cont :=
| KSynth (index : Z) (awaiter : option (Z * option nat))
| KRetry (index generation : Z) (notify : option nat)
| KMusicPlay (index generation : Z) (notify : option nat)
| KPollQuery (handle : nat)
| KLoadClear (txt : string)
| KLoadSplit (txt : string)
| KDone.

(** Calls that leave the hook. *)
Inductive Effect :=
| ESynthesize (index : Z) (txt : string)
| EClearAudioCache
| ESplitText (txt : string)
| EMusicPlay (url : string) (index : Z)
| EMusicPause
| EMusicResume
| EMusicStop
| EGetMusicState
| EAudioPlay (buf : AudioBuffer)
| EAudioPause
| EAudioResume
| EAudioStop
| EUnlistenMediaAction.

(** The variables the hook closes over, followed by the environment it
    talks to.  [playbackGeneration] is an unbounded integer: the source
    increments a JS number, which is exact far beyond any number of calls
    an execution makes. *)
Record Queue := {
  state : PlaybackState;
  generatingSet : gset Z;
  playbackGeneration : Z;
  pollInterval : option nat;
  lastAdvanceTime : Z;
  currentlyPlayingIndex : Z;
  isAndroid : bool;
  audioPlayer : AudioPlayer;
  intervals : list PollClosure;
  pending : list Cont;
  effects : list Effect
}.

Definition ADVANCE_DEBOUNCE_MS : Z := 300.

(* ------------------------------------------------------------------ *)
(** *** Field updates                                                  *)
(* ------------------------------------------------------------------ *)

Definition with_status (st : SentenceStatus) (s : Sentence) : Sentence :=
  {| id := id s; text := text s; status := st;
     audioBuffer := audioBuffer s; audioFileUrl := audioFileUrl s;
     duration := duration s; error := error s |}.

Definition set_sentences (ss : list Sentence) (p : PlaybackState) :=
  {| sentences := ss; currentIndex := currentIndex p;
     isPlaying := isPlaying p; isPaused := isPaused p;
     isLoading := isLoading p; queueAhead := queueAhead p |}.

Definition set_currentIndex (i : Z) (p : PlaybackState) :=
  {| sentences := sentences p; currentIndex := i;
     isPlaying := isPlaying p; isPaused := isPaused p;
     isLoading := isLoading p; queueAhead := queueAhead p |}.

Definition set_isPlaying (b : bool) (p : PlaybackState) :=
  {| sentences := sentences p; currentIndex := currentIndex p;
     isPlaying := b; isPaused := isPaused p;
     isLoading := isLoading p; queueAhead := queueAhead p |}.

Definition set_isPaused (b : bool) (p : PlaybackState) :=
  {| sentences := sentences p; currentIndex := currentIndex p;
     isPlaying := isPlaying p; isPaused := b;
     isLoading := isLoading p; queueAhead := queueAhead p |}.

Definition set_isLoading (b : bool) (p : PlaybackState) :=
  {| sentences := sentences p; currentIndex := currentIndex p;
     isPlaying := isPlaying p; isPaused := isPaused p;
     isLoading := b; queueAhead := queueAhead p |}.

(** [setState(...)] of the store: apply an update to the PlaybackState. *)
Definition setState (f : PlaybackState -> PlaybackState) (w : Queue) : Queue :=
  {| state := f (state w); generatingSet := generatingSet w;
     playbackGeneration := playbackGeneration w;
     pollInterval := pollInterval w; lastAdvanceTime := lastAdvanceTime w;
     currentlyPlayingIndex := currentlyPlayingIndex w;
     isAndroid := isAndroid w; audioPlayer := audioPlayer w;
     intervals := intervals w; pending := pending w; effects := effects w |}.

Definition with_generatingSet (g : gset Z) (w : Queue) : Queue :=
  {| state := state w; generatingSet := g;
     playbackGeneration := playbackGeneration w;
     pollInterval := pollInterval w; lastAdvanceTime := lastAdvanceTime w;
     currentlyPlayingIndex := currentlyPlayingIndex w;
     isAndroid := isAndroid w; audioPlayer := audioPlayer w;
     intervals := intervals w; pending := pending w; effects := effects w |}.

Definition with_playbackGeneration (g : Z) (w : Queue) : Queue :=
  {| state := state w; generatingSet := generatingSet w;
     playbackGeneration := g;
     pollInterval := pollInterval w; lastAdvanceTime := lastAdvanceTime w;
     currentlyPlayingIndex := currentlyPlayingIndex w;
     isAndroid := isAndroid w; audioPlayer := audioPlayer w;
     intervals := intervals w; pending := pending w; effects := effects w |}.

Definition with_pollInterval (h : option nat) (w : Queue) : Queue :=
  {| state := state w; generatingSet := generatingSet w;
     playbackGeneration := playbackGeneration w;
     pollInterval := h; lastAdvanceTime := lastAdvanceTime w;
     currentlyPlayingIndex := currentlyPlayingIndex w;
     isAndroid := isAndroid w; audioPlayer := audioPlayer w;
     intervals := intervals w; pending := pending w; effects := effects w |}.

Definition with_lastAdvanceTime (t : Z) (w : Queue) : Queue :=
  {| state := state w; generatingSet := generatingSet w;
     playbackGeneration := playbackGeneration w;
     pollInterval := pollInterval w; lastAdvanceTime := t;
     currentlyPlayingIndex := currentlyPlayingIndex w;
     isAndroid := isAndroid w; audioPlayer := audioPlayer w;
     intervals := intervals w; pending := pending w; effects := effects w |}.

Definition with_currentlyPlayingIndex (i : Z) (w : Queue) : Queue :=
  {| state := state w; generatingSet := generatingSet w;
     playbackGeneration := playbackGeneration w;
     pollInterval := pollInterval w; lastAdvanceTime := lastAdvanceTime w;
     currentlyPlayingIndex := i;
     isAndroid := isAndroid w; audioPlayer := audioPlayer w;
     intervals := intervals w; pending := pending w; effects := effects w |}.

Definition with_audioPlayer (a : AudioPlayer) (w : Queue) : Queue :=
  {| state := state w; generatingSet := generatingSet w;
     playbackGeneration := playbackGeneration w;
     pollInterval := pollInterval w; lastAdvanceTime := lastAdvanceTime w;
     currentlyPlayingIndex := currentlyPlayingIndex w;
     isAndroid := isAndroid w; audioPlayer := a;
     intervals := intervals w; pending := pending w; effects := effects w |}.

Definition with_intervals (l : list PollClosure) (w : Queue) : Queue :=
  {| state := state w; generatingSet := generatingSet w;
     playbackGeneration := playbackGeneration w;
     pollInterval := pollInterval w; lastAdvanceTime := lastAdvanceTime w;
     currentlyPlayingIndex := currentlyPlayingIndex w;
     isAndroid := isAndroid w; audioPlayer := audioPlayer w;
     intervals := l; pending := pending w; effects := effects w |}.

Definition with_pending (l : list Cont) (w : Queue) : Queue :=
  {| state := state w; generatingSet := generatingSet w;
     playbackGeneration := playbackGeneration w;
     pollInterval := pollInterval w; lastAdvanceTime := lastAdvanceTime w;
     currentlyPlayingIndex := currentlyPlayingIndex w;
     isAndroid := isAndroid w; audioPlayer := audioPlayer w;
     intervals := intervals w; pending := l; effects := effects w |}.

Definition with_effects (l : list Effect) (w : Queue) : Queue :=
  {| state := state w; generatingSet := generatingSet w;
     playbackGeneration := playbackGeneration w;
     pollInterval := pollInterval w; lastAdvanceTime := lastAdvanceTime w;
     currentlyPlayingIndex := currentlyPlayingIndex w;
     isAndroid := isAndroid w; audioPlayer := audioPlayer w;
     intervals := intervals w; pending := pending w; effects := l |}.

(** Suspend on an awaited promise, and call out of the hook. *)
Definition schedule (k : Cont) (w : Queue) : Queue :=
  with_pending (pending w ++ [k]) w.

Definition emit (e : Effect) (w : Queue) : Queue :=
  with_effects (effects w ++ [e]) w.

(* ------------------------------------------------------------------ *)
(** *** Reading and writing the sentence array                         *)
(* ------------------------------------------------------------------ *)

(** [state.sentences.length] *)
Definition len (w : Queue) : Z := Z.of_nat (length (sentences (state w))).

(** [state.sentences[i]]: [undefined] outside the array. *)
Definition sentenceAt (i : Z) (ss : list Sentence) : option Sentence :=
  if i <? 0 then None else ss !! Z.to_nat i.

(** [setState("sentences", i, produce(f))]: the store leaves an absent
    element alone. *)
Definition produceAt (i : Z) (f : Sentence -> Sentence) (ss : list Sentence)
  : list Sentence :=
  if i <? 0 then ss else alter f (Z.to_nat i) ss.

(** [setState("sentences", i, "status", st)]: the store reads the element
    to descend into it, which throws a TypeError when it is absent. *)
Definition setStatusAt (i : Z) (st : SentenceStatus) (w : Queue)
  : option Queue :=
  match sentenceAt i (sentences (state w)) with
  | Some _ =>
      Some (setState (fun p =>
              set_sentences (produceAt i (with_status st) (sentences p)) p) w)
  | None => None
  end.

(** JS truthiness of a nullable string and of a nullable number. *)
Definition truthyString (o : option string) : bool :=
  match o with
  | Some (String _ _) => true
  | _ => false
  end.

Definition truthyNumber (o : option Z) : bool :=
  match o with
  | Some n => negb (n =? 0)
  | None => false
  end.

(* ================================================================== *)
(** ** Generation (generateSentence, triggerPreGeneration)             *)
(* ================================================================== *)

(** [generateSentence(index)] up to [await invoke("synthesize_chunk")].
    [awaiter] is [Some (generation, notify)] when the call is the
    [await generateSentence(index)] of [playSentenceAtIndex], and [None]
    when [triggerPreGeneration] fires it and drops the promise.  When the
    function returns at once (out of range, already in flight, not
    pending) an awaiting caller still resumes later, on [KRetry]. *)
Definition generateSentence (index : Z) (awaiter : option (Z * option nat))
  (w : Queue) : Queue :=
  let resolved (w : Queue) :=
    match awaiter with
    | Some (generation, notify) => schedule (KRetry index generation notify) w
    | None => w
    end in
  if (index <? 0) || (index >=? len w) then resolved w
  else if bool_decide (index ∈ generatingSet w) then resolved w
  else
    match sentenceAt index (sentences (state w)) with
    | None => resolved w
    | Some sentence =>
        if bool_decide (status sentence = SPending) then
          let w := with_generatingSet ({[ index ]} ∪ generatingSet w) w in
          let w := setState (fun p =>
                     set_sentences
                       (produceAt index (with_status SGenerating) (sentences p)) p) w in
          let w := emit (ESynthesize index (text sentence)) w in
          schedule (KSynth index awaiter) w
        else resolved w
    end.

(** The record [generateSentence] writes on success. *)
Definition markReady (buf : AudioBuffer) (url : option string)
  (dur : option Z) (s : Sentence) : Sentence :=
  {| id := id s; text := text s; status := SReady;
     audioBuffer := Some buf; audioFileUrl := url;
     duration := Some (if truthyNumber dur then default 0 dur
                       else buf_duration buf);
     error := None |}.

(** ... and on failure. *)
Definition markError (msg : string) (s : Sentence) : Sentence :=
  {| id := id s; text := text s; status := SError;
     audioBuffer := audioBuffer s; audioFileUrl := audioFileUrl s;
     duration := duration s; error := Some msg |}.

Definition unknownError : string := "Unknown error".

(** What the completion of [generateSentence] does to the sentence. *)
Definition replyUpdate (android : bool) (r : SynthReply)
  : Sentence -> Sentence :=
  match response r with
  | Rejected e => markError e
  | Fulfilled resp =>
      if success resp && truthyString (audio_base64 resp) then
        let url :=
          if android then
            match saved r with
            | Fulfilled u => Some u
            | Rejected _ => None
            end
          else None in
        match decoded r with
        | Fulfilled buf => markReady buf url (resp_duration resp)
        | Rejected e => markError e
        end
      else
        markError (if truthyString (resp_error resp)
                   then default unknownError (resp_error resp)
                   else unknownError)
  end.

(** The rest of [generateSentence] once the backend has answered: write
    the sentence record and leave the in-flight set.  No generation is
    consulted here; the source has none in scope. *)
Definition generateSentence_done (index : Z) (r : SynthReply) (w : Queue)
  : Queue :=
  let w := setState (fun p =>
             set_sentences
               (produceAt index (replyUpdate (isAndroid w) r) (sentences p)) p) w in
  with_generatingSet (generatingSet w ∖ {[ index ]}) w.

(** [triggerPreGeneration(fromIndex)]: the loop test
    [sentence && sentence.status === 'pending' && !generatingSet.has(i)],
    the loop body, and the loop. *)
Definition needsGeneration (w : Queue) (i : Z) : bool :=
  match sentenceAt i (sentences (state w)) with
  | Some sentence =>
      bool_decide (status sentence = SPending)
      && negb (bool_decide (i ∈ generatingSet w))
  | None => false
  end.

Definition preGenerateOne (w : Queue) (i : Z) : Queue :=
  if needsGeneration w i then generateSentence i None w else w.

Definition triggerPreGeneration (fromIndex : Z) (w : Queue) : Queue :=
  let endIdx := Z.min (fromIndex + queueAhead (state w) + 1) (len w) in
  foldl preGenerateOne w (seqZ fromIndex (endIdx - fromIndex)).

(* ================================================================== *)
(** ** Backends                                                        *)
(* ================================================================== *)

Definition set_isAdvancing (b : bool) (c : PollClosure) : PollClosure :=
  {| poll_generation := poll_generation c; isAdvancing := b;
     poll_live := poll_live c |}.

Definition disarm (c : PollClosure) : PollClosure :=
  {| poll_generation := poll_generation c; isAdvancing := isAdvancing c;
     poll_live := false |}.

Definition clearInterval (h : nat) (w : Queue) : Queue :=
  with_intervals (alter disarm h (intervals w)) w.

(** [if (pollInterval) clearInterval(pollInterval)] *)
Definition clearPollInterval (w : Queue) : Queue :=
  match pollInterval w with
  | Some h => clearInterval h w
  | None => w
  end.

(** [startMusicStatePolling(generation)]: a fresh closure with its own
    [isAdvancing]; the handle is its position in [intervals]. *)
Definition startMusicStatePolling (generation : Z) (w : Queue) : Queue :=
  let w := clearPollInterval w in
  let h := length (intervals w) in
  with_pollInterval (Some h)
    (with_intervals
       (intervals w ++
        [ {| poll_generation := generation; isAdvancing := false;
             poll_live := true |} ]) w).

(** The promise of a play chain settles: a poll tick that awaited it
    resets its [isAdvancing]. *)
Definition settle (notify : option nat) (w : Queue) : Queue :=
  match notify with
  | Some h => with_intervals (alter (set_isAdvancing false) h (intervals w)) w
  | None => w
  end.

(** [audioPlayer.playBuffer(buffer, onEnded)] *)
Definition playBuffer (buf : AudioBuffer) (cb : Z * Z) (w : Queue) : Queue :=
  emit (EAudioPlay buf)
    (with_audioPlayer
       {| onEndedCallback := Some cb; audio_paused := false;
          audio_src := true |} w).

(** [audioPlayer.stop()] *)
Definition audioStop (w : Queue) : Queue :=
  emit EAudioStop
    (with_audioPlayer
       {| onEndedCallback := None; audio_paused := true;
          audio_src := audio_src (audioPlayer w) |} w).

(** [audioPlayer.pause()] *)
Definition audioPause (w : Queue) : Queue :=
  emit EAudioPause
    (with_audioPlayer
       {| onEndedCallback := onEndedCallback (audioPlayer w);
          audio_paused := true;
          audio_src := audio_src (audioPlayer w) |} w).

(** [audioPlayer.resume()] *)
Definition audioResume (w : Queue) : Queue :=
  let a := audioPlayer w in
  emit EAudioResume
    (if audio_src a && audio_paused a then
       with_audioPlayer
         {| onEndedCallback := onEndedCallback a; audio_paused := false;
            audio_src := audio_src a |} w
     else w).

(** [playWithHtml5Audio(index, generation)] *)
Definition playWithHtml5Audio (index generation : Z) (w : Queue) : Queue :=
  match sentenceAt index (sentences (state w)) with
  | Some sentence =>
      match audioBuffer sentence with
      | Some buf => playBuffer buf (index, generation) w
      | None => w
      end
  | None => w
  end.

(* ================================================================== *)
(** ** playSentenceAtIndex                                             *)
(* ================================================================== *)

(** The only synchronous recursion of [playSentenceAtIndex] is the skip
    over an errored sentence, which moves to [index + 1]; [fuel] bounds
    the number of such skips. *)
Fixpoint playSentenceAtIndex_fuel (fuel : nat) (index generation : Z)
  (notify : option nat) (w : Queue) : Queue :=
  if negb (generation =? playbackGeneration w) then settle notify w
  else if (index <? 0) || (index >=? len w) then settle notify w
  else if negb (isPlaying (state w)) || isPaused (state w) then settle notify w
  else if currentlyPlayingIndex w =? index then settle notify w
  else
    match sentenceAt index (sentences (state w)) with
    | None => settle notify w
    | Some sentence =>
        match status sentence with
        | SPending => generateSentence index (Some (generation, notify)) w
        | SGenerating => schedule (KRetry index generation notify) w
        | SError =>
            let nextIndex := index + 1 in
            if nextIndex <? len w then
              match fuel with
              | O => w
              | S fuel' =>
                  playSentenceAtIndex_fuel fuel' nextIndex generation notify
                    (setState (set_currentIndex nextIndex) w)
              end
            else settle notify (setState (set_isPlaying false) w)
        | SReady =>
            if negb (generation =? playbackGeneration w) then settle notify w
            else
              let w := with_currentlyPlayingIndex index w in
              let w := setState (fun p =>
                         set_sentences
                           (produceAt index (with_status SPlaying)
                              (sentences p)) p) w in
              let w := triggerPreGeneration index w in
              if isAndroid w && truthyString (audioFileUrl sentence) then
                schedule (KMusicPlay index generation notify)
                  (emit (EMusicPlay
                           (default EmptyString (audioFileUrl sentence))
                           index) w)
              else settle notify (playWithHtml5Audio index generation w)
        | SPlaying | SPlayed => settle notify w
        end
    end.

Definition playSentenceAtIndex (index generation : Z) (notify : option nat)
  (w : Queue) : Queue :=
  playSentenceAtIndex_fuel (length (sentences (state w))) index generation
    notify w.

(** The continuation after [await generateSentence(index)] and after the
    100 ms wait: re-check the generation, then recurse. *)
Definition retry (index generation : Z) (notify : option nat) (w : Queue)
  : Queue :=
  if negb (generation =? playbackGeneration w) then settle notify w
  else playSentenceAtIndex index generation notify w.

(** The continuation after [await musicPlay(...)]. *)
Definition musicPlay_done (index generation : Z) (notify : option nat)
  (ok : bool) (w : Queue) : Queue :=
  settle notify
    (if ok then startMusicStatePolling generation w
     else playWithHtml5Audio index generation w).

(** The [onended] callback registered by [playWithHtml5Audio]. *)
Definition onEnded (index generation : Z) (w : Queue) : Queue :=
  if negb (generation =? playbackGeneration w) then w
  else
    match setStatusAt index SPlayed w with
    | None => w
    | Some w =>
        let nextIndex := index + 1 in
        if (nextIndex <? len w) && isPlaying (state w)
           && negb (isPaused (state w)) then
          playSentenceAtIndex nextIndex generation None
            (setState (set_currentIndex nextIndex) w)
        else if nextIndex >=? len w then
          setState (fun p => set_currentIndex (-1) (set_isPlaying false p)) w
        else w
    end.

(* ================================================================== *)
(** ** Polling the media session (startMusicStatePolling's tick)       *)
(* ================================================================== *)

(** One tick of the interval [h], up to [await getMusicState()]. *)
Definition pollTick (h : nat) (w : Queue) : Queue :=
  match intervals w !! h with
  | None => w
  | Some c =>
      if negb (poll_generation c =? playbackGeneration w) then
        clearPollInterval w
      else if isAdvancing c then w
      else schedule (KPollQuery h) (emit EGetMusicState w)
  end.

(** The tick after [getMusicState()] has answered at time [now].  A throw
    inside the [try] block lands in the [catch], which resets
    [isAdvancing]. *)
Definition pollTick_done (h : nat) (r : Settled bool) (now : Z) (w : Queue)
  : Queue :=
  match intervals w !! h with
  | None => w
  | Some c =>
      let generation := poll_generation c in
      match r with
      | Rejected _ => settle (Some h) w
      | Fulfilled musicIsPlaying =>
          if negb musicIsPlaying && isPlaying (state w)
             && negb (isPaused (state w)) then
            if now - lastAdvanceTime w <? ADVANCE_DEBOUNCE_MS then w
            else
              let w := with_intervals
                         (alter (set_isAdvancing true) h (intervals w)) w in
              let w := with_lastAdvanceTime now w in
              let nextIndex := currentIndex (state w) + 1 in
              if nextIndex <? len w then
                match setStatusAt (currentIndex (state w)) SPlayed w with
                | None => settle (Some h) w
                | Some w =>
                    playSentenceAtIndex nextIndex generation (Some h)
                      (setState (set_currentIndex nextIndex) w)
                end
              else
                match setStatusAt (currentIndex (state w)) SPlayed w with
                | None => settle (Some h) w
                | Some w =>
                    settle (Some h)
                      (clearPollInterval
                         (setState (fun p =>
                            set_currentIndex (-1) (set_isPlaying false p)) w))
                end
          else w
      end
  end.

(* ================================================================== *)
(** ** Transport operations                                            *)
(* ================================================================== *)

(** [if (pollInterval) { clearInterval(pollInterval); pollInterval = null }] *)
Definition dropPollInterval (w : Queue) : Queue :=
  match pollInterval w with
  | Some h => with_pollInterval None (clearInterval h w)
  | None => w
  end.

(** [if (isAndroid) musicStop(); audioPlayer.stop()] *)
Definition stopBackends (w : Queue) : Queue :=
  audioStop (if isAndroid w then emit EMusicStop w else w).

(** [s.audioBuffer ? "ready" : "pending"] *)
Definition restStatus (s : Sentence) : SentenceStatus :=
  match audioBuffer s with
  | Some _ => SReady
  | None => SPending
  end.

(** The body of the [forEach] in [stopPlayback]. *)
Definition resetSentence (s : Sentence) : Sentence :=
  match status s with
  | SPlaying | SPlayed => with_status (restStatus s) s
  | _ => s
  end.

Definition stopPlayback (w : Queue) : Queue :=
  let w := with_playbackGeneration (playbackGeneration w + 1) w in
  let w := with_currentlyPlayingIndex (-1) w in
  let w := dropPollInterval w in
  let w := stopBackends w in
  setState (fun p =>
    set_sentences (map resetSentence (sentences p))
      (set_currentIndex (-1) (set_isPaused false (set_isPlaying false p)))) w.

Definition stop (w : Queue) : Queue := stopPlayback w.

Definition play (w : Queue) : Queue :=
  if len w =? 0 then w
  else if isPaused (state w) then
    let w := setState (set_isPaused false) w in
    if isAndroid w then
      startMusicStatePolling (playbackGeneration w) (emit EMusicResume w)
    else audioResume w
  else
    let startIndex :=
      if currentIndex (state w) <? 0 then 0 else currentIndex (state w) in
    let w := with_playbackGeneration (playbackGeneration w + 1) w in
    let w := setState (fun p =>
               set_currentIndex startIndex
                 (set_isPaused false (set_isPlaying true p))) w in
    playSentenceAtIndex startIndex (playbackGeneration w) None w.

Definition pause (w : Queue) : Queue :=
  let w := setState (set_isPaused true) w in
  if isAndroid w then clearPollInterval (emit EMusicPause w)
  else audioPause w.

Definition skipTo (index : Z) (w : Queue) : Queue :=
  if (index <? 0) || (index >=? len w) then w
  else
    let w := with_playbackGeneration (playbackGeneration w + 1) w in
    let w := with_currentlyPlayingIndex (-1) w in
    let w := dropPollInterval w in
    let w := stopBackends w in
    let prevIndex := currentIndex (state w) in
    let w :=
      if (prevIndex >=? 0) && (prevIndex <? len w) then
        match sentenceAt prevIndex (sentences (state w)) with
        | Some prev =>
            if bool_decide (status prev = SPlaying) then
              setState (fun p =>
                set_sentences
                  (produceAt prevIndex (with_status (restStatus prev))
                     (sentences p)) p) w
            else w
        | None => w
        end
      else w in
    let w := setState (set_currentIndex index) w in
    if isPlaying (state w) && negb (isPaused (state w)) then
      playSentenceAtIndex index (playbackGeneration w) None w
    else w.

Definition skipForward (w : Queue) : Queue :=
  let current := currentIndex (state w) in
  let maxIndex := len w - 1 in
  if current <? 0 then skipTo 0 w
  else if current <? maxIndex then skipTo (current + 1) w
  else w.

Definition skipBack (w : Queue) : Queue :=
  let current := currentIndex (state w) in
  if current >? 0 then skipTo (current - 1) w
  else if (current <? 0) && (len w >? 0) then skipTo 0 w
  else w.

Definition isReady (w : Queue) : bool :=
  (len w >? 0) && negb (isLoading (state w)).

Inductive MediaAction := MPlay | MPause | MNext | MPrevious | MStop.

Definition handleMediaAction (a : MediaAction) (w : Queue) : Queue :=
  match a with
  | MPlay => if isPaused (state w) then play w else w
  | MPause =>
      if isPlaying (state w) && negb (isPaused (state w)) then pause w else w
  | MNext => skipForward w
  | MPrevious => skipBack w
  | MStop => stop w
  end.

(* ================================================================== *)
(** ** loadText                                                        *)
(* ================================================================== *)

(** [!text.trim()].  [trim] strips the code points of WhiteSpace and
    LineTerminator from both ends, so the result is empty exactly when
    the text consists of such code points only: U+0009 to U+000D, U+0020,
    U+00A0, U+1680, U+2000 to U+200A, U+2028, U+2029, U+202F, U+205F,
    U+3000 and U+FEFF.  A text is held as the UTF-8 bytes of its
    characters (what a string literal holds), so the test reads one, two
    or three bytes at a time; every other byte sequence, well formed or
    not, is a character [trim] keeps. *)
Definition whiteSpace1 (a : Z) : bool :=
  ((9 <=? a) && (a <=? 13)) || (a =? 32).

(** U+00A0 is C2 A0. *)
Definition whiteSpace2 (a b : Z) : bool :=
  (a =? 194) && (b =? 160).

(** U+1680 is E1 9A 80; U+2000 to U+200A are E2 80 80 to E2 80 8A;
    U+2028, U+2029 and U+202F are E2 80 A8, E2 80 A9 and E2 80 AF;
    U+205F is E2 81 9F; U+3000 is E3 80 80; U+FEFF is EF BB BF. *)
Definition whiteSpace3 (a b c : Z) : bool :=
  ((a =? 225) && (b =? 154) && (c =? 128))
  || ((a =? 226) && (b =? 128)
      && (((128 <=? c) && (c <=? 138))
          || (c =? 168) || (c =? 169) || (c =? 175)))
  || ((a =? 226) && (b =? 129) && (c =? 159))
  || ((a =? 227) && (b =? 128) && (c =? 128))
  || ((a =? 239) && (b =? 187) && (c =? 191)).

Definition byteOf (c : ascii) : Z := Z.of_nat (nat_of_ascii c).

Fixpoint trimIsEmpty (s : string) : bool :=
  match s with
  | EmptyString => true
  | String a s1 =>
      if whiteSpace1 (byteOf a) then trimIsEmpty s1
      else
        match s1 with
        | EmptyString => false
        | String b s2 =>
            if whiteSpace2 (byteOf a) (byteOf b) then trimIsEmpty s2
            else
              match s2 with
              | EmptyString => false
              | String c s3 =>
                  if whiteSpace3 (byteOf a) (byteOf b) (byteOf c)
                  then trimIsEmpty s3
                  else false
              end
        end
  end.

(** [loadText(text)] up to [await invoke("clear_audio_cache")]. *)
Definition loadText (txt : string) (w : Queue) : Queue :=
  if trimIsEmpty txt then w
  else
    let w := setState (set_isLoading true) w in
    let w := stopPlayback w in
    let w := with_generatingSet ∅ w in
    let w := with_playbackGeneration (playbackGeneration w + 1) w in
    schedule (KLoadClear txt) (emit EClearAudioCache w).

(** After the cache call, failed or not (its [catch] only warns):
    [await invoke("split_text_to_sentences")]. *)
Definition loadText_cleared (txt : string) (w : Queue) : Queue :=
  schedule (KLoadSplit txt) (emit (ESplitText txt) w).

Definition newSentence (i : nat) (s : string) : Sentence :=
  {| id := Z.of_nat i; text := s; status := SPending;
     audioBuffer := None; audioFileUrl := None;
     duration := None; error := None |}.

(** The rest of [loadText] once the segmenter has answered, paired with
    how the promise returned by [loadText] settles: the [catch] logs the
    failure and the function returns normally. *)
Definition loadText_split (r : Settled (list string)) (w : Queue)
  : Queue * Settled unit :=
  match r with
  | Fulfilled ss =>
      (setState (fun p =>
         set_isLoading false
           (set_isPaused false
              (set_isPlaying false
                 (set_currentIndex (-1)
                    (set_sentences (imap newSentence ss) p))))) w,
       Fulfilled tt)
  | Rejected _ => (setState (set_isLoading false) w, Fulfilled tt)
  end.

(* ================================================================== *)
(** ** Disposal                                                        *)
(* ================================================================== *)

(** The [onCleanup] handler of the hook.  The interval is cleared but
    [pollInterval] is not reset, and nothing is written to the store.
    [unlistenMediaAction] is assigned when the registration of the media
    listener resolves, which the environment decides and which is only
    attempted on Android: [registered] says whether it has. *)
Definition onCleanup (registered : bool) (w : Queue) : Queue :=
  let w := with_playbackGeneration (playbackGeneration w + 1) w in
  let w := clearPollInterval w in
  let w := if isAndroid w && registered
           then emit EUnlistenMediaAction w else w in
  let w := stopBackends w in
  with_generatingSet ∅ w.

(* ================================================================== *)
(** ** Executions                                                      *)
(* ================================================================== *)

(** What can happen next: a call through the returned interface, a media
    button (Android), the environment settling something the hook waits
    for, or the disposal of the component that owns the hook.  [n] names
    a suspended continuation by its position in [pending]. *)
Inductive Event :=
| Call_loadText (txt : string)
| Call_play
| Call_pause
| Call_stop
| Call_skipTo (index : Z)
| Call_skipForward
| Call_skipBack
| Media (a : MediaAction)
| SynthDone (n : nat) (r : SynthReply)
| RetryDue (n : nat)
| MusicPlayDone (n : nat) (ok : bool)
| AudioEnded
| PollTick (h : nat)
| MusicStateDone (n : nat) (r : Settled bool) (now : Z)
| CacheCleared (n : nat)
| SplitDone (n : nat) (r : Settled (list string))
| Cleanup (registered : bool).

Definition consume (n : nat) (w : Queue) : Queue :=
  with_pending (<[n := KDone]> (pending w)) w.

(** One event runs one synchronous segment.  When a synthesis completes,
    the rest of [generateSentence] and the continuation of the
    [playSentenceAtIndex] that awaited it run back to back (the second is
    a microtask of the first).  An event that names a continuation of the
    wrong kind, a dead interval or a silent audio element is not enabled.

    The order of events is left to the environment, which allows more
    executions than the browser does: a [KRetry] parked by an
    [await generateSentence] that returned at once is a microtask in the
    browser and runs before anything else, while here any event may come
    first; and media buttons and interface calls stay possible after
    [Cleanup].  What is proved of every state [run] reaches is thereby
    proved for the browser's order of events too; that an event is
    possible in [run] says that its segment runs once the browser
    delivers it. *)

Definition step (e : Event) (w : Queue) : option Queue :=
  match e with
  | Call_loadText txt => Some (loadText txt w)
  | Call_play => Some (play w)
  | Call_pause => Some (pause w)
  | Call_stop => Some (stop w)
  | Call_skipTo index => Some (skipTo index w)
  | Call_skipForward => Some (skipForward w)
  | Call_skipBack => Some (skipBack w)
  | Media a => if isAndroid w then Some (handleMediaAction a w) else None
  | SynthDone n r =>
      match pending w !! n with
      | Some (KSynth index awaiter) =>
          let w := generateSentence_done index r (consume n w) in
          Some match awaiter with
               | Some (generation, notify) => retry index generation notify w
               | None => w
               end
      | _ => None
      end
  | RetryDue n =>
      match pending w !! n with
      | Some (KRetry index generation notify) =>
          Some (retry index generation notify (consume n w))
      | _ => None
      end
  | MusicPlayDone n ok =>
      match pending w !! n with
      | Some (KMusicPlay index generation notify) =>
          Some (musicPlay_done index generation notify ok (consume n w))
      | _ => None
      end
  | AudioEnded =>
      let a := audioPlayer w in
      match onEndedCallback a with
      | Some (index, generation) =>
          if audio_paused a then None
          else
            Some (onEnded index generation
                    (with_audioPlayer
                       {| onEndedCallback := onEndedCallback a;
                          audio_paused := true;
                          audio_src := audio_src a |} w))
      | None => None
      end
  | PollTick h =>
      match intervals w !! h with
      | Some c => if poll_live c then Some (pollTick h w) else None
      | None => None
      end
  | MusicStateDone n r now =>
      match pending w !! n with
      | Some (KPollQuery h) => Some (pollTick_done h r now (consume n w))
      | _ => None
      end
  | CacheCleared n =>
      match pending w !! n with
      | Some (KLoadClear txt) => Some (loadText_cleared txt (consume n w))
      | _ => None
      end
  | SplitDone n r =>
      match pending w !! n with
      | Some (KLoadSplit _) => Some (fst (loadText_split r (consume n w)))
      | _ => None
      end
  | Cleanup registered => Some (onCleanup registered w)
  end.

Fixpoint run (es : list Event) (w : Queue) : option Queue :=
  match es with
  | [] => Some w
  | e :: es' =>
      match step e w with
      | Some w' => run es' w'
      | None => None
      end
  end.

(** The queue as [usePlaybackQueue({ queueAhead })] creates it. *)
Definition initial (android : bool) (ahead : Z) : Queue :=
  {| state := {| sentences := []; currentIndex := -1; isPlaying := false;
                 isPaused := false; isLoading := false;
                 queueAhead := ahead |};
     generatingSet := ∅;
     playbackGeneration := 0;
     pollInterval := None;
     lastAdvanceTime := 0;
     currentlyPlayingIndex := -1;
     isAndroid := android;
     audioPlayer := {| onEndedCallback := None; audio_paused := true;
                       audio_src := false |};
     intervals := [];
     pending := [];
     effects := [] |}.

(** Observations used by the statements below. *)
Definition playingCount (w : Queue) : nat :=
  length (filter (fun s => status s = SPlaying) (sentences (state w))).

Definition isSynthesize (e : Effect) : bool :=
  match e with
  | ESynthesize _ _ => true
  | _ => false
  end.

(** The synthesis requests issued so far. *)
Definition synthRequests (w : Queue) : list Effect :=
  filter (fun e => isSynthesize e = true) (effects w).

Definition inBounds (index : Z) (w : Queue) : bool :=
  (0 <=? index) && (index <? len w).

(* ================================================================== *)
(** ** Auxiliary notions and sample executions                         *)
(* ================================================================== *)

(** A sentence is marked once it is [generating] and in flight. *)
Definition marked (w : Queue) (i : Z) : Prop :=
  (exists s, sentenceAt i (sentences (state w)) = Some s
             /\ status s = SGenerating)
  /\ i ∈ generatingSet w.

(** The state [skipTo] has built when it reaches its last test. *)
Definition skipTarget (index : Z) (w : Queue) : Queue :=
  let w := with_playbackGeneration (playbackGeneration w + 1) w in
  let w := with_currentlyPlayingIndex (-1) w in
  let w := dropPollInterval w in
  let w := stopBackends w in
  let prevIndex := currentIndex (state w) in
  let w :=
    if (prevIndex >=? 0) && (prevIndex <? len w) then
      match sentenceAt prevIndex (sentences (state w)) with
      | Some prev =>
          if bool_decide (status prev = SPlaying) then
            setState (fun p =>
              set_sentences
                (produceAt prevIndex (with_status (restStatus prev))
                   (sentences p)) p) w
          else w
      | None => w
      end
    else w in
  setState (set_currentIndex index) w.

(** A successful synthesis of the audio [d]: the backend answers, the
    file is saved, the buffer decodes. *)
Definition okReply (d : string) : SynthReply :=
  {| response :=
       Fulfilled {| success := true; audio_base64 := Some d;
                    resp_duration := Some 2; resp_error := None |};
     saved := Fulfilled d;
     decoded := Fulfilled {| buf_data := d; buf_duration := 2 |} |}.

(** A complete, successful [loadText(txt)] whose segmenter returns [ss];
    [n] is the number of continuations suspended so far. *)
Definition loadEvents (n : nat) (txt : string) (ss : list string)
  : list Event :=
  [Call_loadText txt; CacheCleared n; SplitDone (S n) (Fulfilled ss)].

(** A synthesis the backend reports as failed. *)
Definition failReply (e : string) : SynthReply :=
  {| response :=
       Fulfilled {| success := false; audio_base64 := None;
                    resp_duration := None; resp_error := Some e |};
     saved := Rejected e;
     decoded := Rejected e |}.

(** What the UI shows of a queue: the statuses and the playhead. *)
Definition snapshot (w : Queue) : list SentenceStatus * Z :=
  (map status (sentences (state w)), currentIndex (state w)).

(** A freshly loaded desktop queue of one sentence, nothing playing. *)
Definition stoppedQueue : Queue :=
  setState (set_sentences [newSentence 0 "A."]) (initial false 3).

(** Two pending sentences, default window. *)
Definition twoPending : Queue :=
  setState (set_sentences [newSentence 0 "A."; newSentence 1 "B."])
    (initial false 3).

(* ================================================================== *)
(** ** What the player shows (components/TTSPlayer)                    *)
(* ================================================================== *)

(** [totalSentences], [completedSentences] and [readySentences] of
    TTSPlayer/index.tsx, which feed the status bar and the progress bar. *)
Definition totalSentences (w : Queue) : nat :=
  length (sentences (state w)).

Definition completedSentences (w : Queue) : nat :=
  length (filter (fun s => status s = SPlayed) (sentences (state w))).

Definition readySentences (w : Queue) : nat :=
  length (filter (fun s => status s = SReady \/ status s = SPlayed)
            (sentences (state w))).

(** The props TTSPlayer hands to PlayerControls, and what the controls
    make of them: the pause button replaces the play button while
    [isPlaying && !isPaused]. *)
Definition canPlay (w : Queue) : bool := isReady w.

Definition canSkipBack (w : Queue) : bool := currentIndex (state w) >? 0.

Definition canSkipForward (w : Queue) : bool :=
  currentIndex (state w) <? Z.of_nat (totalSentences w) - 1.

Definition showsPause (w : Queue) : bool :=
  isPlaying (state w) && negb (isPaused (state w)).

(* ================================================================== *)
(** ** Invariants of an execution                                      *)
(* ================================================================== *)

(** What no event but the completion of a load replaces: the identity
    and text of every sentence, the window width, the platform. *)
Definition skeleton (w : Queue) : list (Z * string) * Z * bool :=
  (map (fun s => (id s, text s)) (sentences (state w)),
   queueAhead (state w), isAndroid w).

(** What no building block of the play chain writes. *)
Definition frame (w : Queue) : (list (Z * string) * Z * bool) * Z * bool :=
  (skeleton w, playbackGeneration w, isPaused (state w)).

(** The playhead is -1 or the index of a sentence. *)
Definition indexInRange (w : Queue) : Prop :=
  -1 <= currentIndex (state w) < len w.

(** The generation a suspended continuation captured, if it has one, is
    at most [g]. *)
Definition contOk (g : Z) (k : Cont) : Prop :=
  match k with
  | KSynth _ (Some (g', _)) => g' <= g
  | KRetry _ g' _ => g' <= g
  | KMusicPlay _ g' _ => g' <= g
  | _ => True
  end.

(** No continuation, poll closure or finish callback holds a generation
    the counter has not reached yet. *)
Definition capturedOk (w : Queue) : Prop :=
  Forall (contOk (playbackGeneration w)) (pending w)
  /\ Forall (fun c => poll_generation c <= playbackGeneration w) (intervals w)
  /\ match onEndedCallback (audioPlayer w) with
     | Some (_, g) => g <= playbackGeneration w
     | None => True
     end.

(** Every index of the in-flight set has a synthesis request that has
    not completed yet. *)
Definition inFlightOk (w : Queue) : Prop :=
  forall i, i ∈ generatingSet w ->
            exists n a, pending w !! n = Some (KSynth i a).

(** An armed interval is the one [pollInterval] holds. *)
Definition liveOk (w : Queue) : Prop :=
  forall h c, intervals w !! h = Some c -> poll_live c = true ->
              pollInterval w = Some h.

(** The four together, and the generation not moving back. *)
Record preserves (w w' : Queue) : Prop := Preserves {
  pr_generation : playbackGeneration w <= playbackGeneration w';
  pr_index : indexInRange w -> indexInRange w';
  pr_captured : capturedOk w -> capturedOk w';
  pr_inflight : inFlightOk w -> inFlightOk w';
  pr_live : liveOk w -> liveOk w'
}.

(** Events that are calls through the interface or media buttons, as
    opposed to the environment resuming a continuation. *)
Definition isCall (e : Event) : bool :=
  match e with
  | Call_loadText _ | Call_play | Call_pause | Call_stop | Call_skipTo _
  | Call_skipForward | Call_skipBack | Media _ => true
  | _ => false
  end.

(** Events that resume the playback side of the hook: a retry, the
    answer of [musicPlay], the end of the audio, a poll tick and the
    answer to its query. *)
Definition isPlaybackEvent (e : Event) : bool :=
  match e with
  | RetryDue _ | MusicPlayDone _ _ | AudioEnded | PollTick _
  | MusicStateDone _ _ _ => true
  | _ => false
  end.

Definition isCleanup (e : Event) : bool :=
  match e with
  | Cleanup _ => true
  | _ => false
  end.

Definition isSplitDone (e : Event) : bool :=
  match e with
  | SplitDone _ _ => true
  | _ => false
  end.

(** The text of sentence [k], for the request [generateSentence] sends. *)
Definition textAt (k : Z) (w : Queue) : string :=
  default EmptyString (text <$> sentenceAt k (sentences (state w))).

(** The requests one scan of [triggerPreGeneration] over [l] sends from
    [w]: one per index that passes the loop test. *)
Definition requestsFor (w : Queue) (l : list Z) : list Effect :=
  omap (fun k => if needsGeneration w k
                 then Some (ESynthesize k (textAt k w)) else None) l.


(** What the play chain does not touch when it asks for syntheses. *)
Definition backendView (w : Queue)
  : Z * AudioPlayer * Z * bool * list PollClosure * option nat * Z :=
  (currentlyPlayingIndex w, audioPlayer w, currentIndex (state w),
   isPlaying (state w), intervals w, pollInterval w, lastAdvanceTime w).

(** Sample executions: a two-sentence text loaded and started, up to the
    point where the first sentence sounds; the same on Android, before
    and after the plugin has accepted the track; and the desktop run
    paused. *)
Definition sampleEvents : list Event :=
  loadEvents 0 "A. B." ["A."; "B."]%string
  ++ [Call_play; SynthDone 2 (okReply "a")].

Definition desktopPlaying : Queue :=
  default (initial false 3) (run sampleEvents (initial false 3)).


Definition androidStarting : Queue :=
  default (initial true 3) (run sampleEvents (initial true 3)).

Definition androidPolling : Queue :=
  default (initial true 3)
    (run (sampleEvents ++ [MusicPlayDone 4 true]) (initial true 3)).

(** The first sample sentence once synthesised on the desktop. *)
Definition readySentence : Sentence :=
  markReady {| buf_data := "a"; buf_duration := 2 |} None (Some 2)
    (newSentence 0 "A.").

(** A one-sentence queue that is playing with its sentence ready, and one
    with its sentence in error. *)
Definition readyQueue : Queue :=
  setState (fun p => set_isPlaying true (set_sentences [readySentence] p))
    (initial false 3).

Definition erroredQueue : Queue :=
  setState (fun p =>
    set_isPlaying true
      (set_sentences [markError "boom" (newSentence 0 "A.")] p))
    (initial false 3).

(** Texts [trim] empties that hold white space beyond ASCII, as UTF-8:
    U+00A0; U+FEFF followed by U+2028; U+3000 between spaces.  And two it
    keeps: U+200B (zero width space) and U+0085 (next line). *)
Definition utf8 (l : list nat) : string :=
  string_of_list_ascii (ascii_of_nat <$> l).

Definition noBreakSpace : string := utf8 [194; 160]%nat.

Definition byteOrderMarkLine : string := utf8 [239; 187; 191; 226; 128; 168]%nat.

Definition ideographicSpace : string := utf8 [32; 227; 128; 128; 32]%nat.

Definition zeroWidthSpace : string := utf8 [226; 128; 139]%nat.

Definition nextLine : string := utf8 [194; 133]%nat.

(** Two pending sentences, playing, with the first one already in the
    in-flight set. *)
Definition inFlightQueue : Queue :=
  with_generatingSet {[ 0 ]} (setState (set_isPlaying true) twoPending).

(* ================================================================== *)
(** ** Basic facts about the building blocks                           *)
(* ================================================================== *)

Section Frames.
Implicit Types (w : Queue) (index generation : Z) (notify : option nat).

Lemma len_nonneg w : 0 <= len w.
Proof. unfold len. lia. Qed.

Lemma sentenceAt_Some i ss s :
  sentenceAt i ss = Some s -> 0 <= i < Z.of_nat (length ss).
Proof.
  unfold sentenceAt. destruct (Z.ltb_spec i 0); [done |].
  intros H1. apply lookup_lt_Some in H1. lia.
Qed.

Lemma sentenceAt_nat (i : nat) ss : sentenceAt (Z.of_nat i) ss = ss !! i.
Proof.
  unfold sentenceAt. destruct (Z.ltb_spec (Z.of_nat i) 0); [lia |].
  by rewrite Nat2Z.id.
Qed.

Lemma sentenceAt_inBounds i w :
  inBounds i w = true -> is_Some (sentenceAt i (sentences (state w))).
Proof.
  unfold inBounds, len, sentenceAt. intros H.
  apply andb_true_iff in H as [H1 H2].
  apply Z.leb_le in H1. apply Z.ltb_lt in H2.
  destruct (Z.ltb_spec i 0); [lia |].
  apply lookup_lt_is_Some. lia.
Qed.

(** The generation is written by [play], [stopPlayback], [skipTo] and
    [loadText] only. *)
Lemma settle_generation notify w :
  playbackGeneration (settle notify w) = playbackGeneration w.
Proof. by destruct notify. Qed.

Lemma generateSentence_generation index a w :
  playbackGeneration (generateSentence index a w) = playbackGeneration w.
Proof.
  unfold generateSentence.
  repeat case_match; simpl; reflexivity.
Qed.

Lemma preGenerateOne_generation w i :
  playbackGeneration (preGenerateOne w i) = playbackGeneration w.
Proof.
  unfold preGenerateOne.
  repeat case_match; rewrite ?generateSentence_generation; reflexivity.
Qed.

Lemma foldl_preGenerateOne_generation l w :
  playbackGeneration (foldl preGenerateOne w l) = playbackGeneration w.
Proof.
  revert w. induction l as [| i l IH]; intros w; simpl; [done |].
  by rewrite IH, preGenerateOne_generation.
Qed.

Lemma triggerPreGeneration_generation index w :
  playbackGeneration (triggerPreGeneration index w) = playbackGeneration w.
Proof. apply foldl_preGenerateOne_generation. Qed.

Lemma playWithHtml5Audio_generation index generation w :
  playbackGeneration (playWithHtml5Audio index generation w)
  = playbackGeneration w.
Proof. unfold playWithHtml5Audio. by repeat case_match. Qed.

Lemma playSentenceAtIndex_fuel_generation fuel index generation notify w :
  playbackGeneration (playSentenceAtIndex_fuel fuel index generation notify w)
  = playbackGeneration w.
Proof.
  revert index w.
  induction fuel as [| fuel IH]; intros index w; cbn [playSentenceAtIndex_fuel];
    repeat case_match;
    rewrite ?IH, ?settle_generation, ?generateSentence_generation,
      ?playWithHtml5Audio_generation; simpl;
    rewrite ?triggerPreGeneration_generation; reflexivity.
Qed.

Lemma playSentenceAtIndex_generation index generation notify w :
  playbackGeneration (playSentenceAtIndex index generation notify w)
  = playbackGeneration w.
Proof. apply playSentenceAtIndex_fuel_generation. Qed.

(** Fuel: the skip over errored sentences moves towards the end of the
    array, so any amount that covers the remaining sentences gives the
    same result; [playSentenceAtIndex] never runs out. *)
Lemma playSentenceAtIndex_fuel_enough f1 f2 index generation notify w :
  (Z.to_nat (len w - index) <= f1)%nat ->
  (Z.to_nat (len w - index) <= f2)%nat ->
  playSentenceAtIndex_fuel f1 index generation notify w
  = playSentenceAtIndex_fuel f2 index generation notify w.
Proof.
  revert f2 index w.
  induction f1 as [| f1 IH]; intros f2 index w H1 H2;
    destruct f2 as [| f2]; cbn [playSentenceAtIndex_fuel];
    repeat case_match; try reflexivity;
    try (match goal with
         | H : (_ <? _) = true |- _ => apply Z.ltb_lt in H; lia
         end).
  apply IH; unfold len in *; simpl;
    match goal with
    | H : (_ <? _) = true |- _ => apply Z.ltb_lt in H; simpl in H; lia
    end.
Qed.

Lemma playSentenceAtIndex_fuel_total fuel index generation notify w :
  (length (sentences (state w)) <= fuel)%nat ->
  playSentenceAtIndex_fuel fuel index generation notify w
  = playSentenceAtIndex index generation notify w.
Proof.
  intros H. unfold playSentenceAtIndex.
  destruct (Z.ltb_spec index 0) as [Hneg | Hpos].
  - destruct fuel, (length (sentences (state w)));
      cbn [playSentenceAtIndex_fuel];
      apply Z.ltb_lt in Hneg; rewrite Hneg; simpl;
      by destruct (negb _).
  - apply playSentenceAtIndex_fuel_enough; unfold len; lia.
Qed.

(** [playSentenceAtIndex] satisfies the recursive equation of the source:
    its body, with the skip over an errored sentence calling
    [playSentenceAtIndex] itself. *)
Lemma playSentenceAtIndex_unfold index generation notify w :
playSentenceAtIndex index generation notify w
= if negb (generation =? playbackGeneration w) then settle notify w
  else if (index <? 0) || (index >=? len w) then settle notify w
  else if negb (isPlaying (state w)) || isPaused (state w) then settle notify w
  else if currentlyPlayingIndex w =? index then settle notify w
  else
    match sentenceAt index (sentences (state w)) with
    | None => settle notify w
    | Some sentence =>
        match status sentence with
        | SPending => generateSentence index (Some (generation, notify)) w
        | SGenerating => schedule (KRetry index generation notify) w
        | SError =>
            if index + 1 <? len w then
              playSentenceAtIndex (index + 1) generation notify
                (setState (set_currentIndex (index + 1)) w)
            else settle notify (setState (set_isPlaying false) w)
        | SReady =>
            if negb (generation =? playbackGeneration w) then settle notify w
            else
              let w := with_currentlyPlayingIndex index w in
              let w := setState (fun p =>
                         set_sentences
                           (produceAt index (with_status SPlaying)
                              (sentences p)) p) w in
              let w := triggerPreGeneration index w in
              if isAndroid w && truthyString (audioFileUrl sentence) then
                schedule (KMusicPlay index generation notify)
                  (emit (EMusicPlay
                           (default EmptyString (audioFileUrl sentence))
                           index) w)
              else settle notify (playWithHtml5Audio index generation w)
        | SPlaying | SPlayed => settle notify w
        end
    end.
Proof.
unfold playSentenceAtIndex at 1.
destruct (length (sentences (state w))) as [| n] eqn:Hlen;
  cbn [playSentenceAtIndex_fuel].
- destruct (negb (generation =? playbackGeneration w)); [done |].
  assert (Hout : (index <? 0) || (index >=? len w) = true).
  { unfold len. rewrite Hlen. rewrite Z.geb_leb.
    destruct (Z.ltb_spec index 0), (Z.leb_spec (Z.of_nat 0) index);
      try reflexivity; lia. }
  by rewrite Hout.
- destruct (negb (generation =? playbackGeneration w)); [done |].
  destruct ((index <? 0) || (index >=? len w)) eqn:Hb; [done |].
  destruct (negb (isPlaying (state w)) || isPaused (state w)); [done |].
  destruct (currentlyPlayingIndex w =? index); [done |].
  destruct (sentenceAt index (sentences (state w))) as [s |]; [| done].
  destruct (status s); try reflexivity.
  destruct (index + 1 <? len w) eqn:Hn; [| done].
  apply playSentenceAtIndex_fuel_enough.
  + apply orb_false_iff in Hb as [Hb _]. apply Z.ltb_ge in Hb.
    unfold len. simpl. rewrite Hlen. lia.
  + unfold len. simpl. lia.
Qed.

End Frames.

(* ================================================================== *)
(** ** stop                                                            *)
(* ================================================================== *)

Lemma resetSentence_idem (s : Sentence) :
  resetSentence (resetSentence s) = resetSentence s.
Proof.
  destruct s as [i t st b u d e].
  destruct st, b; reflexivity.
Qed.

Lemma map_resetSentence_idem (ss : list Sentence) :
  map resetSentence (map resetSentence ss) = map resetSentence ss.
Proof.
  rewrite map_map. apply map_ext. intros s. apply resetSentence_idem.
Qed.

Lemma resetSentence_not_playing (s : Sentence) :
  status (resetSentence s) <> SPlaying.
Proof.
  destruct s as [i t st b u d e].
  destruct st, b; discriminate.
Qed.

(** C4. After [stop()], from any state: [currentIndex] is -1, [isPlaying]
    and [isPaused] are false, no sentence is [playing], and every
    sentence that was [playing] or [played] is now [ready] if it holds a
    decoded buffer and [pending] otherwise, all its other fields and all
    other sentences being unchanged. *)
Theorem stop_postcondition (w : Queue) :
  currentIndex (state (stop w)) = -1
  /\ isPlaying (state (stop w)) = false
  /\ isPaused (state (stop w)) = false
  /\ Forall (fun s => status s <> SPlaying) (sentences (state (stop w)))
  /\ forall i : nat,
       sentences (state (stop w)) !! i =
       (fun s =>
          if bool_decide (status s = SPlaying \/ status s = SPlayed) then
            with_status
              (match audioBuffer s with Some _ => SReady | None => SPending end) s
          else s) <$> sentences (state w) !! i.
Proof.
  destruct w as [[ss ci pl pa lo qa] gs pg pi la cpi an ap iv pe ef].
  unfold stop, stopPlayback, stopBackends, dropPollInterval.
  destruct pi, an; simpl; (repeat split;
    [ apply Forall_forall; intros s Hs;
      apply list_elem_of_fmap in Hs as [s0 [-> _]];
      apply resetSentence_not_playing
    | intros i; rewrite list_lookup_fmap;
      destruct (ss !! i) as [s |]; simpl; [| done];
      f_equal; unfold resetSentence, restStatus;
      destruct s as [k t st b u d e]; simpl;
      destruct st; reflexivity ]).
Qed.

(** C9. A second [stop()] right after a first leaves the PlaybackState,
    and every other variable of the hook but the generation counter, as
    the first call left them; [stop] is total, it has no failing path.
    The counter moves on once more, which changes nothing for what was
    captured before either call: after one stop as after two, it lies
    above every earlier value. The second call repeats the stop calls to
    the backends and makes no other. *)
Theorem stop_idempotent (w : Queue) :
  state (stop (stop w)) = state (stop w)
  /\ generatingSet (stop (stop w)) = generatingSet (stop w)
  /\ currentlyPlayingIndex (stop (stop w)) = currentlyPlayingIndex (stop w)
  /\ pollInterval (stop (stop w)) = pollInterval (stop w)
  /\ audioPlayer (stop (stop w)) = audioPlayer (stop w)
  /\ intervals (stop (stop w)) = intervals (stop w)
  /\ pending (stop (stop w)) = pending (stop w)
  /\ playbackGeneration w < playbackGeneration (stop w)
  /\ playbackGeneration w < playbackGeneration (stop (stop w))
  /\ effects (stop (stop w))
     = effects (stop w)
       ++ (if isAndroid w then [EMusicStop; EAudioStop] else [EAudioStop]).
Proof.
  destruct w as [[ss ci pl pa lo qa] gs pg pi la cpi an ap iv pe ef].
  unfold stop, stopPlayback, stopBackends, dropPollInterval.
  destruct pi, an; simpl; rewrite map_resetSentence_idem;
    repeat split; try reflexivity; try lia;
    by rewrite <- ?app_assoc.
Qed.

(* ================================================================== *)
(** ** pause, then play                                                *)
(* ================================================================== *)

(** C10. [pause()] sets [isPaused] whatever the state, also when nothing
    plays; a [play()] that follows on a non-empty queue takes the resume
    branch: it clears [isPaused], calls the backend's resume and nothing
    else, leaves the generation alone and suspends no new continuation,
    so the sentences are untouched. *)
Theorem pause_then_play_only_resumes (w : Queue) :
  sentences (state w) <> [] ->
  isPaused (state (pause w)) = true
  /\ isPaused (state (play (pause w))) = false
  /\ playbackGeneration (play (pause w)) = playbackGeneration w
  /\ sentences (state (play (pause w))) = sentences (state w)
  /\ isPlaying (state (play (pause w))) = isPlaying (state w)
  /\ currentIndex (state (play (pause w))) = currentIndex (state w)
  /\ currentlyPlayingIndex (play (pause w)) = currentlyPlayingIndex w
  /\ pending (play (pause w)) = pending w
  /\ effects (play (pause w))
     = effects (pause w)
       ++ [if isAndroid w then EMusicResume else EAudioResume].
Proof.
  destruct w as [[ss ci pl pa lo qa] gs pg pi la cpi an [cb ps src] iv pe ef].
  simpl. intros Hne.
  assert (Hl : (Z.of_nat (length ss) =? 0) = false).
  { apply Z.eqb_neq. destruct ss; [done | simpl; lia]. }
  unfold play, pause, len, startMusicStatePolling, clearPollInterval,
    audioResume, audioPause.
  destruct an, pi; simpl; rewrite Hl; simpl;
    try (destruct src; simpl); repeat split; reflexivity.
Qed.

(* ================================================================== *)
(** ** The generation counter                                          *)
(* ================================================================== *)

Lemma outOfBounds_inBounds (index : Z) (w : Queue) :
  (index <? 0) || (index >=? len w) = negb (inBounds index w).
Proof.
  unfold inBounds. rewrite Z.geb_leb.
  destruct (Z.ltb_spec index 0), (Z.leb_spec 0 index),
    (Z.ltb_spec index (len w)), (Z.leb_spec (len w) index);
    try lia; reflexivity.
Qed.

Lemma stopPlayback_generation (w : Queue) :
  playbackGeneration (stopPlayback w) = playbackGeneration w + 1.
Proof.
  destruct w as [st gs pg [h |] la cpi [|] ap iv pe ef]; reflexivity.
Qed.

Lemma skipTo_generation (index : Z) (w : Queue) :
  playbackGeneration (skipTo index w)
  = (if inBounds index w then playbackGeneration w + 1
     else playbackGeneration w).
Proof.
  unfold skipTo. rewrite outOfBounds_inBounds.
  destruct (inBounds index w); simpl; [| done].
  match goal with
  | |- context [if ?c then playSentenceAtIndex _ _ _ _ else _] => destruct c
  end; rewrite ?playSentenceAtIndex_generation;
    destruct w as [st gs pg [h |] la cpi [|] ap iv pe ef];
    unfold stopBackends, dropPollInterval; simpl;
    repeat case_match; reflexivity.
Qed.

(** C2, as the code has it. [stop()] always advances the generation by
    one. [play()] advances it by one unless the queue is empty or
    [isPaused] is set, [skipTo(index)] unless [index] is out of bounds,
    and [loadText(text)] (by two: once in [stopPlayback], once itself)
    unless [text] is blank; in those cases the generation stays as it
    is. *)
Theorem generation_after_call (w : Queue) (index : Z) (txt : string) :
  playbackGeneration (stop w) = playbackGeneration w + 1
  /\ playbackGeneration (play w)
     = (if (len w =? 0) || isPaused (state w) then playbackGeneration w
        else playbackGeneration w + 1)
  /\ playbackGeneration (skipTo index w)
     = (if inBounds index w then playbackGeneration w + 1
        else playbackGeneration w)
  /\ playbackGeneration (loadText txt w)
     = (if trimIsEmpty txt then playbackGeneration w
        else playbackGeneration w + 2).
Proof.
  split; [apply stopPlayback_generation |].
  split; [| split].
  - unfold play. destruct (len w =? 0); simpl; [done |].
    destruct (isPaused (state w)); simpl.
    + destruct w as [st gs pg [h |] la cpi [|] [cb ps [|]] iv pe ef];
        try reflexivity; simpl; unfold audioResume; simpl;
        by destruct ps.
    + by rewrite playSentenceAtIndex_generation.
  - apply skipTo_generation.
  - unfold loadText. destruct (trimIsEmpty txt); [done |].
    destruct w as [st gs pg [h |] la cpi [|] ap iv pe ef]; simpl; lia.
Qed.

(* ================================================================== *)
(** ** The pre-generation window                                       *)
(* ================================================================== *)

Section Window.
Implicit Types (w : Queue) (i j k : Z) (l : list Z).

Lemma sentenceAt_produceAt_eq i f ss s :
  sentenceAt i ss = Some s -> sentenceAt i (produceAt i f ss) = Some (f s).
Proof.
  unfold sentenceAt, produceAt. destruct (i <? 0); [done |].
  intros H. by rewrite list_lookup_alter_eq, H.
Qed.

Lemma sentenceAt_produceAt_ne i j f ss :
  i <> j -> sentenceAt j (produceAt i f ss) = sentenceAt j ss.
Proof.
  unfold sentenceAt, produceAt. intros Hne.
  destruct (Z.ltb_spec j 0); [done |].
  destruct (Z.ltb_spec i 0); [done |].
  apply list_lookup_alter_ne. lia.
Qed.

Lemma length_produceAt i f ss : length (produceAt i f ss) = length ss.
Proof.
  unfold produceAt. destruct (i <? 0); [done |]. apply length_alter.
Qed.

(** What one call that passes the loop test does. *)
Lemma generateSentence_fresh w i :
  needsGeneration w i = true ->
  exists s,
    sentenceAt i (sentences (state w)) = Some s
    /\ status s = SPending
    /\ (i ∉ generatingSet w)
    /\ generateSentence i None w
       = schedule (KSynth i None)
           (emit (ESynthesize i (text s))
              (setState (fun p =>
                 set_sentences
                   (produceAt i (with_status SGenerating) (sentences p)) p)
                 (with_generatingSet ({[ i ]} ∪ generatingSet w) w))).
Proof.
  unfold needsGeneration, generateSentence. intros H.
  destruct (sentenceAt i (sentences (state w))) as [s |] eqn:Hs; [| done].
  apply andb_true_iff in H as [Hp Hg].
  apply bool_decide_eq_true in Hp.
  apply negb_true_iff, bool_decide_eq_false in Hg.
  exists s. repeat split; try done.
  apply sentenceAt_Some in Hs. fold (len w) in Hs.
  rewrite outOfBounds_inBounds. unfold inBounds.
  destruct (Z.leb_spec 0 i), (Z.ltb_spec i (len w)); try lia. simpl.
  rewrite bool_decide_eq_false_2 by done.
  by rewrite bool_decide_eq_true_2 by done.
Qed.

Lemma preGenerateOne_len w i : len (preGenerateOne w i) = len w.
Proof.
  unfold preGenerateOne.
  destruct (needsGeneration w i) eqn:H; [| done].
  apply generateSentence_fresh in H as (s & _ & _ & _ & ->).
  unfold len. simpl. by rewrite length_produceAt.
Qed.

Lemma preGenerateOne_queueAhead w i :
  queueAhead (state (preGenerateOne w i)) = queueAhead (state w).
Proof.
  unfold preGenerateOne.
  destruct (needsGeneration w i) eqn:H; [| done].
  by apply generateSentence_fresh in H as (s & _ & _ & _ & ->).
Qed.

Lemma preGenerateOne_generatingSet w i :
  generatingSet (preGenerateOne w i)
  = if needsGeneration w i then {[ i ]} ∪ generatingSet w
    else generatingSet w.
Proof.
  unfold preGenerateOne.
  destruct (needsGeneration w i) eqn:H; [| done].
  by apply generateSentence_fresh in H as (s & _ & _ & _ & ->).
Qed.

Lemma preGenerateOne_sentenceAt_ne w i j :
  i <> j ->
  sentenceAt j (sentences (state (preGenerateOne w i)))
  = sentenceAt j (sentences (state w)).
Proof.
  intros Hne. unfold preGenerateOne.
  destruct (needsGeneration w i) eqn:H; [| done].
  apply generateSentence_fresh in H as (s & _ & _ & _ & ->). simpl.
  by apply sentenceAt_produceAt_ne.
Qed.

(** After the loop body has seen [i], the loop test fails at [i] ... *)
Lemma preGenerateOne_settles w i :
  needsGeneration (preGenerateOne w i) i = false.
Proof.
  unfold preGenerateOne.
  destruct (needsGeneration w i) eqn:H; [| done].
  apply generateSentence_fresh in H as (s & Hs & _ & _ & ->).
  unfold needsGeneration. simpl.
  by rewrite (sentenceAt_produceAt_eq _ _ _ _ Hs).
Qed.

(** ... and a failed test stays failed: the set only grows, and only
    pending sentences are written. *)
Lemma preGenerateOne_keeps_settled w i j :
  needsGeneration w j = false ->
  needsGeneration (preGenerateOne w i) j = false.
Proof.
  intros Hj. destruct (decide (i = j)) as [-> | Hne].
  { apply preGenerateOne_settles. }
  unfold needsGeneration in *.
  rewrite preGenerateOne_sentenceAt_ne, preGenerateOne_generatingSet by done.
  destruct (sentenceAt j (sentences (state w))) as [s |]; [| done].
  apply andb_false_iff in Hj as [Hj | Hj]; [by rewrite Hj |].
  apply negb_false_iff, bool_decide_eq_true in Hj.
  rewrite (bool_decide_eq_true_2 (j ∈ _)); [by rewrite andb_false_r |].
  destruct (needsGeneration w i); set_solver.
Qed.

Lemma foldl_keeps_settled l w j :
  needsGeneration w j = false ->
  needsGeneration (foldl preGenerateOne w l) j = false.
Proof.
  revert w. induction l as [| i l IH]; intros w H; simpl; [done |].
  by apply IH, preGenerateOne_keeps_settled.
Qed.

Lemma foldl_settles l w j :
  j ∈ l -> needsGeneration (foldl preGenerateOne w l) j = false.
Proof.
  revert w. induction l as [| i l IH]; intros w H; simpl.
  - by apply elem_of_nil in H.
  - apply elem_of_cons in H as [-> | H]; [| by apply IH].
    apply foldl_keeps_settled, preGenerateOne_settles.
Qed.

Lemma foldl_settled_id l w :
  (forall j, j ∈ l -> needsGeneration w j = false) ->
  foldl preGenerateOne w l = w.
Proof.
  induction l as [| i l IH]; intros H; simpl; [done |].
  unfold preGenerateOne at 2.
  rewrite (H i) by apply list_elem_of_here.
  apply IH. intros j Hj. apply H. by apply list_elem_of_further.
Qed.

Lemma foldl_preGenerateOne_len l w :
  len (foldl preGenerateOne w l) = len w.
Proof.
  revert w. induction l as [| i l IH]; intros w; simpl; [done |].
  by rewrite IH, preGenerateOne_len.
Qed.

Lemma foldl_preGenerateOne_queueAhead l w :
  queueAhead (state (foldl preGenerateOne w l)) = queueAhead (state w).
Proof.
  revert w. induction l as [| i l IH]; intros w; simpl; [done |].
  by rewrite IH, preGenerateOne_queueAhead.
Qed.

Lemma triggerPreGeneration_idem k w :
  triggerPreGeneration k (triggerPreGeneration k w)
  = triggerPreGeneration k w.
Proof.
  unfold triggerPreGeneration.
  rewrite foldl_preGenerateOne_len, foldl_preGenerateOne_queueAhead.
  apply foldl_settled_id. intros j Hj. by apply foldl_settles.
Qed.

Lemma preGenerateOne_marks w i :
  needsGeneration w i = true -> marked (preGenerateOne w i) i.
Proof.
  intros H. unfold preGenerateOne. rewrite H.
  apply generateSentence_fresh in H as (s & Hs & _ & _ & ->).
  split; simpl; [| set_solver].
  exists (with_status SGenerating s).
  split; [by apply sentenceAt_produceAt_eq | done].
Qed.

Lemma preGenerateOne_keeps_marked w i k :
  marked w i -> marked (preGenerateOne w k) i.
Proof.
  intros [(s & Hs & Hst) Hin].
  destruct (decide (k = i)) as [-> | Hne].
  - unfold preGenerateOne, needsGeneration. rewrite Hs, Hst. simpl.
    split; [by exists s | done].
  - split.
    + exists s. by rewrite preGenerateOne_sentenceAt_ne.
    + rewrite preGenerateOne_generatingSet.
      destruct (needsGeneration w k); set_solver.
Qed.

Lemma preGenerateOne_keeps_needed w i k :
  k <> i -> needsGeneration w i = true ->
  needsGeneration (preGenerateOne w k) i = true.
Proof.
  intros Hne H. unfold needsGeneration in *.
  rewrite preGenerateOne_sentenceAt_ne, preGenerateOne_generatingSet by done.
  destruct (sentenceAt i (sentences (state w))) as [s |]; [| done].
  apply andb_true_iff in H as [-> Hg]. simpl.
  apply negb_true_iff, bool_decide_eq_false in Hg.
  apply negb_true_iff, bool_decide_eq_false.
  destruct (needsGeneration w k); [| done].
  rewrite not_elem_of_union, not_elem_of_singleton. by split.
Qed.

Lemma foldl_keeps_marked l w i :
  marked w i -> marked (foldl preGenerateOne w l) i.
Proof.
  revert w. induction l as [| k l IH]; intros w H; simpl; [done |].
  by apply IH, preGenerateOne_keeps_marked.
Qed.

Lemma foldl_marks l w i :
  i ∈ l -> needsGeneration w i = true ->
  marked (foldl preGenerateOne w l) i.
Proof.
  revert w. induction l as [| k l IH]; intros w Hin H; simpl.
  - by apply elem_of_nil in Hin.
  - destruct (decide (k = i)) as [-> | Hne].
    + by apply foldl_keeps_marked, preGenerateOne_marks.
    + apply elem_of_cons in Hin as [-> | Hin]; [done |].
      by apply IH, preGenerateOne_keeps_needed.
Qed.

Lemma foldl_generatingSet_mono l w :
  generatingSet w ⊆ generatingSet (foldl preGenerateOne w l).
Proof.
  revert w. induction l as [| k l IH]; intros w; simpl; [done |].
  etrans; [| apply IH]. rewrite preGenerateOne_generatingSet.
  destruct (needsGeneration w k) eqn:E; [apply union_subseteq_r | done].
Qed.

Lemma foldl_generatingSet_bound l w :
  generatingSet (foldl preGenerateOne w l)
  ⊆ generatingSet w ∪ list_to_set l.
Proof.
  revert w. induction l as [| k l IH]; intros w; simpl; [set_solver |].
  etrans; [apply IH |]. rewrite preGenerateOne_generatingSet.
  change (list_to_set (k :: l)) with ({[ k ]} ∪ list_to_set l : gset Z).
  intros x.
  destruct (needsGeneration w k);
    rewrite ?elem_of_union, ?elem_of_singleton; tauto.
Qed.

Lemma generateSentence_generatingSet i a w :
  generatingSet (generateSentence i a w) ⊆ generatingSet w ∪ {[ i ]}.
Proof.
  unfold generateSentence.
  repeat case_match; simpl; intros x; rewrite ?elem_of_union; tauto.
Qed.

End Window.

(** C6, as the code has it. A second [triggerPreGeneration(i)] right
    after a first issues no synthesis request and changes nothing: the
    first call marks every pending sentence of the window
    [i .. i + queueAhead] that is not yet in the in-flight set as
    [generating] and records it there, and a pending sentence the set
    already holds is passed over; either way every pending sentence of
    the window is in flight afterwards. *)
Theorem triggerPreGeneration_twice (fromIndex : Z) (w : Queue) :
  let w1 := triggerPreGeneration fromIndex w in
  triggerPreGeneration fromIndex w1 = w1
  /\ synthRequests (triggerPreGeneration fromIndex w1) = synthRequests w1
  /\ forall i s,
       fromIndex <= i < fromIndex + queueAhead (state w) + 1 ->
       sentenceAt i (sentences (state w)) = Some s ->
       status s = SPending ->
       i ∈ generatingSet w1
       /\ (i ∉ generatingSet w ->
           exists s', sentenceAt i (sentences (state w1)) = Some s'
                      /\ status s' = SGenerating).
Proof.
  intros w1. subst w1.
  split; [apply triggerPreGeneration_idem |].
  split; [by rewrite triggerPreGeneration_idem |].
  intros i s Hwin Hs Hst.
  assert (Hin : i ∈ seqZ fromIndex
                  (Z.min (fromIndex + queueAhead (state w) + 1) (len w)
                   - fromIndex)).
  { apply elem_of_seqZ. apply sentenceAt_Some in Hs. unfold len. lia. }
  unfold triggerPreGeneration.
  destruct (decide (i ∈ generatingSet w)) as [Hg | Hg].
  - split; [| done]. by apply foldl_generatingSet_mono.
  - assert (Hn : needsGeneration w i = true).
    { unfold needsGeneration. rewrite Hs.
      rewrite bool_decide_eq_true_2 by done.
      by rewrite bool_decide_eq_false_2 by done. }
    destruct (foldl_marks _ _ _ Hin Hn) as [Hm1 Hm2].
    split; [exact Hm2 | intros _; exact Hm1].
Qed.

(** C7, as the code has it. Nothing caps the in-flight set; what is
    bounded is the growth per call: [triggerPreGeneration(i)] adds only
    indices of its window [i .. i + queueAhead] below the length of the
    array, at most [queueAhead + 1] of them, and [generateSentence] adds
    at most its own index. *)
Theorem generatingSet_growth (fromIndex index : Z)
  (awaiter : option (Z * option nat)) (w : Queue) :
  (forall k, k ∈ generatingSet (triggerPreGeneration fromIndex w) ->
             k ∈ generatingSet w
             \/ (fromIndex <= k < fromIndex + queueAhead (state w) + 1
                 /\ k < len w))
  /\ (size (generatingSet (triggerPreGeneration fromIndex w))
      <= size (generatingSet w) + Z.to_nat (queueAhead (state w) + 1))%nat
  /\ (size (generatingSet (generateSentence index awaiter w))
      <= size (generatingSet w) + 1)%nat.
Proof.
  set (l := seqZ fromIndex
              (Z.min (fromIndex + queueAhead (state w) + 1) (len w)
               - fromIndex)).
  assert (Hsub := foldl_generatingSet_bound l w).
  fold (triggerPreGeneration fromIndex w) in Hsub.
  repeat split.
  - intros k Hk. apply Hsub in Hk.
    apply elem_of_union in Hk as [Hk | Hk]; [by left | right].
    apply elem_of_list_to_set, elem_of_seqZ in Hk. lia.
  - etrans; [apply subseteq_size, Hsub |].
    rewrite size_union_alt.
    apply Nat.add_le_mono_l.
    etrans; [apply subseteq_size, subseteq_difference_l; reflexivity |].
    rewrite size_list_to_set by apply NoDup_seqZ.
    subst l. rewrite length_seqZ. lia.
  - etrans; [apply subseteq_size, generateSentence_generatingSet |].
    rewrite size_union_alt.
    apply Nat.add_le_mono_l.
    etrans; [apply subseteq_size, subseteq_difference_l; reflexivity |].
    by rewrite size_singleton.
Qed.

(* ================================================================== *)
(** ** skipTo                                                          *)
(* ================================================================== *)

Lemma produceAt_imap (k : Z) (f : Sentence -> Sentence) (ss : list Sentence) :
  produceAt k f ss
  = imap (fun i s => if bool_decide (Z.of_nat i = k) then f s else s) ss.
Proof.
  apply list_eq. intros i. rewrite list_lookup_imap.
  unfold produceAt. destruct (Z.ltb_spec k 0).
  - destruct (ss !! i) as [s |]; simpl; [| done].
    by rewrite bool_decide_eq_false_2 by lia.
  - rewrite list_lookup_alter.
    destruct (decide (Z.to_nat k = i)) as [<- | Hne].
    + destruct (ss !! Z.to_nat k) as [s |]; simpl; [| done].
      by rewrite bool_decide_eq_true_2 by lia.
    + destruct (ss !! i) as [s |]; simpl; [| done].
      by rewrite bool_decide_eq_false_2 by lia.
Qed.

Lemma skipTo_unfold (index : Z) (w : Queue) :
  skipTo index w
  = if inBounds index w then
      if isPlaying (state (skipTarget index w))
         && negb (isPaused (state (skipTarget index w)))
      then playSentenceAtIndex index
             (playbackGeneration (skipTarget index w)) None
             (skipTarget index w)
      else skipTarget index w
    else w.
Proof.
  unfold skipTo. rewrite outOfBounds_inBounds.
  by destruct (inBounds index w).
Qed.

Lemma skipTarget_frame (index : Z) (w : Queue) :
  currentIndex (state (skipTarget index w)) = index
  /\ isPlaying (state (skipTarget index w)) = isPlaying (state w)
  /\ isPaused (state (skipTarget index w)) = isPaused (state w)
  /\ playbackGeneration (skipTarget index w) = playbackGeneration w + 1.
Proof.
  destruct w as [[ss ci pl pa lo qa] gs pg pi la cpi an ap iv pe ef].
  unfold skipTarget, stopBackends, dropPollInterval.
  destruct pi, an; simpl; repeat case_match; simpl; done.
Qed.

Lemma skipTarget_sentences (index : Z) (w : Queue) :
  sentences (state (skipTarget index w))
  = imap (fun i s =>
            if bool_decide (Z.of_nat i = currentIndex (state w)
                            /\ status s = SPlaying)
            then with_status (restStatus s) s
            else s) (sentences (state w)).
Proof.
  assert (Hprev :
    sentences (state (skipTarget index w))
    = match sentenceAt (currentIndex (state w)) (sentences (state w)) with
      | Some prev =>
          if bool_decide (status prev = SPlaying) then
            produceAt (currentIndex (state w)) (with_status (restStatus prev))
              (sentences (state w))
          else sentences (state w)
      | None => sentences (state w)
      end).
  { destruct w as [[ss ci pl pa lo qa] gs pg pi la cpi an ap iv pe ef].
    unfold skipTarget, stopBackends, dropPollInterval, len.
    destruct pi, an; simpl;
      (destruct (sentenceAt ci ss) as [prev |] eqn:Hs;
       [ apply sentenceAt_Some in Hs;
         destruct (Z.geb_spec ci 0), (Z.ltb_spec ci (Z.of_nat (length ss)));
         try lia; simpl; by destruct (bool_decide (status prev = SPlaying))
       | by destruct ((ci >=? 0) && (ci <? Z.of_nat (length ss))) ]). }
  rewrite Hprev. clear Hprev.
  set (ci := currentIndex (state w)). set (ss := sentences (state w)).
  apply list_eq. intros i. rewrite list_lookup_imap.
  destruct (sentenceAt ci ss) as [prev |] eqn:Hs.
  - destruct (bool_decide (status prev = SPlaying)) eqn:Hp.
    + apply bool_decide_eq_true in Hp.
      rewrite produceAt_imap, list_lookup_imap.
      destruct (ss !! i) as [s |] eqn:Hi; simpl; [| done]. f_equal.
      destruct (decide (Z.of_nat i = ci)) as [He | He].
      * assert (s = prev) as ->.
        { rewrite <- He, sentenceAt_nat in Hs. congruence. }
        rewrite bool_decide_eq_true_2 by done.
        by rewrite bool_decide_eq_true_2 by done.
      * rewrite bool_decide_eq_false_2 by done.
        by rewrite bool_decide_eq_false_2 by (by intros [? ?]).
    + apply bool_decide_eq_false in Hp.
      destruct (ss !! i) as [s |] eqn:Hi; simpl; [| done]. f_equal.
      rewrite bool_decide_eq_false_2; [done |].
      intros [He Hst]. rewrite <- He, sentenceAt_nat in Hs. congruence.
  - destruct (ss !! i) as [s |] eqn:Hi; simpl; [| done]. f_equal.
    rewrite bool_decide_eq_false_2; [done |].
    intros [He Hst]. rewrite <- He, sentenceAt_nat in Hs. congruence.
Qed.

(** C5, as the code has it. An out-of-bounds [skipTo] does nothing. An
    in-bounds one advances the generation, resets the sentence at the
    previous [currentIndex] only if it is [playing] (to [ready] with a
    decoded buffer, to [pending] without; a [played] one is left as it
    is), touches no other sentence, sets [currentIndex] to the target
    and, when playing and not paused, hands that state to
    [playSentenceAtIndex] under the new generation. *)
Theorem skipTo_spec (index : Z) (w : Queue) :
  if inBounds index w then
    exists w1,
      sentences (state w1)
      = imap (fun i s =>
                if bool_decide (Z.of_nat i = currentIndex (state w)
                                /\ status s = SPlaying)
                then with_status
                       (match audioBuffer s with
                        | Some _ => SReady
                        | None => SPending
                        end) s
                else s) (sentences (state w))
      /\ currentIndex (state w1) = index
      /\ isPlaying (state w1) = isPlaying (state w)
      /\ isPaused (state w1) = isPaused (state w)
      /\ playbackGeneration w1 = playbackGeneration w + 1
      /\ skipTo index w
         = (if isPlaying (state w) && negb (isPaused (state w))
            then playSentenceAtIndex index (playbackGeneration w + 1) None w1
            else w1)
  else skipTo index w = w.
Proof.
  rewrite skipTo_unfold.
  destruct (inBounds index w); [| done].
  destruct (skipTarget_frame index w) as (Hc & Hpl & Hpa & Hg).
  exists (skipTarget index w).
  rewrite Hpl, Hpa, Hg.
  repeat split; try done.
  apply skipTarget_sentences.
Qed.

(* ================================================================== *)
(** ** loadText and the segmenter                                      *)
(* ================================================================== *)

Lemma lookup_snoc_length (pe : list Cont) (k : Cont) :
  (pe ++ [k]) !! length pe = Some k.
Proof. by apply list_lookup_middle. Qed.

Lemma consume_snoc (pe : list Cont) (k : Cont) :
  <[length pe := KDone]> (pe ++ [k]) = pe ++ [KDone].
Proof.
  rewrite insert_app_r_alt by lia. by rewrite Nat.sub_diag.
Qed.

Lemma loadText_frame (txt : string) (w : Queue) :
  trimIsEmpty txt = false ->
  pending (loadText txt w) = pending w ++ [KLoadClear txt]
  /\ sentences (state (loadText txt w))
     = map resetSentence (sentences (state w)).
Proof.
  intros Hne. unfold loadText. rewrite Hne.
  destruct w as [st gs pg [h |] la cpi [|] ap iv pe ef]; by split.
Qed.

(** C8, as the code has it. [loadText] settles its promise normally
    whatever the segmenter does: a segmentation failure is caught and
    logged, not handed to the caller. After such a failure [isLoading]
    is false again and the sentences are the ones the queue held before
    the call, with the reset of [stopPlayback] applied, not an empty
    sequence. *)
Theorem loadText_segmenter_failure (txt reason : string) (w : Queue) :
  (forall r w', snd (loadText_split r w') = Fulfilled tt)
  /\ (trimIsEmpty txt = false ->
      exists w3,
        run [Call_loadText txt;
             CacheCleared (length (pending w));
             SplitDone (S (length (pending w))) (Rejected reason)] w
        = Some w3
        /\ sentences (state w3) = map resetSentence (sentences (state w))
        /\ isLoading (state w3) = false).
Proof.
  split; [by intros [ss | e] w' |].
  intros Hne.
  destruct (loadText_frame txt w Hne) as [Hp Hs].
  cbn [run step].
  set (w1 := loadText txt w) in *.
  rewrite Hp, lookup_snoc_length.
  set (w2 := loadText_cleared txt (consume (length (pending w)) w1)).
  assert (Hp2 : pending w2 = (pending w ++ [KDone]) ++ [KLoadSplit txt]).
  { unfold w2, loadText_cleared, consume. simpl.
    by rewrite Hp, consume_snoc. }
  rewrite Hp2.
  replace (S (length (pending w))) with (length (pending w ++ [KDone]))
    by (rewrite length_app; simpl; lia).
  rewrite lookup_snoc_length.
  eexists. split; [reflexivity |].
  split; [exact Hs | reflexivity].
Qed.

(* ================================================================== *)
(** ** Stale continuations                                             *)
(* ================================================================== *)

(** The guarded continuations drop out when the generation has moved
    on: the retry after a wait, the [onended] callback, a poll tick. *)
Lemma stale_playSentenceAtIndex (index generation : Z) (notify : option nat)
  (w : Queue) :
  generation <> playbackGeneration w ->
  playSentenceAtIndex index generation notify w = settle notify w.
Proof.
  intros H. apply Z.eqb_neq in H.
  unfold playSentenceAtIndex.
  destruct (length _); cbn [playSentenceAtIndex_fuel]; by rewrite H.
Qed.

Lemma stale_retry_discarded (index generation : Z) (notify : option nat)
  (w : Queue) :
  generation <> playbackGeneration w ->
  state (retry index generation notify w) = state w
  /\ generatingSet (retry index generation notify w) = generatingSet w.
Proof.
  intros H. apply Z.eqb_neq in H. unfold retry. rewrite H. simpl.
  by destruct notify.
Qed.

Lemma stale_onEnded_discarded (index generation : Z) (w : Queue) :
  generation <> playbackGeneration w -> onEnded index generation w = w.
Proof.
  intros H. apply Z.eqb_neq in H. unfold onEnded. by rewrite H.
Qed.

Lemma stale_pollTick_discarded (h : nat) (c : PollClosure) (w : Queue) :
  intervals w !! h = Some c ->
  poll_generation c <> playbackGeneration w ->
  state (pollTick h w) = state w.
Proof.
  intros Hc H. apply Z.eqb_neq in H. unfold pollTick. rewrite Hc, H. simpl.
  unfold clearPollInterval. by destruct (pollInterval w).
Qed.

(** The completion of [generateSentence] has no such guard: it writes the
    sentence at its index whatever the generation is by then. *)
Lemma generateSentence_done_writes (index : Z) (r : SynthReply) (s : Sentence)
  (w : Queue) :
  sentenceAt index (sentences (state w)) = Some s ->
  sentenceAt index (sentences (state (generateSentence_done index r w)))
  = Some (replyUpdate (isAndroid w) r s).
Proof.
  intros H. unfold generateSentence_done. simpl.
  by apply sentenceAt_produceAt_eq.
Qed.

Lemma generateSentence_done_any_generation (index g : Z) (r : SynthReply)
  (w : Queue) :
  state (generateSentence_done index r (with_playbackGeneration g w))
  = state (generateSentence_done index r w).
Proof. reflexivity. Qed.

(** C1, as the code has it. The continuations of a play chain that
    captured a generation the queue has since left are void: the retry
    after [await generateSentence] or after the 100 ms wait, the
    [onended] callback, the continuation after [musicPlay] and a poll
    tick at its start leave the PlaybackState as it is. The completion of
    [generateSentence] is not guarded: it still writes status, buffer,
    file reference, duration and error of the sentence at its index, and
    only the chain waiting for it is dropped. *)
Theorem stale_continuations (index generation : Z) (notify : option nat)
  (w : Queue) :
  generation <> playbackGeneration w ->
  state (retry index generation notify w) = state w
  /\ state (onEnded index generation w) = state w
  /\ (forall ok, state (musicPlay_done index generation notify ok w) = state w)
  /\ (forall h c,
        intervals w !! h = Some c -> poll_generation c = generation ->
        state (pollTick h w) = state w)
  /\ (forall n r awaiter,
        pending w !! n = Some (KSynth index awaiter) ->
        awaiter = None \/ awaiter = Some (generation, notify) ->
        exists w',
          step (SynthDone n r) w = Some w'
          /\ sentences (state w')
             = produceAt index (replyUpdate (isAndroid w) r)
                 (sentences (state w))).
Proof.
  intros Hstale.
  split; [by apply stale_retry_discarded |].
  split; [by rewrite stale_onEnded_discarded |].
  split; [| split].
  - intros ok. unfold musicPlay_done, startMusicStatePolling,
      clearPollInterval, playWithHtml5Audio.
    destruct notify, ok; simpl; repeat case_match; reflexivity.
  - intros h c Hc <-. by eapply stale_pollTick_discarded.
  - intros n r awaiter Hn Haw. unfold step. rewrite Hn.
    eexists. split; [reflexivity |].
    destruct Haw as [-> | ->]; [reflexivity |].
    assert (Hs : generation
                 <> playbackGeneration
                      (generateSentence_done index r (consume n w)))
      by exact Hstale.
    by rewrite (proj1 (stale_retry_discarded _ _ notify _ Hs)).
Qed.

(* ================================================================== *)
(** ** Concrete executions                                             *)
(* ================================================================== *)

(** Three sentences on the desktop: [play()] requests sentence 0; once it
    is ready it plays and the window requests 1 and 2; when its audio
    ends it is [played] and sentence 1, ready by then, plays. *)
Example three_sentences_in_order :
  (fun w => (snapshot w, synthRequests w))
    <$> run (loadEvents 0 "A. B. C." ["A."; "B."; "C."]%string
             ++ [Call_play; SynthDone 2 (okReply "a")]) (initial false 3)
  = Some (([SPlaying; SGenerating; SGenerating], 0),
          [ESynthesize 0 "A."; ESynthesize 1 "B."; ESynthesize 2 "C."])
  /\ snapshot
       <$> run (loadEvents 0 "A. B. C." ["A."; "B."; "C."]%string
                ++ [Call_play; SynthDone 2 (okReply "a");
                    SynthDone 3 (okReply "b"); AudioEnded]) (initial false 3)
     = Some ([SPlayed; SPlaying; SGenerating], 1).
Proof. split; vm_compute; reflexivity. Qed.

(** A sentence whose synthesis failed is passed over: no backend plays
    it, the playhead moves straight to the next one. *)
Example errored_sentence_skipped :
  (fun w => (snapshot w, currentlyPlayingIndex w))
    <$> run (loadEvents 0 "A. B. C." ["A."; "B."; "C."]%string
             ++ [Call_play; SynthDone 2 (okReply "a");
                 SynthDone 3 (failReply "bad"); SynthDone 4 (okReply "c");
                 AudioEnded]) (initial false 3)
  = Some (([SPlayed; SError; SPlaying], 2), 2).
Proof. vm_compute; reflexivity. Qed.

(** On Android, a second idle report from the media session 200 ms after
    an advance is debounced: the playhead stays on sentence 1. *)
Example second_idle_report_debounced :
  (fun w => (snapshot w, lastAdvanceTime w))
    <$> run (loadEvents 0 "A. B. C." ["A."; "B."; "C."]%string
             ++ [Call_play; SynthDone 2 (okReply "a");
                 SynthDone 3 (okReply "b"); SynthDone 4 (okReply "c");
                 MusicPlayDone 5 true; PollTick 0;
                 MusicStateDone 6 (Fulfilled false) 5000;
                 MusicPlayDone 7 true; PollTick 1;
                 MusicStateDone 8 (Fulfilled false) 5200]) (initial true 3)
  = Some (([SPlayed; SPlaying; SReady], 1), 5000).
Proof. vm_compute; reflexivity. Qed.

(** C1 is false as stated: on the desktop, load one sentence, play (the
    synthesis of sentence 0 is requested and awaited under generation
    3), stop (generation 4); the synthesis then completes and its
    continuation turns the sentence from [generating] to [ready] and
    stores the buffer. *)
Lemma stale_synthesis_writes_after_stop :
  exists w w',
    run (loadEvents 0 "A." ["A."%string] ++ [Call_play; Call_stop])
      (initial false 3) = Some w
    /\ pending w !! 2%nat = Some (KSynth 0 (Some (3, None)))
    /\ playbackGeneration w = 4
    /\ map status (sentences (state w)) = [SGenerating]
    /\ step (SynthDone 2 (okReply "a")) w = Some w'
    /\ sentences (state w')
       = [ {| id := 0; text := "A."; status := SReady;
              audioBuffer := Some {| buf_data := "a"; buf_duration := 2 |};
              audioFileUrl := None; duration := Some 2; error := None |} ]
    /\ state w' <> state w.
Proof.
  eexists. eexists.
  split; [vm_compute; reflexivity |].
  repeat split; try (vm_compute; reflexivity).
  vm_compute. discriminate.
Qed.

(** The same completion across a reload: the request was issued for the
    old text under generation 3; [loadText] has replaced the sentences
    (generation 5) when it completes, and the new sentence 0 receives the
    buffer synthesised from the old one. *)
Lemma stale_synthesis_writes_after_load :
  exists w w',
    run (loadEvents 0 "A." ["A."%string] ++ [Call_play]
         ++ loadEvents 3 "B." ["B."%string]) (initial false 3) = Some w
    /\ pending w !! 2%nat = Some (KSynth 0 (Some (3, None)))
    /\ playbackGeneration w = 5
    /\ sentences (state w) = [newSentence 0 "B."]
    /\ step (SynthDone 2 (okReply "a")) w = Some w'
    /\ sentences (state w')
       = [ {| id := 0; text := "B."; status := SReady;
              audioBuffer := Some {| buf_data := "a"; buf_duration := 2 |};
              audioFileUrl := None; duration := Some 2; error := None |} ].
Proof.
  eexists. eexists.
  split; [vm_compute; reflexivity |].
  repeat split; vm_compute; reflexivity.
Qed.

(** C2 is false as stated: [play()] on a paused queue leaves the
    generation where it was. *)
Lemma play_when_paused_keeps_generation :
  exists w,
    run (loadEvents 0 "A." ["A."%string] ++ [Call_play; Call_pause])
      (initial false 3) = Some w
    /\ ~ (playbackGeneration w < playbackGeneration (play w)).
Proof.
  eexists. split; [vm_compute; reflexivity |].
  vm_compute. discriminate.
Qed.

(** C3 at its failing input. On Android: load two sentences, play
    (sentence 0 starts generating), pause, play (the resume branch arms a
    poll under the same generation), the poll finds the media session
    idle and advances to sentence 1; when both syntheses complete, each
    of the two chains of generation 3 marks its sentence [playing]. *)
Theorem two_sentences_playing :
  exists w,
    run (loadEvents 0 "A. B." ["A."; "B."]%string
         ++ [Call_play; Call_pause; Call_play; PollTick 0;
             MusicStateDone 3 (Fulfilled false) 1000;
             SynthDone 4 (okReply "b"); SynthDone 2 (okReply "a")])
      (initial true 3) = Some w
    /\ map status (sentences (state w)) = [SPlaying; SPlaying]
    /\ playingCount w = 2%nat.
Proof.
  eexists. split; [vm_compute; reflexivity |].
  split; vm_compute; reflexivity.
Qed.

(** C5 is false as stated: with the playhead on a [played] sentence that
    holds a buffer, [skipTo] leaves that sentence [played]. *)
Lemma skipTo_leaves_played :
  exists w s,
    run (loadEvents 0 "A. B." ["A."; "B."]%string
         ++ [Call_play; SynthDone 2 (okReply "a"); AudioEnded; Call_skipTo 0])
      (initial false 3) = Some w
    /\ currentIndex (state w) = 0
    /\ sentences (state w) !! 0%nat = Some s
    /\ status s = SPlayed
    /\ is_Some (audioBuffer s)
    /\ inBounds 1 w = true
    /\ status <$> sentences (state (skipTo 1 w)) !! 0%nat = Some SPlayed.
Proof.
  eexists. eexists.
  split; [vm_compute; reflexivity |].
  repeat split; try (vm_compute; reflexivity).
  vm_compute. eexists. reflexivity.
Qed.

(** C6 is false as stated: a pending sentence of the window that is
    already in the in-flight set is not marked by the first call. (On
    Android, the poll of the resume branch marks the generating sentence
    0 [played]; [stop()] then resets it to [pending] while its request is
    still in flight.) *)
Lemma triggerPreGeneration_skips_in_flight :
  exists w,
    run (loadEvents 0 "A. B." ["A."; "B."]%string
         ++ [Call_play; Call_pause; Call_play; PollTick 0;
             MusicStateDone 3 (Fulfilled false) 1000; Call_stop])
      (initial true 3) = Some w
    /\ status <$> sentences (state w) !! 0%nat = Some SPending
    /\ 0 ∈ generatingSet w
    /\ status <$> sentences (state (triggerPreGeneration 0 w)) !! 0%nat
       = Some SPending.
Proof.
  eexists. split; [vm_compute; reflexivity |].
  repeat split; vm_compute; reflexivity.
Qed.

(** C7 is false as stated: with the default window of 3, one [play()] and
    four [skipTo] calls leave five syntheses in flight. *)
Lemma five_in_flight :
  exists w,
    run (loadEvents 0 "A. B. C. D. E." ["A."; "B."; "C."; "D."; "E."]%string
         ++ [Call_play; Call_skipTo 1; Call_skipTo 2; Call_skipTo 3;
             Call_skipTo 4])
      (initial false 3) = Some w
    /\ queueAhead (state w) = 3
    /\ size (generatingSet w) = 5%nat
    /\ ~ (size (generatingSet w) <= Z.to_nat (queueAhead (state w) + 1))%nat.
Proof.
  eexists. split; [vm_compute; reflexivity |].
  split; [reflexivity |].
  split; [vm_compute; reflexivity |].
  vm_compute. lia.
Qed.

(** C8 is false as stated: the segmenter fails on the second load, the
    promise of [loadText] still fulfils and the first text's sentence is
    still there. *)
Lemma failed_load_keeps_sentences :
  exists w w',
    run (loadEvents 0 "A." ["A."%string] ++ [Call_loadText "B."; CacheCleared 2])
      (initial false 3) = Some w
    /\ pending w !! 3%nat = Some (KLoadSplit "B.")
    /\ loadText_split (Rejected "segmenter failed") (consume 3 w)
       = (w', Fulfilled tt)
    /\ sentences (state w') = [newSentence 0 "A."]
    /\ sentences (state w') <> [].
Proof.
  eexists. eexists.
  split; [vm_compute; reflexivity |].
  repeat split; try (vm_compute; reflexivity).
  vm_compute. discriminate.
Qed.

(* ------------------------------------------------------------------ *)
(** *** Instances                                                      *)
(* ------------------------------------------------------------------ *)

(** C10 on a stopped desktop queue of one sentence. *)
Lemma pause_then_play_only_resumes_witness :
  isPaused (state (pause stoppedQueue)) = true
  /\ playbackGeneration (play (pause stoppedQueue))
     = playbackGeneration stoppedQueue
  /\ effects (play (pause stoppedQueue))
     = effects (pause stoppedQueue) ++ [EAudioResume].
Proof.
  destruct (pause_then_play_only_resumes stoppedQueue)
    as (H1 & _ & H3 & _ & _ & _ & _ & _ & H9); [discriminate |].
  exact (conj H1 (conj H3 H9)).
Defined.

(** C6 on two pending sentences: the first one is marked. *)
Lemma triggerPreGeneration_twice_witness :
  0 ∈ generatingSet (triggerPreGeneration 0 twoPending)
  /\ exists s', sentenceAt 0 (sentences (state (triggerPreGeneration 0 twoPending)))
                = Some s'
                /\ status s' = SGenerating.
Proof.
  destruct (triggerPreGeneration_twice 0 twoPending) as (_ & _ & H).
  destruct (H 0 (newSentence 0 "A.")) as [H1 H2];
    [simpl; lia | reflexivity | reflexivity |].
  split; [exact H1 |].
  apply H2. vm_compute. discriminate.
Defined.

(** C8 on a loaded queue whose reload fails in the segmenter. *)
Lemma loadText_segmenter_failure_witness :
  exists w3,
    run [Call_loadText "B."; CacheCleared 0; SplitDone 1 (Rejected "boom")]
      stoppedQueue = Some w3
    /\ sentences (state w3) = map resetSentence (sentences (state stoppedQueue))
    /\ isLoading (state w3) = false.
Proof.
  destruct (loadText_segmenter_failure "B." "boom" stoppedQueue) as [_ H].
  apply H. reflexivity.
Defined.

(** C1 for continuations that captured generation 0 before a [stop()]. *)
Lemma stale_continuations_witness :
  state (retry 0 0 None (stop stoppedQueue)) = state (stop stoppedQueue)
  /\ state (onEnded 0 0 (stop stoppedQueue)) = state (stop stoppedQueue).
Proof.
  destruct (stale_continuations 0 0 None (stop stoppedQueue))
    as (H1 & H2 & _); [vm_compute; discriminate |].
  exact (conj H1 H2).
Defined.

(** C7 on two pending sentences with the default window. *)
Lemma generatingSet_growth_witness :
  (size (generatingSet (triggerPreGeneration 0 twoPending)) <= 0 + 4)%nat.
Proof.
  destruct (generatingSet_growth 0 0 None twoPending) as (_ & H & _).
  exact H.
Defined.

(* ================================================================== *)
(** ** What the building blocks leave alone                            *)
(* ================================================================== *)

Lemma map_key_produceAt (i : Z) (f : Sentence -> Sentence) (ss : list Sentence) :
  (forall s, (id (f s), text (f s)) = (id s, text s)) ->
  map (fun s => (id s, text s)) (produceAt i f ss)
  = map (fun s => (id s, text s)) ss.
Proof.
  intros Hf. unfold produceAt. destruct (i <? 0); [done |].
  generalize (Z.to_nat i). clear i.
  induction ss as [| s ss IH]; intros [| n]; simpl; try done.
  - by rewrite Hf.
  - f_equal. apply IH.
Qed.

Lemma replyUpdate_key (android : bool) (r : SynthReply) (s : Sentence) :
  (id (replyUpdate android r s), text (replyUpdate android r s))
  = (id s, text s).
Proof. unfold replyUpdate. by repeat case_match. Qed.

Lemma settle_frame (notify : option nat) (w : Queue) :
  frame (settle notify w) = frame w.
Proof. by destruct notify. Qed.

Lemma generateSentence_frame (index : Z) (a : option (Z * option nat))
  (w : Queue) :
  frame (generateSentence index a w) = frame w.
Proof.
  unfold generateSentence, frame, skeleton.
  repeat case_match; simpl; try reflexivity.
  by rewrite map_key_produceAt.
Qed.

Lemma preGenerateOne_frame (w : Queue) (i : Z) :
  frame (preGenerateOne w i) = frame w.
Proof.
  unfold preGenerateOne. case_match; [apply generateSentence_frame | done].
Qed.

Lemma foldl_preGenerateOne_frame (l : list Z) (w : Queue) :
  frame (foldl preGenerateOne w l) = frame w.
Proof.
  revert w. induction l as [| i l IH]; intros w; simpl; [done |].
  by rewrite IH, preGenerateOne_frame.
Qed.

Lemma triggerPreGeneration_frame (index : Z) (w : Queue) :
  frame (triggerPreGeneration index w) = frame w.
Proof. apply foldl_preGenerateOne_frame. Qed.

Lemma playWithHtml5Audio_frame (index generation : Z) (w : Queue) :
  frame (playWithHtml5Audio index generation w) = frame w.
Proof. unfold playWithHtml5Audio. by repeat case_match. Qed.

Lemma schedule_frame (k : Cont) (w : Queue) : frame (schedule k w) = frame w.
Proof. reflexivity. Qed.

Lemma emit_frame (e : Effect) (w : Queue) : frame (emit e w) = frame w.
Proof. reflexivity. Qed.

Lemma playSentenceAtIndex_fuel_frame (fuel : nat) (index generation : Z)
  (notify : option nat) (w : Queue) :
  frame (playSentenceAtIndex_fuel fuel index generation notify w) = frame w.
Proof.
  revert index w.
  induction fuel as [| fuel IH]; intros index w;
    cbn [playSentenceAtIndex_fuel];
    repeat case_match;
    rewrite ?IH, ?settle_frame, ?generateSentence_frame,
      ?playWithHtml5Audio_frame, ?schedule_frame, ?emit_frame,
      ?triggerPreGeneration_frame;
    try reflexivity;
    unfold frame, skeleton; simpl; by rewrite map_key_produceAt.
Qed.

Lemma playSentenceAtIndex_frame (index generation : Z) (notify : option nat)
  (w : Queue) :
  frame (playSentenceAtIndex index generation notify w) = frame w.
Proof. apply playSentenceAtIndex_fuel_frame. Qed.

Lemma retry_frame (index generation : Z) (notify : option nat) (w : Queue) :
  frame (retry index generation notify w) = frame w.
Proof.
  unfold retry. case_match; [apply settle_frame |].
  apply playSentenceAtIndex_frame.
Qed.

Lemma clearPollInterval_frame (w : Queue) : frame (clearPollInterval w) = frame w.
Proof. unfold clearPollInterval. by destruct (pollInterval w). Qed.

Lemma startMusicStatePolling_frame (generation : Z) (w : Queue) :
  frame (startMusicStatePolling generation w) = frame w.
Proof.
  unfold startMusicStatePolling, clearPollInterval.
  by destruct (pollInterval w).
Qed.

Lemma musicPlay_done_frame (index generation : Z) (notify : option nat)
  (ok : bool) (w : Queue) :
  frame (musicPlay_done index generation notify ok w) = frame w.
Proof.
  unfold musicPlay_done. rewrite settle_frame.
  destruct ok; [apply startMusicStatePolling_frame |].
  apply playWithHtml5Audio_frame.
Qed.

Lemma setStatusAt_frame (i : Z) (st : SentenceStatus) (w w' : Queue) :
  setStatusAt i st w = Some w' -> frame w' = frame w.
Proof.
  unfold setStatusAt. case_match; [| done]. intros [= <-].
  unfold frame, skeleton. simpl. by rewrite map_key_produceAt.
Qed.

Lemma onEnded_frame (index generation : Z) (w : Queue) :
  frame (onEnded index generation w) = frame w.
Proof.
  unfold onEnded. case_match; [done |].
  destruct (setStatusAt index SPlayed w) as [w1 |] eqn:Hs; [| done].
  apply setStatusAt_frame in Hs.
  repeat case_match; rewrite ?playSentenceAtIndex_frame; exact Hs.
Qed.

Lemma pollTick_frame (h : nat) (w : Queue) : frame (pollTick h w) = frame w.
Proof.
  unfold pollTick. repeat case_match; try done.
  apply clearPollInterval_frame.
Qed.

Lemma pollTick_done_frame (h : nat) (r : Settled bool) (now : Z) (w : Queue) :
  frame (pollTick_done h r now w) = frame w.
Proof.
  unfold pollTick_done.
  destruct (intervals w !! h) as [c |]; [| done].
  destruct r as [b | e]; [| apply settle_frame].
  destruct (negb b && isPlaying (state w) && negb (isPaused (state w)));
    [| done].
  destruct (now - lastAdvanceTime w <? ADVANCE_DEBOUNCE_MS); [done |].
  cbv zeta.
  match goal with
  | |- context [setStatusAt ?i ?st ?w0] =>
      destruct (setStatusAt i st w0) as [w1 |] eqn:Hs
  end.
  - apply setStatusAt_frame in Hs.
    case_match;
      rewrite ?playSentenceAtIndex_frame, ?settle_frame,
        ?clearPollInterval_frame; exact Hs.
  - case_match; by rewrite settle_frame.
Qed.

Lemma generateSentence_done_frame (index : Z) (r : SynthReply) (w : Queue) :
  frame (generateSentence_done index r w) = frame w.
Proof.
  unfold generateSentence_done, frame, skeleton. simpl.
  rewrite map_key_produceAt; [done |]. intros s. apply replyUpdate_key.
Qed.

(* ================================================================== *)
(** ** The calls of the interface                                      *)
(* ================================================================== *)

Lemma resetSentence_key (s : Sentence) :
  (id (resetSentence s), text (resetSentence s)) = (id s, text s).
Proof. unfold resetSentence. by destruct (status s). Qed.

Lemma map_key_resetSentence (ss : list Sentence) :
  map (fun s => (id s, text s)) (map resetSentence ss)
  = map (fun s => (id s, text s)) ss.
Proof.
  rewrite map_map. apply map_ext. intros s. apply resetSentence_key.
Qed.

Lemma stopPlayback_skeleton (w : Queue) : skeleton (stopPlayback w) = skeleton w.
Proof.
  destruct w as [[ss ci pl pa lo qa] gs pg pi la cpi an ap iv pe ef].
  unfold stopPlayback, stopBackends, dropPollInterval, skeleton.
  destruct pi, an; simpl; by rewrite map_key_resetSentence.
Qed.

Lemma skipTarget_skeleton (index : Z) (w : Queue) :
  skeleton (skipTarget index w) = skeleton w.
Proof.
  destruct w as [[ss ci pl pa lo qa] gs pg pi la cpi an ap iv pe ef].
  unfold skipTarget, stopBackends, dropPollInterval, skeleton.
  destruct pi, an; simpl; repeat case_match; simpl;
    rewrite ?map_key_produceAt; done.
Qed.

Lemma frame_skeleton (w w' : Queue) :
  frame w' = frame w -> skeleton w' = skeleton w.
Proof. intros H. exact (f_equal (fun x => fst (fst x)) H). Qed.

Lemma frame_generation (w w' : Queue) :
  frame w' = frame w -> playbackGeneration w' = playbackGeneration w.
Proof. intros H. exact (f_equal (fun x => snd (fst x)) H). Qed.

Lemma frame_isPaused (w w' : Queue) :
  frame w' = frame w -> isPaused (state w') = isPaused (state w).
Proof. intros H. exact (f_equal snd H). Qed.

Lemma skipTo_skeleton (index : Z) (w : Queue) :
  skeleton (skipTo index w) = skeleton w.
Proof.
  rewrite skipTo_unfold. destruct (inBounds index w); [| done].
  rewrite <- (skipTarget_skeleton index w).
  case_match; [| done].
  apply frame_skeleton, playSentenceAtIndex_frame.
Qed.

Lemma play_generation (w : Queue) :
  playbackGeneration (play w)
  = (if (len w =? 0) || isPaused (state w) then playbackGeneration w
     else playbackGeneration w + 1).
Proof.
  unfold play. destruct (len w =? 0); simpl; [done |].
  destruct (isPaused (state w)); simpl.
  - destruct w as [st gs pg [h |] la cpi [|] [cb ps [|]] iv pe ef];
      try reflexivity; simpl; unfold audioResume; simpl;
      by destruct ps.
  - by rewrite playSentenceAtIndex_generation.
Qed.

Lemma play_skeleton (w : Queue) : skeleton (play w) = skeleton w.
Proof.
  unfold play. destruct (len w =? 0); [done |].
  destruct (isPaused (state w)).
  - destruct w as [st gs pg [h |] la cpi [|] [cb ps [|]] iv pe ef];
      try reflexivity; unfold audioResume; simpl; by destruct ps.
  - cbv zeta. etrans; [apply frame_skeleton, playSentenceAtIndex_frame |].
    reflexivity.
Qed.

Lemma pause_frame (w : Queue) :
  skeleton (pause w) = skeleton w
  /\ playbackGeneration (pause w) = playbackGeneration w.
Proof.
  destruct w as [st gs pg [h |] la cpi [|] ap iv pe ef]; by split.
Qed.

Lemma loadText_generation (txt : string) (w : Queue) :
  playbackGeneration (loadText txt w)
  = (if trimIsEmpty txt then playbackGeneration w
     else playbackGeneration w + 2).
Proof.
  unfold loadText. destruct (trimIsEmpty txt); [done |].
  destruct w as [st gs pg [h |] la cpi [|] ap iv pe ef]; simpl; lia.
Qed.

Lemma loadText_skeleton (txt : string) (w : Queue) :
  skeleton (loadText txt w) = skeleton w.
Proof.
  unfold loadText. destruct (trimIsEmpty txt); [done |].
  change (skeleton (stopPlayback (setState (set_isLoading true) w))
          = skeleton w).
  by rewrite stopPlayback_skeleton.
Qed.

Lemma skipForward_cases (w : Queue) :
  skipForward w = w \/ exists index, skipForward w = skipTo index w.
Proof. unfold skipForward. repeat case_match; eauto. Qed.

Lemma skipBack_cases (w : Queue) :
  skipBack w = w \/ exists index, skipBack w = skipTo index w.
Proof. unfold skipBack. repeat case_match; eauto. Qed.

(** Every call is one of five shapes: nothing, [play], [pause],
    [stopPlayback], [skipTo] or [loadText]. *)
Lemma call_cases (e : Event) (w w' : Queue) :
  isCall e = true -> step e w = Some w' ->
  w' = w \/ w' = play w \/ w' = pause w \/ w' = stopPlayback w
  \/ (exists index, w' = skipTo index w)
  \/ (exists txt, w' = loadText txt w).
Proof.
  intros Hc Hs. destruct e; try discriminate; simpl in Hs.
  - injection Hs as <-. eauto 10.
  - injection Hs as <-. eauto.
  - injection Hs as <-. eauto.
  - injection Hs as <-. eauto 10.
  - injection Hs as <-. eauto 10.
  - injection Hs as <-.
    destruct (skipForward_cases w) as [-> | [i ->]]; eauto 10.
  - injection Hs as <-.
    destruct (skipBack_cases w) as [-> | [i ->]]; eauto 10.
  - destruct (isAndroid w); [| done]. injection Hs as <-.
    destruct a; simpl; repeat case_match; eauto 10.
    + destruct (skipForward_cases w) as [-> | [i ->]]; eauto 10.
    + destruct (skipBack_cases w) as [-> | [i ->]]; eauto 10.
Qed.

Lemma onCleanup_skeleton (b : bool) (w : Queue) :
  skeleton (onCleanup b w) = skeleton w.
Proof.
  by destruct w as [st gs pg [h |] la cpi [|] ap iv pe ef], b.
Qed.


Lemma onCleanup_generation (b : bool) (w : Queue) :
  playbackGeneration (onCleanup b w) = playbackGeneration w + 1.
Proof.
  by destruct w as [st gs pg [h |] la cpi [|] ap iv pe ef], b.
Qed.

(** X1. The generation counter never moves back.  A call through the
    interface or a media button may move it and the disposal of the hook
    moves it by one; whatever continuation, poll tick or audio callback
    the environment resumes, the counter stays where it is. *)
Theorem generation_never_decreases (e : Event) (w w' : Queue) :
  step e w = Some w' ->
  playbackGeneration w <= playbackGeneration w'
  /\ (isCall e = false -> isCleanup e = false ->
      playbackGeneration w' = playbackGeneration w)
  /\ (isCleanup e = true -> playbackGeneration w' = playbackGeneration w + 1).
Proof.
  intros Hs. destruct (isCall e) eqn:Hc.
  - assert (Hn : isCleanup e = false) by (by destruct e).
    rewrite Hn. split; [| split; [done | done]].
    destruct (call_cases e w w' Hc Hs)
      as [-> | [-> | [-> | [-> | [[i ->] | [t ->]]]]]].
    + lia.
    + rewrite play_generation. case_match; lia.
    + rewrite (proj2 (pause_frame w)). lia.
    + rewrite stopPlayback_generation. lia.
    + rewrite skipTo_generation. case_match; lia.
    + rewrite loadText_generation. case_match; lia.
  - destruct (isCleanup e) eqn:Hcl.
    + destruct e; try discriminate. simpl in Hs. injection Hs as <-.
      rewrite onCleanup_generation. split; [lia |]. split; done.
    + assert (playbackGeneration w' = playbackGeneration w) as ->;
        [| split; [lia | split; done]].
      destruct e; try discriminate; simpl in Hs;
        repeat case_match; try discriminate; injection Hs as <-.
      all: try (apply frame_generation;
                rewrite ?retry_frame, ?generateSentence_done_frame,
                  ?musicPlay_done_frame, ?onEnded_frame, ?pollTick_frame,
                  ?pollTick_done_frame; reflexivity).
      by destruct r.
Qed.

(** X2. Between two completed loads the sentences keep their number,
    order, identifiers and texts, and the window width and the platform
    never change: every event but the completion of the segmenter's call
    leaves them as they are. *)
Theorem sentences_fixed_between_loads (e : Event) (w w' : Queue) :
  step e w = Some w' -> isSplitDone e = false ->
  map text (sentences (state w')) = map text (sentences (state w))
  /\ map id (sentences (state w')) = map id (sentences (state w))
  /\ length (sentences (state w')) = length (sentences (state w))
  /\ queueAhead (state w') = queueAhead (state w)
  /\ isAndroid w' = isAndroid w.
Proof.
  intros Hs Hn.
  assert (Hk : skeleton w' = skeleton w).
  { destruct (isCall e) eqn:Hc.
    - destruct (call_cases e w w' Hc Hs)
        as [-> | [-> | [-> | [-> | [[i ->] | [t ->]]]]]];
        [ done | apply play_skeleton | apply pause_frame
        | apply stopPlayback_skeleton | apply skipTo_skeleton
        | apply loadText_skeleton ].
    - destruct e; try discriminate; simpl in Hs;
        repeat case_match; try discriminate; injection Hs as <-.
      all: try apply onCleanup_skeleton.
      all: apply frame_skeleton;
        rewrite ?retry_frame, ?generateSentence_done_frame,
          ?musicPlay_done_frame, ?onEnded_frame, ?pollTick_frame,
          ?pollTick_done_frame; reflexivity. }
  unfold skeleton in Hk. injection Hk as Hm Hq Ha.
  assert (Ht := f_equal (map snd) Hm). assert (Hi := f_equal (map fst) Hm).
  rewrite !map_map in Ht, Hi. simpl in Ht, Hi.
  repeat split; try done.
  rewrite <- (length_map (fun s => text s) (sentences (state w'))).
  rewrite <- (length_map (fun s => text s) (sentences (state w))).
  by f_equal.
Qed.

(* ================================================================== *)
(** ** Four invariants, block by block                                 *)
(* ================================================================== *)

Lemma preserves_refl (w : Queue) : preserves w w.
Proof. constructor; [lia | done ..]. Qed.

Lemma preserves_trans (w1 w2 w3 : Queue) :
  preserves w1 w2 -> preserves w2 w3 -> preserves w1 w3.
Proof.
  intros [g1 i1 c1 f1 l1] [g2 i2 c2 f2 l2].
  constructor; [lia | auto ..].
Qed.

Lemma contOk_mono (g g' : Z) (k : Cont) : g <= g' -> contOk g k -> contOk g' k.
Proof.
  intros Hg. destruct k as [i [[g0 n] |] | i g0 n | i g0 n | h | t | t |];
    simpl; try done; lia.
Qed.

Lemma capturedOk_mono (w w' : Queue) :
  playbackGeneration w <= playbackGeneration w' ->
  pending w' = pending w -> intervals w' = intervals w ->
  onEndedCallback (audioPlayer w') = onEndedCallback (audioPlayer w) ->
  capturedOk w -> capturedOk w'.
Proof.
  intros Hg Hp Hi Ha (H1 & H2 & H3). unfold capturedOk.
  rewrite Hp, Hi, Ha. repeat split.
  - eapply Forall_impl; [exact H1 |]. intros k. by apply contOk_mono.
  - eapply Forall_impl; [exact H2 |]. simpl. intros c ?. lia.
  - destruct (onEndedCallback (audioPlayer w)) as [[i g] |]; [lia | done].
Qed.

(** Writes to the PlaybackState only matter to the playhead. *)
Lemma setState_preserves (f : PlaybackState -> PlaybackState) (w : Queue) :
  (indexInRange w -> indexInRange (setState f w)) ->
  preserves w (setState f w).
Proof. intros H. constructor; [simpl; lia | exact H | done ..]. Qed.

Lemma produceAt_status_preserves (i : Z) (g : Sentence -> Sentence) (w : Queue) :
  preserves w
    (setState (fun p => set_sentences (produceAt i g (sentences p)) p) w).
Proof.
  apply setState_preserves. unfold indexInRange, len. simpl.
  by rewrite length_produceAt.
Qed.

Lemma emit_preserves (e : Effect) (w : Queue) : preserves w (emit e w).
Proof. constructor; [simpl; lia | done ..]. Qed.

Lemma with_currentlyPlayingIndex_preserves (i : Z) (w : Queue) :
  preserves w (with_currentlyPlayingIndex i w).
Proof. constructor; [simpl; lia | done ..]. Qed.

Lemma schedule_preserves (k : Cont) (w : Queue) :
  contOk (playbackGeneration w) k -> preserves w (schedule k w).
Proof.
  intros Hk. constructor; [simpl; lia | done | | | done].
  - intros (H1 & H2 & H3). repeat split; try done.
    simpl. apply Forall_app. split; [done |]. by apply Forall_singleton.
  - intros H i Hi. destruct (H i Hi) as (n & a & Hn).
    exists n, a. simpl. by apply lookup_app_l_Some.
Qed.

Lemma lookup_alter_Some {A} (f : A -> A) (l : list A) (i j : nat) (y : A) :
  alter f i l !! j = Some y ->
  exists x, l !! j = Some x /\ (y = x \/ (i = j /\ y = f x)).
Proof.
  rewrite list_lookup_alter. destruct (decide (i = j)) as [-> | Hne].
  - destruct (l !! j) as [x |]; simpl; [| done].
    intros [= <-]. exists x. split; [done |]. by right.
  - intros H. exists y. split; [done |]. by left.
Qed.

Lemma alter_intervals_preserves (f : PollClosure -> PollClosure) (h : nat)
  (w : Queue) :
  (forall c, poll_generation (f c) = poll_generation c) ->
  (forall c, poll_live (f c) = true -> poll_live c = true) ->
  preserves w (with_intervals (alter f h (intervals w)) w).
Proof.
  intros Hg Hl. constructor; [simpl; lia | done | | done |].
  - intros (H1 & H2 & H3). repeat split; try done. simpl.
    apply Forall_alter; [done |]. intros c _ Hc. by rewrite Hg.
  - intros H h' c Hc Hlive. simpl in *.
    apply lookup_alter_Some in Hc as (x & Hx & [-> | [-> ->]]).
    + by apply (H h' x).
    + apply (H h' x); [done |]. by apply Hl.
Qed.

Lemma settle_preserves (notify : option nat) (w : Queue) :
  preserves w (settle notify w).
Proof.
  destruct notify as [h |]; [| apply preserves_refl].
  by apply alter_intervals_preserves.
Qed.

Lemma clearInterval_preserves (h : nat) (w : Queue) :
  preserves w (clearInterval h w).
Proof. by apply alter_intervals_preserves. Qed.

Lemma clearPollInterval_preserves (w : Queue) :
  preserves w (clearPollInterval w).
Proof.
  unfold clearPollInterval. destruct (pollInterval w);
    [apply clearInterval_preserves | apply preserves_refl].
Qed.

(** Once the interval [pollInterval] holds is cleared, none is armed. *)
Lemma cleared_none_live (w : Queue) (h : nat) (h' : nat) (c : PollClosure) :
  liveOk w -> pollInterval w = Some h ->
  alter disarm h (intervals w) !! h' = Some c -> poll_live c = false.
Proof.
  intros Hl Hp Hc. pose proof Hc as Hc'.
  apply lookup_alter_Some in Hc' as (x & Hx & [-> | [-> ->]]); [| done].
  destruct (poll_live x) eqn:Hlive; [| done].
  assert (Some h = Some h') as [= ->] by (rewrite <- Hp; by apply (Hl h' x)).
  rewrite list_lookup_alter_eq, Hx in Hc. simpl in Hc.
  injection Hc as Hd. by rewrite <- Hd in Hlive.
Qed.

Lemma dropPollInterval_preserves (w : Queue) :
  preserves w (dropPollInterval w).
Proof.
  unfold dropPollInterval. destruct (pollInterval w) as [h |] eqn:Hp;
    [| apply preserves_refl].
  constructor; [simpl; lia | done | | done |].
  - intros (H1 & H2 & H3). repeat split; try done. simpl.
    by apply Forall_alter.
  - intros Hl h' c Hc Hlive. simpl in *.
    by rewrite (cleared_none_live w h h' c Hl Hp Hc) in Hlive.
Qed.

Lemma startMusicStatePolling_preserves (generation : Z) (w : Queue) :
  generation <= playbackGeneration w ->
  preserves w (startMusicStatePolling generation w).
Proof.
  intros Hg. unfold startMusicStatePolling, clearPollInterval.
  constructor.
  - destruct (pollInterval w); simpl; lia.
  - by destruct (pollInterval w).
  - intros (H1 & H2 & H3).
    destruct (pollInterval w) as [h |]; (repeat split; try done; simpl;
      apply Forall_app; split; [| by apply Forall_singleton]);
      [by apply Forall_alter | done].
  - by destruct (pollInterval w).
  - intros Hl h' c Hc Hlive.
    destruct (pollInterval w) as [h |] eqn:Hp; simpl in *.
    + apply lookup_snoc_Some in Hc as [[_ Hc] | [-> _]]; [| done].
      by rewrite (cleared_none_live w h h' c Hl Hp Hc) in Hlive.
    + apply lookup_snoc_Some in Hc as [[_ Hc] | [-> _]]; [| done].
      by rewrite (Hl h' c Hc Hlive) in Hp.
Qed.

Lemma with_audioPlayer_preserves (a : AudioPlayer) (w : Queue) :
  match onEndedCallback a with
  | Some (_, g) => g <= playbackGeneration w
  | None => True
  end ->
  preserves w (with_audioPlayer a w).
Proof.
  intros Ha. constructor; [simpl; lia | done | | done | done].
  intros (H1 & H2 & H3). by repeat split.
Qed.

Lemma playWithHtml5Audio_preserves (index generation : Z) (w : Queue) :
  generation <= playbackGeneration w ->
  preserves w (playWithHtml5Audio index generation w).
Proof.
  intros Hg. unfold playWithHtml5Audio, playBuffer.
  repeat case_match; try apply preserves_refl.
  eapply preserves_trans; [| apply emit_preserves].
  by apply with_audioPlayer_preserves.
Qed.

Lemma stopBackends_preserves (w : Queue) : preserves w (stopBackends w).
Proof.
  unfold stopBackends, audioStop.
  eapply preserves_trans; [| apply emit_preserves].
  eapply preserves_trans; [| by apply with_audioPlayer_preserves].
  case_match; [apply emit_preserves | apply preserves_refl].
Qed.

Lemma awaiterOk_contOk (index : Z) (a : option (Z * option nat)) (w : Queue) :
  (forall g n, a = Some (g, n) -> g <= playbackGeneration w) ->
  contOk (playbackGeneration w) (KSynth index a)
  /\ match a with
     | Some (g, n) => contOk (playbackGeneration w) (KRetry index g n)
     | None => True
     end.
Proof. intros H. destruct a as [[g n] |]; simpl; [| done]. split; eauto. Qed.

Lemma generateSentence_preserves (index : Z) (a : option (Z * option nat))
  (w : Queue) :
  (forall g n, a = Some (g, n) -> g <= playbackGeneration w) ->
  preserves w (generateSentence index a w).
Proof.
  intros Ha. destruct (awaiterOk_contOk index a w Ha) as [Hs Hr].
  assert (Hres : preserves w
            match a with
            | Some (g, n) => schedule (KRetry index g n) w
            | None => w
            end).
  { destruct a as [[g n] |]; [by apply schedule_preserves |].
    apply preserves_refl. }
  unfold generateSentence.
  destruct ((index <? 0) || (index >=? len w)); [exact Hres |].
  destruct (bool_decide (index ∈ generatingSet w)); [exact Hres |].
  destruct (sentenceAt index (sentences (state w))) as [s |]; [| exact Hres].
  destruct (bool_decide (status s = SPending)); [| exact Hres].
  constructor; [simpl; lia | | | | done].
  - unfold indexInRange, len. simpl. by rewrite length_produceAt.
  - intros (Hc1 & Hc2 & Hc3). repeat split; try done. simpl.
    apply Forall_app. split; [done |]. by apply Forall_singleton.
  - intros Hfl i Hi. simpl in Hi |- *.
    apply elem_of_union in Hi as [Hi | Hi].
    + apply elem_of_singleton in Hi as ->.
      exists (length (pending w)), a. by apply list_lookup_middle.
    + destruct (Hfl i Hi) as (n & a' & Hn).
      exists n, a'. by apply lookup_app_l_Some.
Qed.

Lemma preGenerateOne_preserves (w : Queue) (i : Z) :
  preserves w (preGenerateOne w i).
Proof.
  unfold preGenerateOne. case_match; [| apply preserves_refl].
  by apply generateSentence_preserves.
Qed.

Lemma foldl_preGenerateOne_preserves (l : list Z) (w : Queue) :
  preserves w (foldl preGenerateOne w l).
Proof.
  revert w. induction l as [| i l IH]; intros w; simpl;
    [apply preserves_refl |].
  eapply preserves_trans; [apply preGenerateOne_preserves | apply IH].
Qed.

Lemma triggerPreGeneration_preserves (index : Z) (w : Queue) :
  preserves w (triggerPreGeneration index w).
Proof. apply foldl_preGenerateOne_preserves. Qed.

(** The branch of [playSentenceAtIndex] that starts a ready sentence. *)
Lemma start_ready_preserves (index generation : Z) (notify : option nat)
  (s : Sentence) (w : Queue) :
  generation = playbackGeneration w ->
  preserves w
    (let w := with_currentlyPlayingIndex index w in
     let w := setState (fun p =>
                set_sentences
                  (produceAt index (with_status SPlaying) (sentences p)) p) w in
     let w := triggerPreGeneration index w in
     if isAndroid w && truthyString (audioFileUrl s) then
       schedule (KMusicPlay index generation notify)
         (emit (EMusicPlay (default EmptyString (audioFileUrl s)) index) w)
     else settle notify (playWithHtml5Audio index generation w)).
Proof.
  intros Hg. cbv zeta.
  set (w1 := setState _ (with_currentlyPlayingIndex index w)).
  assert (H1 : preserves w w1).
  { eapply preserves_trans; [apply with_currentlyPlayingIndex_preserves |].
    apply produceAt_status_preserves. }
  set (w2 := triggerPreGeneration index w1).
  assert (H2 : preserves w w2).
  { eapply preserves_trans; [exact H1 |].
    apply triggerPreGeneration_preserves. }
  assert (Hg2 : playbackGeneration w2 = playbackGeneration w).
  { unfold w2. by rewrite triggerPreGeneration_generation. }
  destruct (isAndroid w2 && truthyString (audioFileUrl s)).
  - eapply preserves_trans; [exact H2 |].
    eapply preserves_trans; [apply emit_preserves |].
    apply schedule_preserves. simpl. lia.
  - eapply preserves_trans; [exact H2 |].
    eapply preserves_trans; [| apply settle_preserves].
    apply playWithHtml5Audio_preserves. lia.
Qed.

Lemma playSentenceAtIndex_fuel_preserves (fuel : nat) (index generation : Z)
  (notify : option nat) (w : Queue) :
  preserves w (playSentenceAtIndex_fuel fuel index generation notify w).
Proof.
  revert index w. induction fuel as [| fuel IH]; intros index w;
    cbn [playSentenceAtIndex_fuel].
  all: destruct (negb (generation =? playbackGeneration w)) eqn:Hg;
    [apply settle_preserves |].
  all: apply negb_false_iff, Z.eqb_eq in Hg.
  all: destruct ((index <? 0) || (index >=? len w)) eqn:Hb;
    [apply settle_preserves |].
  all: apply orb_false_iff in Hb as [Hb _]; apply Z.ltb_ge in Hb.
  all: destruct (negb (isPlaying (state w)) || isPaused (state w));
    [apply settle_preserves |].
  all: destruct (currentlyPlayingIndex w =? index); [apply settle_preserves |].
  all: destruct (sentenceAt index (sentences (state w))) as [s |];
    [| apply settle_preserves].
  all: destruct (status s); try apply settle_preserves.
  all: try (apply generateSentence_preserves; intros g n [= <- <-]; lia).
  all: try (apply schedule_preserves; simpl; lia).
  all: try (by apply start_ready_preserves).
  all: destruct (index + 1 <? len w) eqn:Hn;
    [ apply Z.ltb_lt in Hn
    | eapply preserves_trans; [| apply settle_preserves];
      by apply setState_preserves ].
  - apply preserves_refl.
  - eapply preserves_trans; [| apply IH].
    apply setState_preserves. unfold indexInRange, len in *. simpl. lia.
Qed.

Lemma playSentenceAtIndex_preserves (index generation : Z)
  (notify : option nat) (w : Queue) :
  preserves w (playSentenceAtIndex index generation notify w).
Proof. apply playSentenceAtIndex_fuel_preserves. Qed.

Lemma retry_preserves (index generation : Z) (notify : option nat)
  (w : Queue) :
  preserves w (retry index generation notify w).
Proof.
  unfold retry. case_match;
    [apply settle_preserves | apply playSentenceAtIndex_preserves].
Qed.

Lemma musicPlay_done_preserves (index generation : Z) (notify : option nat)
  (ok : bool) (w : Queue) :
  generation <= playbackGeneration w ->
  preserves w (musicPlay_done index generation notify ok w).
Proof.
  intros Hg. unfold musicPlay_done.
  eapply preserves_trans; [| apply settle_preserves].
  destruct ok; [by apply startMusicStatePolling_preserves |].
  by apply playWithHtml5Audio_preserves.
Qed.

Lemma setStatusAt_preserves (i : Z) (st : SentenceStatus) (w w' : Queue) :
  setStatusAt i st w = Some w' ->
  preserves w w' /\ len w' = len w /\ 0 <= i
  /\ currentIndex (state w') = currentIndex (state w).
Proof.
  unfold setStatusAt.
  destruct (sentenceAt i (sentences (state w))) as [s |] eqn:Hs; [| done].
  intros [= <-]. apply sentenceAt_Some in Hs.
  split; [apply produceAt_status_preserves |].
  unfold len. simpl. rewrite length_produceAt. repeat split; lia.
Qed.

Lemma onEnded_preserves (index generation : Z) (w : Queue) :
  preserves w (onEnded index generation w).
Proof.
  unfold onEnded. case_match; [apply preserves_refl |].
  destruct (setStatusAt index SPlayed w) as [w1 |] eqn:Hs;
    [| apply preserves_refl].
  apply setStatusAt_preserves in Hs as (H1 & Hl & Hi & Hc).
  eapply preserves_trans; [exact H1 |].
  destruct ((index + 1 <? len w1) && isPlaying (state w1)
            && negb (isPaused (state w1))) eqn:Hb.
  - apply andb_true_iff in Hb as [Hb _].
    apply andb_true_iff in Hb as [Hb _]. apply Z.ltb_lt in Hb.
    eapply preserves_trans; [| apply playSentenceAtIndex_preserves].
    apply setState_preserves. unfold indexInRange, len in *. simpl. lia.
  - case_match; [| apply preserves_refl].
    apply setState_preserves. unfold indexInRange, len. simpl. lia.
Qed.

Lemma with_lastAdvanceTime_preserves (t : Z) (w : Queue) :
  preserves w (with_lastAdvanceTime t w).
Proof. constructor; [simpl; lia | done ..]. Qed.

Lemma pollTick_done_preserves (h : nat) (r : Settled bool) (now : Z)
  (w : Queue) :
  preserves w (pollTick_done h r now w).
Proof.
  unfold pollTick_done.
  destruct (intervals w !! h) as [c |]; [| apply preserves_refl].
  destruct r as [b | e]; [| apply settle_preserves].
  destruct (negb b && isPlaying (state w) && negb (isPaused (state w)));
    [| apply preserves_refl].
  destruct (now - lastAdvanceTime w <? ADVANCE_DEBOUNCE_MS);
    [apply preserves_refl |].
  cbv zeta.
  set (w0 := with_lastAdvanceTime now
               (with_intervals
                  (alter (set_isAdvancing true) h (intervals w)) w)).
  assert (H0 : preserves w w0).
  { eapply preserves_trans;
      [by apply (alter_intervals_preserves (set_isAdvancing true) h w) |].
    apply with_lastAdvanceTime_preserves. }
  eapply preserves_trans; [exact H0 |].
  change (currentIndex (state w0)) with (currentIndex (state w)).
  change (len w0) with (len w).
  destruct (setStatusAt (currentIndex (state w)) SPlayed w0) as [w1 |] eqn:Hs.
  - apply setStatusAt_preserves in Hs as (H1 & Hl & Hi & Hc).
    destruct (currentIndex (state w) + 1 <? len w) eqn:Hn.
    + apply Z.ltb_lt in Hn.
      eapply preserves_trans; [exact H1 |].
      eapply preserves_trans; [| apply playSentenceAtIndex_preserves].
      apply setState_preserves. subst w0.
      unfold indexInRange, len in *. simpl in *. lia.
    + eapply preserves_trans; [exact H1 |].
      eapply preserves_trans; [| apply settle_preserves].
      eapply preserves_trans; [| apply clearPollInterval_preserves].
      apply setState_preserves. unfold indexInRange, len. simpl. lia.
  - case_match; apply settle_preserves.
Qed.

Lemma with_audioPlayer_same_preserves (a : AudioPlayer) (w : Queue) :
  onEndedCallback a = onEndedCallback (audioPlayer w) ->
  preserves w (with_audioPlayer a w).
Proof.
  intros Ha. constructor; [simpl; lia | done | | done | done].
  intros (H1 & H2 & H3). repeat split; try done. simpl. by rewrite Ha.
Qed.

Lemma bump_preserves (w : Queue) :
  preserves w (with_playbackGeneration (playbackGeneration w + 1) w).
Proof.
  constructor; [simpl; lia | done | | done | done].
  apply capturedOk_mono; simpl; try done; lia.
Qed.

Lemma with_generatingSet_subseteq_preserves (g : gset Z) (w : Queue) :
  g ⊆ generatingSet w -> preserves w (with_generatingSet g w).
Proof.
  intros Hg. constructor; [simpl; lia | done | done | | done].
  intros H i Hi. apply (H i). by apply Hg.
Qed.

Lemma stopPlayback_preserves (w : Queue) : preserves w (stopPlayback w).
Proof.
  unfold stopPlayback. cbv zeta.
  eapply preserves_trans; [apply bump_preserves |].
  eapply preserves_trans; [apply with_currentlyPlayingIndex_preserves |].
  eapply preserves_trans; [apply dropPollInterval_preserves |].
  eapply preserves_trans; [apply stopBackends_preserves |].
  apply setState_preserves. intros _. unfold indexInRange, len. simpl. lia.
Qed.

Lemma audioResume_preserves (w : Queue) : preserves w (audioResume w).
Proof.
  unfold audioResume. eapply preserves_trans; [| apply emit_preserves].
  case_match; [by apply with_audioPlayer_same_preserves |].
  apply preserves_refl.
Qed.

Lemma audioPause_preserves (w : Queue) : preserves w (audioPause w).
Proof.
  unfold audioPause. eapply preserves_trans; [| apply emit_preserves].
  by apply with_audioPlayer_same_preserves.
Qed.

Lemma play_preserves (w : Queue) : preserves w (play w).
Proof.
  unfold play. destruct (len w =? 0) eqn:Hl; [apply preserves_refl |].
  apply Z.eqb_neq in Hl.
  destruct (isPaused (state w)).
  - cbv zeta.
    eapply preserves_trans; [by apply (setState_preserves (set_isPaused false)) |].
    case_match.
    + eapply preserves_trans; [apply emit_preserves |].
      apply startMusicStatePolling_preserves. simpl. lia.
    + apply audioResume_preserves.
  - cbv zeta.
    eapply preserves_trans; [apply bump_preserves |].
    eapply preserves_trans; [| apply playSentenceAtIndex_preserves].
    apply setState_preserves. unfold indexInRange, len in *. simpl.
    intros H. case_match; [lia |].
    match goal with Hc : (_ <? 0) = false |- _ => apply Z.ltb_ge in Hc end.
    lia.
Qed.

Lemma pause_preserves (w : Queue) : preserves w (pause w).
Proof.
  unfold pause. cbv zeta.
  eapply preserves_trans; [by apply (setState_preserves (set_isPaused true)) |].
  case_match.
  - eapply preserves_trans; [apply emit_preserves |].
    apply clearPollInterval_preserves.
  - apply audioPause_preserves.
Qed.

Lemma skipTarget_preserves (index : Z) (w : Queue) :
  inBounds index w = true -> preserves w (skipTarget index w).
Proof.
  intros Hb. unfold skipTarget. cbv zeta.
  set (w1 := stopBackends _).
  assert (H1 : preserves w w1).
  { unfold w1.
    eapply preserves_trans; [apply bump_preserves |].
    eapply preserves_trans; [apply with_currentlyPlayingIndex_preserves |].
    eapply preserves_trans; [apply dropPollInterval_preserves |].
    apply stopBackends_preserves. }
  assert (Hl : len w1 = len w).
  { unfold w1, stopBackends, dropPollInterval.
    destruct w as [st gs pg [h |] la cpi [|] ap iv pe ef]; reflexivity. }
  eapply preserves_trans; [exact H1 |].
  set (w2 := if (_ >=? 0) && (_ <? len w1) then _ else w1).
  assert (H2 : preserves w1 w2 /\ len w2 = len w1).
  { unfold w2. repeat case_match; try (split; [apply preserves_refl | done]).
    split; [apply produceAt_status_preserves |].
    unfold len. simpl. by rewrite length_produceAt. }
  destruct H2 as [H2 Hl2].
  eapply preserves_trans; [exact H2 |].
  apply setState_preserves. intros _.
  unfold inBounds in Hb. apply andb_true_iff in Hb as [Hb1 Hb2].
  apply Z.leb_le in Hb1. apply Z.ltb_lt in Hb2.
  unfold indexInRange. simpl. change (len (setState _ w2)) with (len w2).
  lia.
Qed.

Lemma skipTo_preserves (index : Z) (w : Queue) : preserves w (skipTo index w).
Proof.
  rewrite skipTo_unfold.
  destruct (inBounds index w) eqn:Hb; [| apply preserves_refl].
  case_match; [| by apply skipTarget_preserves].
  eapply preserves_trans; [by apply skipTarget_preserves |].
  apply playSentenceAtIndex_preserves.
Qed.

Lemma loadText_preserves (txt : string) (w : Queue) :
  preserves w (loadText txt w).
Proof.
  unfold loadText. case_match; [apply preserves_refl |]. cbv zeta.
  eapply preserves_trans;
    [by apply (setState_preserves (set_isLoading true)) |].
  eapply preserves_trans; [apply stopPlayback_preserves |].
  eapply preserves_trans;
    [apply (with_generatingSet_subseteq_preserves ∅); set_solver |].
  eapply preserves_trans; [apply bump_preserves |].
  eapply preserves_trans; [apply emit_preserves |].
  by apply schedule_preserves.
Qed.

Lemma loadText_cleared_preserves (txt : string) (w : Queue) :
  preserves w (loadText_cleared txt w).
Proof.
  unfold loadText_cleared.
  eapply preserves_trans; [apply emit_preserves |].
  by apply schedule_preserves.
Qed.

Lemma loadText_split_preserves (r : Settled (list string)) (w : Queue) :
  preserves w (fst (loadText_split r w)).
Proof.
  destruct r as [ss | e]; simpl.
  - apply setState_preserves. intros _. unfold indexInRange, len. simpl. lia.
  - by apply setState_preserves.
Qed.

(** Running a continuation that is not a synthesis request. *)
Lemma consume_preserves (n : nat) (k : Cont) (w : Queue) :
  pending w !! n = Some k -> (forall i a, k <> KSynth i a) ->
  preserves w (consume n w).
Proof.
  intros Hn Hk. constructor; [simpl; lia | done | | | done].
  - intros (H1 & H2 & H3). repeat split; try done. simpl.
    by apply Forall_insert.
  - intros H i Hi. destruct (H i Hi) as (n' & a & Hn').
    exists n', a. simpl. rewrite list_lookup_insert_ne; [done |].
    intros ->. rewrite Hn in Hn'. injection Hn' as ->. by eapply Hk.
Qed.

(** Completing a synthesis request: the index leaves the in-flight set
    together with its continuation. *)
Lemma synthDone_preserves (n : nat) (index : Z) (a : option (Z * option nat))
  (r : SynthReply) (w : Queue) :
  pending w !! n = Some (KSynth index a) ->
  preserves w (generateSentence_done index r (consume n w)).
Proof.
  intros Hn. constructor; [simpl; lia | | | | done].
  - unfold indexInRange, len. simpl. by rewrite length_produceAt.
  - intros (H1 & H2 & H3). repeat split; try done. simpl.
    by apply Forall_insert.
  - intros H i Hi. simpl in Hi |- *.
    apply elem_of_difference in Hi as [Hi Hne].
    destruct (H i Hi) as (n' & a' & Hn').
    exists n', a'. rewrite list_lookup_insert_ne; [done |].
    intros ->. rewrite Hn in Hn'. injection Hn' as -> _.
    apply Hne. by apply elem_of_singleton.
Qed.

(** One event keeps the four invariants. *)
Lemma onCleanup_preserves (b : bool) (w : Queue) :
  preserves w (onCleanup b w).
Proof.
  unfold onCleanup. cbv zeta.
  eapply preserves_trans; [apply bump_preserves |].
  eapply preserves_trans; [apply clearPollInterval_preserves |].
  eapply preserves_trans;
    [| eapply preserves_trans;
         [apply stopBackends_preserves
         | apply with_generatingSet_subseteq_preserves, empty_subseteq]].
  case_match; [apply emit_preserves | apply preserves_refl].
Qed.

Lemma step_preserves (e : Event) (w w' : Queue) :
  capturedOk w -> step e w = Some w' -> preserves w w'.
Proof.
  intros Hcap Hs. destruct (isCall e) eqn:Hc.
  { destruct (call_cases e w w' Hc Hs)
      as [-> | [-> | [-> | [-> | [[i ->] | [t ->]]]]]];
      [ apply preserves_refl | apply play_preserves | apply pause_preserves
      | apply stopPlayback_preserves | apply skipTo_preserves
      | apply loadText_preserves ]. }
  destruct e; try discriminate; simpl in Hs.
  - destruct (pending w !! n) as [[index a | | | | | |] |] eqn:Hn;
      try discriminate. injection Hs as <-.
    pose proof (synthDone_preserves n index a r w Hn) as H1.
    destruct a as [[g nt] |]; [| exact H1].
    eapply preserves_trans; [exact H1 | apply retry_preserves].
  - destruct (pending w !! n) as [[| index g nt | | | | |] |] eqn:Hn;
      try discriminate. injection Hs as <-.
    eapply preserves_trans; [by eapply consume_preserves |].
    apply retry_preserves.
  - destruct (pending w !! n) as [[| | index g nt | | | |] |] eqn:Hn;
      try discriminate. injection Hs as <-.
    eapply preserves_trans; [by eapply consume_preserves |].
    apply musicPlay_done_preserves.
    destruct Hcap as (H1 & _ & _).
    apply (Forall_lookup_1 _ _ _ _ H1 Hn).
  - destruct (onEndedCallback (audioPlayer w)) as [[index g] |] eqn:Ha;
      [| done].
    destruct (audio_paused (audioPlayer w)); [done |]. injection Hs as <-.
    eapply preserves_trans; [| apply onEnded_preserves].
    by apply with_audioPlayer_same_preserves.
  - destruct (intervals w !! h) as [c |] eqn:Hh; [| done].
    destruct (poll_live c); [| done]. injection Hs as <-.
    unfold pollTick. rewrite Hh.
    repeat case_match; try apply preserves_refl.
    + apply clearPollInterval_preserves.
    + eapply preserves_trans; [apply emit_preserves |].
      by apply schedule_preserves.
  - destruct (pending w !! n) as [[| | | h | | |] |] eqn:Hn;
      try discriminate. injection Hs as <-.
    eapply preserves_trans; [by eapply consume_preserves |].
    apply pollTick_done_preserves.
  - destruct (pending w !! n) as [[| | | | txt | |] |] eqn:Hn;
      try discriminate. injection Hs as <-.
    eapply preserves_trans; [by eapply consume_preserves |].
    apply loadText_cleared_preserves.
  - destruct (pending w !! n) as [[| | | | | txt |] |] eqn:Hn;
      try discriminate. injection Hs as <-.
    eapply preserves_trans; [by eapply consume_preserves |].
    apply loadText_split_preserves.
  - injection Hs as <-. apply onCleanup_preserves.
Qed.

Lemma initial_invariants (android : bool) (ahead : Z) :
  indexInRange (initial android ahead) /\ capturedOk (initial android ahead)
  /\ inFlightOk (initial android ahead) /\ liveOk (initial android ahead).
Proof.
  repeat split; done.
Qed.

Lemma run_invariants (es : list Event) (w w' : Queue) :
  indexInRange w /\ capturedOk w /\ inFlightOk w /\ liveOk w ->
  run es w = Some w' ->
  indexInRange w' /\ capturedOk w' /\ inFlightOk w' /\ liveOk w'.
Proof.
  revert w. induction es as [| e es IH]; intros w Hinv Hr; simpl in Hr.
  - by injection Hr as <-.
  - destruct (step e w) as [w1 |] eqn:Hs; [| done].
    destruct Hinv as (Hi & Hc & Hf & Hl).
    destruct (step_preserves e w w1 Hc Hs) as [_ Pi Pc Pf Pl].
    apply (IH w1); auto.
Qed.

Lemma reachable_invariants (android : bool) (ahead : Z) (es : list Event)
  (w : Queue) :
  run es (initial android ahead) = Some w ->
  indexInRange w /\ capturedOk w /\ inFlightOk w /\ liveOk w.
Proof. apply run_invariants, initial_invariants. Qed.

(* ================================================================== *)
(** ** What holds in every state of every execution                    *)
(* ================================================================== *)

(** X3. In every state the hook can reach, the playhead is -1 or the
    index of a sentence of the current list. *)
Theorem playhead_in_range (android : bool) (ahead : Z) (es : list Event)
  (w : Queue) :
  run es (initial android ahead) = Some w ->
  currentIndex (state w) = -1
  \/ inBounds (currentIndex (state w)) w = true.
Proof.
  intros Hr. destruct (reachable_invariants _ _ _ _ Hr) as (Hi & _).
  unfold indexInRange in Hi. unfold inBounds.
  destruct (decide (currentIndex (state w) = -1)) as [He | Hne]; [by left |].
  right. apply andb_true_iff. split; [apply Z.leb_le | apply Z.ltb_lt]; lia.
Qed.

(** X4. In every reachable state, no suspended continuation, no poll
    closure and no finish callback holds a generation above the counter:
    whatever was captured was captured at or before the present value, so
    one increment makes all of it stale. *)
Theorem captured_generations_not_ahead (android : bool) (ahead : Z)
  (es : list Event) (w : Queue) :
  run es (initial android ahead) = Some w ->
  (forall n index g notify,
     pending w !! n = Some (KRetry index g notify)
     \/ pending w !! n = Some (KMusicPlay index g notify)
     \/ pending w !! n = Some (KSynth index (Some (g, notify))) ->
     g <= playbackGeneration w)
  /\ (forall h c, intervals w !! h = Some c ->
                  poll_generation c <= playbackGeneration w)
  /\ (forall index g, onEndedCallback (audioPlayer w) = Some (index, g) ->
                      g <= playbackGeneration w).
Proof.
  intros Hr.
  destruct (reachable_invariants _ _ _ _ Hr) as (_ & (H1 & H2 & H3) & _).
  repeat split.
  - intros n index g notify [Hn | [Hn | Hn]];
      exact (Forall_lookup_1 _ _ _ _ H1 Hn).
  - intros h c Hc. exact (Forall_lookup_1 _ _ _ _ H2 Hc).
  - intros index g Ha. by rewrite Ha in H3.
Qed.

(** X5. In every reachable state, each index of the in-flight set has a
    synthesis request that has not been answered yet: a [generateSentence]
    for that index is suspended at its [await]. *)
Theorem in_flight_has_request (android : bool) (ahead : Z) (es : list Event)
  (w : Queue) (i : Z) :
  run es (initial android ahead) = Some w ->
  i ∈ generatingSet w ->
  exists n a, pending w !! n = Some (KSynth i a).
Proof.
  intros Hr Hi.
  destruct (reachable_invariants _ _ _ _ Hr) as (_ & _ & Hf & _).
  exact (Hf i Hi).
Qed.

(** X6. In every reachable state at most one poll interval is armed, and
    it is the one [pollInterval] holds: a cleared or replaced interval
    never ticks again. *)
Theorem single_armed_interval (android : bool) (ahead : Z) (es : list Event)
  (w : Queue) (h : nat) :
  run es (initial android ahead) = Some w ->
  is_Some (step (PollTick h) w) ->
  pollInterval w = Some h
  /\ forall h', is_Some (step (PollTick h') w) -> h' = h.
Proof.
  intros Hr Hh.
  destruct (reachable_invariants _ _ _ _ Hr) as (_ & _ & _ & Hl).
  assert (Hlive : forall k, is_Some (step (PollTick k) w) ->
                            pollInterval w = Some k).
  { intros k [w' Hk]. simpl in Hk.
    destruct (intervals w !! k) as [c |] eqn:Hc; [| done].
    destruct (poll_live c) eqn:Hlv; [| done]. by apply (Hl k c). }
  split; [by apply Hlive |].
  intros h' Hh'. apply Hlive in Hh, Hh'. congruence.
Qed.

(* ================================================================== *)
(** ** After stop, and while paused                                    *)
(* ================================================================== *)

Lemma musicPlay_done_state (index generation : Z) (notify : option nat)
  (ok : bool) (w : Queue) :
  state (musicPlay_done index generation notify ok w) = state w.
Proof.
  unfold musicPlay_done, startMusicStatePolling, clearPollInterval,
    playWithHtml5Audio.
  destruct notify, ok; simpl; repeat case_match; reflexivity.
Qed.

Lemma settle_state (notify : option nat) (w : Queue) :
  state (settle notify w) = state w.
Proof. by destruct notify. Qed.




Lemma idle_pollTick_done (h : nat) (r : Settled bool) (now : Z) (w : Queue) :
  isPlaying (state w) = false \/ isPaused (state w) = true ->
  state (pollTick_done h r now w) = state w.
Proof.
  intros Hidle. unfold pollTick_done.
  destruct (intervals w !! h); [| done].
  destruct r as [b | e]; [| apply settle_state].
  assert (negb b && isPlaying (state w) && negb (isPaused (state w)) = false)
    as ->; [| done].
  destruct Hidle as [-> | ->]; [apply andb_false_intro1, andb_false_r |].
  apply andb_false_r.
Qed.

Lemma stopPlayback_shape (w : Queue) :
  isPlaying (state (stopPlayback w)) = false
  /\ pending (stopPlayback w) = pending w
  /\ playbackGeneration (stopPlayback w) = playbackGeneration w + 1
  /\ onEndedCallback (audioPlayer (stopPlayback w)) = None.
Proof.
  destruct w as [st gs pg [h |] la cpi [|] ap iv pe ef]; by repeat split.
Qed.

(** X7. Once [stop()] has returned, nothing the playback side still has
    in flight can change what the store shows: the finish callback is
    gone and no poll interval is armed, and resuming any retry, any
    [musicPlay] continuation or any poll query leaves the PlaybackState
    exactly as [stop()] left it. *)
Theorem stop_quiesces (android : bool) (ahead : Z) (es : list Event)
  (w : Queue) :
  run es (initial android ahead) = Some w ->
  step AudioEnded (stop w) = None
  /\ (forall h, step (PollTick h) (stop w) = None)
  /\ (forall e w', isPlaybackEvent e = true ->
                   step e (stop w) = Some w' -> state w' = state (stop w)).
Proof.
  intros Hr. unfold stop.
  destruct (reachable_invariants _ _ _ _ Hr) as (_ & Hcap & _ & Hlive).
  destruct (stopPlayback_shape w) as (Hpl & Hpe & Hg & Hcb).
  assert (Haudio : step AudioEnded (stopPlayback w) = None).
  { unfold step. cbv zeta. by rewrite Hcb. }
  assert (Hpoll : forall h, step (PollTick h) (stopPlayback w) = None).
  { intros h. unfold step.
    destruct (intervals (stopPlayback w) !! h) as [c |] eqn:Hc; [| done].
    assert (poll_live c = false) as ->; [| done].
    assert (Hl : liveOk (stopPlayback w))
      by (apply stopPlayback_preserves, Hlive).
    destruct (poll_live c) eqn:Hlv; [| done].
    specialize (Hl h c Hc Hlv).
    destruct w as [st gs pg [k |] la cpi [|] ap iv pe ef]; discriminate. }
  split; [exact Haudio |]. split; [exact Hpoll |].
  intros e w' He Hs. destruct e; try discriminate.
  - unfold step in Hs.
    destruct (pending (stopPlayback w) !! n)
      as [[| index g nt | | | | |] |] eqn:Hn; try discriminate.
    injection Hs as <-.
    rewrite Hpe in Hn. destruct Hcap as (H1 & _).
    pose proof (Forall_lookup_1 _ _ _ _ H1 Hn) as Hle. simpl in Hle.
    apply (stale_retry_discarded index g nt (consume n (stopPlayback w))).
    change (g <> playbackGeneration (stopPlayback w)). rewrite Hg. lia.
  - unfold step in Hs.
    destruct (pending (stopPlayback w) !! n)
      as [[| | index g nt | | | |] |]; try discriminate.
    injection Hs as <-. by rewrite musicPlay_done_state.
  - specialize (Hpoll h). congruence.
  - unfold step in Hs.
    destruct (pending (stopPlayback w) !! n) as [[| | | h | | |] |];
      try discriminate.
    injection Hs as <-.
    rewrite idle_pollTick_done; [done |]. left. exact Hpl.
Qed.




(* ================================================================== *)
(** ** Loading                                                         *)
(* ================================================================== *)

Lemma loadText_shape (txt : string) (w : Queue) :
  trimIsEmpty txt = false ->
  generatingSet (loadText txt w) = ∅
  /\ playbackGeneration (loadText txt w) = playbackGeneration w + 2
  /\ onEndedCallback (audioPlayer (loadText txt w)) = None
  /\ pollInterval (loadText txt w) = None
  /\ currentlyPlayingIndex (loadText txt w) = -1.
Proof.
  intros Hne. unfold loadText. rewrite Hne.
  destruct w as [st gs pg [h |] la cpi [|] ap iv pe ef]; simpl;
    repeat split; lia.
Qed.

(** White space [trim] strips beyond ASCII, and two characters it
    keeps: a load of the first three texts returns at once. *)
Example blank_texts (w : Queue) :
  trimIsEmpty noBreakSpace = true
  /\ trimIsEmpty byteOrderMarkLine = true
  /\ trimIsEmpty ideographicSpace = true
  /\ trimIsEmpty zeroWidthSpace = false
  /\ trimIsEmpty nextLine = false
  /\ loadText noBreakSpace w = w
  /\ playbackGeneration (loadText noBreakSpace w) = playbackGeneration w.
Proof. by repeat split. Qed.

(** X9. A blank text, one made only of characters [trim] strips, is
    ignored: nothing changes and no backend is called. Whenever the
    segmenter's answer to a load arrives, whatever has run since the
    call, the whole list is replaced: one sentence per string, in order,
    numbered from 0, each [pending] with no audio and no error, and the
    queue is stopped at -1, not paused and not loading; the in-flight set
    and the generation are not written at that point. For a text that is
    not blank, when the call, the answer of the cache and the answer of
    the segmenter follow each other with nothing in between, the load
    always completes, and then also the in-flight set is empty, there is
    no finish callback and the generation is two above the one before
    the call. *)
Theorem loadText_success (txt : string) (ss : list string) (w : Queue) :
  (trimIsEmpty txt = true -> step (Call_loadText txt) w = Some w)
  /\ (forall n,
        pending w !! n = Some (KLoadSplit txt) ->
        exists w',
          step (SplitDone n (Fulfilled ss)) w = Some w'
          /\ length (sentences (state w')) = length ss
          /\ (forall i : nat,
                sentences (state w') !! i
                = (fun s => {| id := Z.of_nat i; text := s;
                               status := SPending;
                               audioBuffer := None; audioFileUrl := None;
                               duration := None; error := None |})
                    <$> ss !! i)
          /\ currentIndex (state w') = -1
          /\ isPlaying (state w') = false
          /\ isPaused (state w') = false
          /\ isLoading (state w') = false
          /\ generatingSet w' = generatingSet w
          /\ playbackGeneration w' = playbackGeneration w)
  /\ (trimIsEmpty txt = false ->
      exists w',
        run (loadEvents (length (pending w)) txt ss) w = Some w'
        /\ length (sentences (state w')) = length ss
        /\ (forall i : nat,
              sentences (state w') !! i
              = (fun s => {| id := Z.of_nat i; text := s; status := SPending;
                             audioBuffer := None; audioFileUrl := None;
                             duration := None; error := None |})
                  <$> ss !! i)
        /\ currentIndex (state w') = -1
        /\ isPlaying (state w') = false
        /\ isPaused (state w') = false
        /\ isLoading (state w') = false
        /\ generatingSet w' = ∅
        /\ onEndedCallback (audioPlayer w') = None
        /\ playbackGeneration w' = playbackGeneration w + 2).
Proof.
  split.
  { intros Hb. simpl. unfold loadText. by rewrite Hb. }
  split.
  { intros n Hn. cbn [step]. rewrite Hn.
    eexists. split; [reflexivity |]. simpl.
    repeat split; try done.
    - by rewrite length_imap.
    - intros i. by rewrite list_lookup_imap. }
  intros Hne.
  destruct (loadText_frame txt w Hne) as [Hp _].
  destruct (loadText_shape txt w Hne) as (Hg & Ht & Hcb & _).
  unfold loadEvents. cbn [run step].
  set (w1 := loadText txt w) in *.
  rewrite Hp, lookup_snoc_length.
  set (w2 := loadText_cleared txt (consume (length (pending w)) w1)).
  assert (Hp2 : pending w2 = (pending w ++ [KDone]) ++ [KLoadSplit txt]).
  { unfold w2, loadText_cleared, consume. simpl.
    by rewrite Hp, consume_snoc. }
  rewrite Hp2.
  replace (S (length (pending w))) with (length (pending w ++ [KDone]))
    by (rewrite length_app; simpl; lia).
  rewrite lookup_snoc_length.
  eexists. split; [reflexivity |]. simpl.
  repeat split; try done.
  - by rewrite length_imap.
  - intros i. by rewrite list_lookup_imap.
Qed.

(* ================================================================== *)
(** ** One synthesis request                                           *)
(* ================================================================== *)


Lemma sentenceAt_textAt (k : Z) (s : Sentence) (w : Queue) :
  sentenceAt k (sentences (state w)) = Some s -> textAt k w = text s.
Proof. unfold textAt. by intros ->. Qed.

(** X11. [generateSentence] sends nothing when it should not: for an
    index outside the list, an index already in flight, or a sentence
    that is not [pending], the fire-and-forget call changes nothing at
    all, and the awaited call only suspends its caller: no request, no
    status change, no new entry in the in-flight set. *)
Theorem generateSentence_guard (index : Z) (w : Queue) :
  inBounds index w = false
  \/ index ∈ generatingSet w
  \/ (exists s, sentenceAt index (sentences (state w)) = Some s
                /\ status s <> SPending) ->
  generateSentence index None w = w
  /\ forall generation notify,
       generateSentence index (Some (generation, notify)) w
       = schedule (KRetry index generation notify) w.
Proof.
  intros Hguard.
  assert (Hcases : (index <? 0) || (index >=? len w) = true
                   \/ bool_decide (index ∈ generatingSet w) = true
                   \/ exists s, sentenceAt index (sentences (state w)) = Some s
                                /\ bool_decide (status s = SPending) = false).
  { destruct Hguard as [Hb | [Hin | (s & Hs & Hst)]].
    - left. by rewrite outOfBounds_inBounds, Hb.
    - right. left. by apply bool_decide_eq_true.
    - right. right. exists s. split; [done |]. by apply bool_decide_eq_false. }
  unfold generateSentence.
  destruct Hcases as [-> | [Hin | (s & Hs & Hst)]]; [done | |].
  - rewrite Hin. by destruct (_ || _).
  - rewrite Hs, Hst. by repeat case_match.
Qed.

(** X12. One request, one answer: when the loop test passes at an index,
    [generateSentence] followed by the completion of its request sends
    exactly one [synthesize_chunk] with the sentence's text, leaves the
    in-flight set as it was before the request, gives the sentence the
    status the reply decides ([ready] or [error]), and touches no other
    sentence. *)
Theorem request_round_trip (index : Z) (r : SynthReply) (w : Queue) :
  needsGeneration w index = true ->
  let w2 := generateSentence_done index r (generateSentence index None w) in
  generatingSet w2 = generatingSet w
  /\ effects w2 = effects w ++ [ESynthesize index (textAt index w)]
  /\ (exists s, sentenceAt index (sentences (state w)) = Some s
                /\ sentenceAt index (sentences (state w2))
                   = Some (replyUpdate (isAndroid w) r
                             (with_status SGenerating s)))
  /\ (forall j, j <> index ->
                sentenceAt j (sentences (state w2))
                = sentenceAt j (sentences (state w)))
  /\ length (sentences (state w2)) = length (sentences (state w)).
Proof.
  intros Hn.
  destruct (generateSentence_fresh w index Hn) as (s & Hs & Hst & Hin & ->).
  unfold generateSentence_done. simpl. repeat split.
  - apply set_eq. intros x.
    rewrite elem_of_difference, elem_of_union, elem_of_singleton.
    split; [tauto |]. intros Hx. split; [by right |]. by intros ->.
  - by rewrite (sentenceAt_textAt index s w Hs).
  - exists s. split; [done |].
    apply sentenceAt_produceAt_eq. by apply sentenceAt_produceAt_eq.
  - intros j Hj. by rewrite !sentenceAt_produceAt_ne.
  - by rewrite !length_produceAt.
Qed.

(* ================================================================== *)
(** ** The requests of the pre-generation window                       *)
(* ================================================================== *)

Lemma requestsFor_cons (w : Queue) (k : Z) (l : list Z) :
  requestsFor w (k :: l)
  = (if needsGeneration w k then [ESynthesize k (textAt k w)] else [])
    ++ requestsFor w l.
Proof. unfold requestsFor. simpl. by destruct (needsGeneration w k). Qed.

Lemma preGenerateOne_effects (w : Queue) (k : Z) :
  effects (preGenerateOne w k) = effects w ++ requestsFor w [k].
Proof.
  unfold preGenerateOne. rewrite requestsFor_cons.
  destruct (needsGeneration w k) eqn:Hn; simpl; [| by rewrite app_nil_r].
  destruct (generateSentence_fresh w k Hn) as (s & Hs & _ & _ & ->). simpl.
  by rewrite (sentenceAt_textAt k s w Hs).
Qed.

Lemma preGenerateOne_needs_ne (w : Queue) (k j : Z) :
  k <> j ->
  needsGeneration (preGenerateOne w k) j = needsGeneration w j.
Proof.
  intros Hne. destruct (needsGeneration w j) eqn:Hj.
  - by apply preGenerateOne_keeps_needed.
  - by apply preGenerateOne_keeps_settled.
Qed.

Lemma preGenerateOne_textAt (w : Queue) (k j : Z) :
  textAt j (preGenerateOne w k) = textAt j w.
Proof.
  unfold preGenerateOne.
  destruct (needsGeneration w k) eqn:Hn; [| done].
  destruct (generateSentence_fresh w k Hn) as (s & Hs & _ & _ & ->).
  unfold textAt. simpl.
  destruct (decide (k = j)) as [<- | Hne].
  - by rewrite (sentenceAt_produceAt_eq _ _ _ _ Hs), Hs.
  - by rewrite sentenceAt_produceAt_ne.
Qed.

Lemma requestsFor_ext (w w' : Queue) (l : list Z) :
  (forall k, k ∈ l ->
     needsGeneration w k = needsGeneration w' k
     /\ textAt k w = textAt k w') ->
  requestsFor w l = requestsFor w' l.
Proof.
  induction l as [| k l IH]; intros H; [done |].
  rewrite !requestsFor_cons.
  destruct (H k) as [-> ->]; [apply list_elem_of_here |].
  rewrite IH; [done |].
  intros j Hj. apply H. by apply list_elem_of_further.
Qed.

Lemma requestsFor_app (w : Queue) (l1 l2 : list Z) :
  requestsFor w (l1 ++ l2) = requestsFor w l1 ++ requestsFor w l2.
Proof. apply omap_app. Qed.

Lemma requestsFor_beyond (w : Queue) (l : list Z) :
  (forall k, k ∈ l -> len w <= k) -> requestsFor w l = [].
Proof.
  induction l as [| k l IH]; intros H; [done |].
  rewrite requestsFor_cons.
  assert (Hk : needsGeneration w k = false).
  { unfold needsGeneration.
    destruct (sentenceAt k (sentences (state w))) as [s |] eqn:Hs; [| done].
    apply sentenceAt_Some in Hs.
    specialize (H k (list_elem_of_here _ _)). unfold len in H. lia. }
  rewrite Hk. apply IH. intros j Hj. apply H. by apply list_elem_of_further.
Qed.

Lemma foldl_preGenerateOne_effects (l : list Z) (w : Queue) :
  NoDup l ->
  effects (foldl preGenerateOne w l) = effects w ++ requestsFor w l.
Proof.
  revert w. induction l as [| k l IH]; intros w Hnd.
  { simpl. by rewrite app_nil_r. }
  cbn [foldl]. apply NoDup_cons in Hnd as [Hk Hnd].
  rewrite IH, preGenerateOne_effects, <- app_assoc by done.
  rewrite (requestsFor_cons w k l), (requestsFor_cons w k []).
  change (requestsFor w []) with (@nil Effect). rewrite app_nil_r.
  do 2 f_equal. apply requestsFor_ext. intros j Hj. split.
  - apply preGenerateOne_needs_ne. by intros ->.
  - apply preGenerateOne_textAt.
Qed.

Lemma requestsFor_window (fromIndex : Z) (w : Queue) :
  requestsFor w
    (seqZ fromIndex
       (Z.min (fromIndex + queueAhead (state w) + 1) (len w) - fromIndex))
  = requestsFor w (seqZ fromIndex (queueAhead (state w) + 1)).
Proof.
  set (n := queueAhead (state w) + 1).
  set (n1 := Z.min (fromIndex + queueAhead (state w) + 1) (len w) - fromIndex).
  destruct (Z.le_gt_cases n 0) as [Hn | Hn].
  { rewrite !seqZ_nil; [done | lia | lia]. }
  destruct (Z.le_gt_cases n1 0) as [Hn1 | Hn1].
  - rewrite (seqZ_nil _ n1) by lia. symmetry.
    apply requestsFor_beyond. intros k Hk.
    apply elem_of_seqZ in Hk. lia.
  - replace n with (n1 + (n - n1)) at 1 by lia.
    rewrite seqZ_app, requestsFor_app by lia.
    rewrite (requestsFor_beyond w (seqZ (fromIndex + n1) _));
      [by rewrite app_nil_r |].
    intros k Hk. apply elem_of_seqZ in Hk. lia.
Qed.

Lemma triggerPreGeneration_effects (fromIndex : Z) (w : Queue) :
  effects (triggerPreGeneration fromIndex w)
  = effects w ++ requestsFor w (seqZ fromIndex (queueAhead (state w) + 1)).
Proof.
  unfold triggerPreGeneration.
  rewrite foldl_preGenerateOne_effects by apply NoDup_seqZ.
  by rewrite requestsFor_window.
Qed.

Lemma length_requestsFor (w : Queue) (l : list Z) :
  (length (requestsFor w l) <= length l)%nat.
Proof.
  induction l as [| k l IH]; [done |].
  rewrite requestsFor_cons.
  destruct (needsGeneration w k); simpl; lia.
Qed.

(** X13. What one call of [triggerPreGeneration(fromIndex)] sends: one
    [synthesize_chunk] for each index of [fromIndex, fromIndex +
    queueAhead] that passes the loop test in the queue as it is on entry,
    in ascending order, with that sentence's text, and nothing else. So
    it sends at most [queueAhead + 1] requests, none for an index past
    the end of the list, and none at all when the width is negative. *)
Theorem triggerPreGeneration_requests (fromIndex : Z) (w : Queue) :
  effects (triggerPreGeneration fromIndex w)
  = effects w ++ requestsFor w (seqZ fromIndex (queueAhead (state w) + 1))
  /\ (length (requestsFor w (seqZ fromIndex (queueAhead (state w) + 1)))
      <= Z.to_nat (queueAhead (state w) + 1))%nat
  /\ (forall k t,
        ESynthesize k t
        ∈ requestsFor w (seqZ fromIndex (queueAhead (state w) + 1)) ->
        fromIndex <= k <= fromIndex + queueAhead (state w)
        /\ inBounds k w = true
        /\ needsGeneration w k = true
        /\ t = textAt k w).
Proof.
  split; [apply triggerPreGeneration_effects |]. split.
  { etrans; [apply length_requestsFor |]. by rewrite length_seqZ. }
  intros k t Hin. unfold requestsFor in Hin.
  apply list_elem_of_omap in Hin as (j & Hj & Hsome).
  destruct (needsGeneration w j) eqn:Hn; [| done].
  injection Hsome as Hk Ht. subst j t.
  apply elem_of_seqZ in Hj. repeat split; try lia; try done.
  unfold needsGeneration in Hn.
  destruct (sentenceAt k (sentences (state w))) as [s |] eqn:Hs; [| done].
  apply sentenceAt_Some in Hs. unfold inBounds, len.
  apply andb_true_iff. split; [apply Z.leb_le | apply Z.ltb_lt]; lia.
Qed.

(* ================================================================== *)
(** ** Skip buttons, media buttons, progress                           *)
(* ================================================================== *)

Lemma skipTo_isPaused (index : Z) (w : Queue) :
  isPaused (state (skipTo index w)) = isPaused (state w).
Proof.
  rewrite skipTo_unfold. destruct (inBounds index w); [| done].
  destruct (skipTarget_frame index w) as (_ & _ & Hpa & _).
  case_match; [| done].
  etrans; [apply frame_isPaused, playSentenceAtIndex_frame | done].
Qed.

Lemma skipTo_while_paused (index : Z) (w : Queue) :
  isPaused (state w) = true ->
  isPlaying (state (skipTo index w)) = isPlaying (state w).
Proof.
  intros Hp. rewrite skipTo_unfold. destruct (inBounds index w); [| done].
  destruct (skipTarget_frame index w) as (_ & Hpl & Hpa & _).
  rewrite Hpa, Hp, andb_false_r. done.
Qed.

(** X14. The skip buttons and the functions behind them agree, with one
    exception. In any reachable queue, a disabled forward button means
    [skipForward] does nothing, and an enabled one means it is
    [skipTo] of an existing index (0 from the rest position, the next
    index otherwise) and starts a new generation; an enabled back button
    means [skipBack] is [skipTo] of the previous, existing index. The
    back button is also disabled at the rest position, where [skipBack]
    (reachable from the media session) is not a no-op: on a non-empty
    list it is [skipTo(0)]. At index 0 it does nothing. *)
Theorem skip_buttons (android : bool) (ahead : Z) (es : list Event)
  (w : Queue) :
  run es (initial android ahead) = Some w ->
  (canSkipForward w = false -> skipForward w = w)
  /\ (canSkipForward w = true ->
      inBounds (Z.max 0 (currentIndex (state w) + 1)) w = true
      /\ skipForward w = skipTo (Z.max 0 (currentIndex (state w) + 1)) w
      /\ playbackGeneration (skipForward w) = playbackGeneration w + 1)
  /\ (canSkipBack w = true ->
      inBounds (currentIndex (state w) - 1) w = true
      /\ skipBack w = skipTo (currentIndex (state w) - 1) w
      /\ playbackGeneration (skipBack w) = playbackGeneration w + 1)
  /\ (canSkipBack w = false ->
      (currentIndex (state w) = 0 -> skipBack w = w)
      /\ (currentIndex (state w) = -1 -> skipBack w = skipTo 0 w)).
Proof.
  intros Hrun.
  destruct (reachable_invariants android ahead es w Hrun) as (Hidx & _).
  unfold indexInRange in Hidx.
  unfold canSkipForward, canSkipBack, totalSentences.
  assert (Hlen : len w = Z.of_nat (length (sentences (state w)))) by done.
  rewrite <- Hlen. clear Hlen.
  assert (Hin : forall i, 0 <= i < len w -> inBounds i w = true).
  { intros i Hi. unfold inBounds. apply andb_true_iff.
    split; [apply Z.leb_le | apply Z.ltb_lt]; lia. }
  repeat split.
  - intros Hd. apply Z.ltb_ge in Hd. unfold skipForward.
    destruct (Z.ltb_spec (currentIndex (state w)) 0) as [Hneg | Hpos].
    + rewrite skipTo_unfold.
      assert (Hout : inBounds 0 w = false).
      { unfold inBounds. apply andb_false_iff. right. apply Z.ltb_ge. lia. }
      by rewrite Hout.
    + destruct (Z.ltb_spec (currentIndex (state w)) (len w - 1)); [lia | done].
  - apply Z.ltb_lt in H. apply Hin. lia.
  - apply Z.ltb_lt in H. unfold skipForward.
    destruct (Z.ltb_spec (currentIndex (state w)) 0) as [Hneg | Hpos].
    + by replace (Z.max 0 (currentIndex (state w) + 1)) with 0 by lia.
    + destruct (Z.ltb_spec (currentIndex (state w)) (len w - 1)); [| lia].
      by replace (Z.max 0 (currentIndex (state w) + 1))
        with (currentIndex (state w) + 1) by lia.
  - apply Z.ltb_lt in H. unfold skipForward.
    destruct (Z.ltb_spec (currentIndex (state w)) 0) as [Hneg | Hpos].
    + rewrite skipTo_generation, Hin; [done | lia].
    + destruct (Z.ltb_spec (currentIndex (state w)) (len w - 1)); [| lia].
      rewrite skipTo_generation, Hin; [done | lia].
  - apply Z.gtb_lt in H. apply Hin. lia.
  - unfold skipBack. by rewrite H.
  - unfold skipBack. rewrite H. apply Z.gtb_lt in H.
    rewrite skipTo_generation, Hin; [done | lia].
  - intros H0. unfold skipBack. rewrite H, H0. done.
  - intros H1. unfold skipBack. rewrite H, H1. simpl.
    destruct (Z.gtb_spec (len w) 0) as [Hpos | Hz]; [done |].
    rewrite skipTo_unfold.
    assert (Hout : inBounds 0 w = false).
    { unfold inBounds. apply andb_false_iff. right. apply Z.ltb_ge. lia. }
    by rewrite Hout.
Qed.

Lemma play_resume_fields (w : Queue) :
  isPaused (state w) = true ->
  sentences (state (play w)) = sentences (state w)
  /\ currentIndex (state (play w)) = currentIndex (state w)
  /\ isPlaying (state (play w)) = isPlaying (state w)
  /\ generatingSet (play w) = generatingSet w
  /\ synthRequests (play w) = synthRequests w
  /\ (len w <> 0 -> isPaused (state (play w)) = false).
Proof.
  intros Hp. unfold play. destruct (Z.eqb_spec (len w) 0) as [Hz | Hnz].
  { by repeat split. }
  rewrite Hp.
  destruct w as [[ss ci pl pa lo qa] gs pg [h |] la cpi [|] [cb ps [|]] iv pe ef];
    simpl in *; unfold audioResume, synthRequests; simpl;
    try destruct ps; simpl; rewrite ?filter_app; simpl;
    rewrite ?app_nil_r; by repeat split.
Qed.

(** X15. What the media-session buttons may do. The [play] action only
    ever resumes: it leaves the generation, the sentences, the playhead,
    the in-flight set and the synthesis requests as they are, and does
    nothing at all unless the queue is paused. The [pause] action does
    nothing unless a sentence is playing and not paused. And no media
    action can bring the queue into the state "paused but not playing":
    if that state is excluded before the action, it is excluded after. *)
Theorem media_actions_guarded (a : MediaAction) (w : Queue) :
  (playbackGeneration (handleMediaAction MPlay w) = playbackGeneration w
   /\ sentences (state (handleMediaAction MPlay w)) = sentences (state w)
   /\ currentIndex (state (handleMediaAction MPlay w))
      = currentIndex (state w)
   /\ generatingSet (handleMediaAction MPlay w) = generatingSet w
   /\ synthRequests (handleMediaAction MPlay w) = synthRequests w
   /\ (isPaused (state w) = false -> handleMediaAction MPlay w = w))
  /\ (showsPause w = false -> handleMediaAction MPause w = w)
  /\ ((isPaused (state w) = true -> isPlaying (state w) = true) ->
      isPaused (state (handleMediaAction a w)) = true ->
      isPlaying (state (handleMediaAction a w)) = true).
Proof.
  split; [| split].
  - simpl. destruct (isPaused (state w)) eqn:Hp; [| by repeat split].
    destruct (play_resume_fields w Hp) as (? & ? & ? & ? & ? & ?).
    repeat split; try done.
    rewrite play_generation, Hp. by rewrite orb_true_r.
  - unfold showsPause. simpl. by intros ->.
  - intros Hinv. destruct a; simpl.
    + destruct (isPaused (state w)) eqn:Hp; [| by rewrite Hp].
      destruct (play_resume_fields w Hp) as (_ & _ & -> & _). auto.
    + destruct (isPlaying (state w)) eqn:Hpl; simpl.
      * destruct (isPaused (state w)) eqn:Hp; simpl; [by rewrite Hpl |].
        intros _.
        destruct w as [[ss ci pl pa lo qa] gs pg [h |] la cpi [|] ap iv pe ef];
          simpl in *; done.
      * rewrite Hpl. auto.
    + unfold skipForward. repeat case_match; try done.
      all: rewrite skipTo_isPaused; intros Hp;
        rewrite skipTo_while_paused; auto.
    + unfold skipBack. repeat case_match; try done.
      all: rewrite skipTo_isPaused; intros Hp;
        rewrite skipTo_while_paused; auto.
    + destruct w as [[ss ci pl pa lo qa] gs pg [h |] la cpi [|] ap iv pe ef];
        simpl; done.
Qed.

Lemma length_filter_impl {A} (P Q : A -> Prop)
  `{!forall x, Decision (P x)} `{!forall x, Decision (Q x)} (l : list A) :
  (forall x, P x -> Q x) ->
  (length (filter P l) <= length (filter Q l))%nat.
Proof.
  intros HPQ. induction l as [| x l IH]; [done |].
  rewrite !filter_cons.
  destruct (decide (P x)) as [HP | HP].
  - rewrite decide_True by auto. simpl. lia.
  - destruct (decide (Q x)); simpl; lia.
Qed.

Lemma resetSentence_not_played (s : Sentence) :
  status (resetSentence s) <> SPlayed.
Proof.
  unfold resetSentence, restStatus.
  destruct s as [i t [] [b |] u d e]; simpl; discriminate.
Qed.

Lemma filter_played_reset (l : list Sentence) :
  filter (fun s => status s = SPlayed) (map resetSentence l) = [].
Proof.
  induction l as [| s l IH]; [done |].
  simpl. rewrite filter_cons, IH.
  by rewrite decide_False by apply resetSentence_not_played.
Qed.

Lemma stopPlayback_sentences (w : Queue) :
  sentences (state (stopPlayback w))
  = map resetSentence (sentences (state w)).
Proof.
  by destruct w as [[ss ci pl pa lo qa] gs pg [h |] la cpi [|] ap iv pe ef].
Qed.

(** X16. The progress the player shows. In every queue the number of
    played sentences is at most the number counted as ready (ready or
    played), which is at most the total. [stop()] takes the played count
    back to zero without changing the total, and every sentence that had
    been played or was playing is counted as ready afterwards exactly
    when it still holds its audio. When [loadText] is called with a text
    that is not blank, the play button is disabled in the state the call
    leaves, before anything else runs: [isLoading] is set before the
    first [await]. *)
Theorem progress_shown (w : Queue) :
  (completedSentences w <= readySentences w <= totalSentences w)%nat
  /\ completedSentences (stop w) = 0%nat
  /\ totalSentences (stop w) = totalSentences w
  /\ (forall i s,
        sentenceAt i (sentences (state w)) = Some s ->
        status s = SPlaying \/ status s = SPlayed ->
        exists s', sentenceAt i (sentences (state (stop w))) = Some s'
                   /\ (status s' = SReady <-> is_Some (audioBuffer s))
                   /\ (status s' = SPending <-> audioBuffer s = None))
  /\ (forall txt, trimIsEmpty txt = false -> canPlay (loadText txt w) = false).
Proof.
  unfold completedSentences, readySentences, totalSentences, stop.
  rewrite stopPlayback_sentences. repeat split.
  - apply length_filter_impl. auto.
  - apply length_filter.
  - by rewrite filter_played_reset.
  - by rewrite length_map.
  - intros i s Hs Hst. exists (resetSentence s). split.
    { unfold sentenceAt in *. destruct (i <? 0); [done |].
      by rewrite list_lookup_fmap, Hs. }
    unfold resetSentence, restStatus.
    destruct s as [k t st [b |] u d e]; simpl in *;
      destruct Hst as [-> | ->]; simpl; split; split;
      try done; try (by intros []); eauto.
  - intros txt Hne. unfold canPlay, isReady, loadText. rewrite Hne.
    destruct w as [[ss ci pl pa lo qa] gs pg [h |] la cpi [|] ap iv pe ef];
      simpl; by rewrite andb_false_r.
Qed.

(* ================================================================== *)
(** ** Starting a sentence                                             *)
(* ================================================================== *)

Lemma generateSentence_backendView (index : Z) (a : option (Z * option nat))
  (w : Queue) :
  backendView (generateSentence index a w) = backendView w.
Proof.
  unfold generateSentence, backendView. by repeat case_match.
Qed.

Lemma foldl_preGenerateOne_backendView (l : list Z) (w : Queue) :
  backendView (foldl preGenerateOne w l) = backendView w.
Proof.
  revert w. induction l as [| i l IH]; intros w; simpl; [done |].
  rewrite IH. unfold preGenerateOne.
  case_match; [apply generateSentence_backendView | done].
Qed.

Lemma triggerPreGeneration_backendView (index : Z) (w : Queue) :
  backendView (triggerPreGeneration index w) = backendView w.
Proof. apply foldl_preGenerateOne_backendView. Qed.

Lemma foldl_sentenceAt_settled (l : list Z) (w : Queue) (j : Z) :
  needsGeneration w j = false ->
  sentenceAt j (sentences (state (foldl preGenerateOne w l)))
  = sentenceAt j (sentences (state w)).
Proof.
  revert w. induction l as [| k l IH]; intros w Hj; simpl; [done |].
  rewrite IH by by apply preGenerateOne_keeps_settled.
  destruct (decide (k = j)) as [-> | Hne].
  - unfold preGenerateOne. by rewrite Hj.
  - by apply preGenerateOne_sentenceAt_ne.
Qed.

Lemma foldl_not_requested (l : list Z) (w : Queue) (j : Z) :
  needsGeneration w j = false ->
  j ∉ generatingSet w ->
  j ∉ generatingSet (foldl preGenerateOne w l).
Proof.
  revert w. induction l as [| k l IH]; intros w Hj Hnin; simpl; [done |].
  apply IH; [by apply preGenerateOne_keeps_settled |].
  rewrite preGenerateOne_generatingSet.
  destruct (needsGeneration w k) eqn:Hk; [| done].
  rewrite not_elem_of_union, not_elem_of_singleton.
  split; [| done]. intros ->. congruence.
Qed.

Lemma inBounds_sentenceAt (i : Z) (s : Sentence) (w : Queue) :
  sentenceAt i (sentences (state w)) = Some s -> inBounds i w = true.
Proof.
  intros Hs. apply sentenceAt_Some in Hs. unfold inBounds, len.
  apply andb_true_iff. split; [apply Z.leb_le | apply Z.ltb_lt]; lia.
Qed.

Lemma settle_fields (notify : option nat) (w : Queue) :
  effects (settle notify w) = effects w
  /\ audioPlayer (settle notify w) = audioPlayer w
  /\ currentlyPlayingIndex (settle notify w) = currentlyPlayingIndex w
  /\ pending (settle notify w) = pending w
  /\ generatingSet (settle notify w) = generatingSet w
  /\ lastAdvanceTime (settle notify w) = lastAdvanceTime w.
Proof. by destruct notify. Qed.

(** The queue in which [playSentenceAtIndex] picks a backend for a ready
    sentence: the sentence marked, the window requested. *)
Lemma ready_start_shape (index : Z) (s : Sentence) (w : Queue) :
  sentenceAt index (sentences (state w)) = Some s ->
  status s = SReady ->
  let w2 :=
    triggerPreGeneration index
      (setState (fun p =>
         set_sentences
           (produceAt index (with_status SPlaying) (sentences p)) p)
         (with_currentlyPlayingIndex index w)) in
  sentenceAt index (sentences (state w2)) = Some (with_status SPlaying s)
  /\ currentlyPlayingIndex w2 = index
  /\ audioPlayer w2 = audioPlayer w
  /\ currentIndex (state w2) = currentIndex (state w)
  /\ isAndroid w2 = isAndroid w
  /\ effects w2
     = effects w ++ requestsFor w (seqZ index (queueAhead (state w) + 1))
  /\ isPlaying (state w2) = isPlaying (state w)
  /\ (index ∉ generatingSet w -> index ∉ generatingSet w2).
Proof.
  intros Hs Hst.
  set (w1 := setState _ (with_currentlyPlayingIndex index w)).
  intros w2.
  assert (H1 : sentenceAt index (sentences (state w1))
               = Some (with_status SPlaying s)).
  { unfold w1. simpl. by apply sentenceAt_produceAt_eq. }
  assert (Hn1 : needsGeneration w1 index = false).
  { unfold needsGeneration. by rewrite H1. }
  assert (Hbv : backendView w2 = backendView w1)
    by apply triggerPreGeneration_backendView.
  assert (Hfr : frame w2 = frame w1) by apply triggerPreGeneration_frame.
  apply frame_skeleton in Hfr.
  repeat split.
  - unfold w2, triggerPreGeneration. by rewrite foldl_sentenceAt_settled.
  - exact (f_equal (fun x => fst (fst (fst (fst (fst (fst x)))))) Hbv).
  - exact (f_equal (fun x => snd (fst (fst (fst (fst (fst x)))))) Hbv).
  - exact (f_equal (fun x => snd (fst (fst (fst (fst x))))) Hbv).
  - exact (f_equal snd Hfr).
  - unfold w2. rewrite triggerPreGeneration_effects.
    change (effects w1) with (effects w).
    change (queueAhead (state w1)) with (queueAhead (state w)).
    f_equal. apply requestsFor_ext. intros k _.
    destruct (decide (k = index)) as [-> | Hne].
    + split.
      * rewrite Hn1. unfold needsGeneration. by rewrite Hs, Hst.
      * unfold textAt. by rewrite H1, Hs.
    + unfold needsGeneration, textAt, w1. simpl.
      by rewrite sentenceAt_produceAt_ne.
  - exact (f_equal (fun x => snd (fst (fst (fst x)))) Hbv).
  - intros Hnin. unfold w2, triggerPreGeneration.
    by apply foldl_not_requested.
Qed.

(** The start of a ready sentence, as used below and by the run from
    [play()]. *)
Lemma start_of_ready_sentence (index generation : Z) (notify : option nat)
  (s : Sentence) (buf : AudioBuffer) (w : Queue) :
  generation = playbackGeneration w ->
  isPlaying (state w) = true ->
  isPaused (state w) = false ->
  currentlyPlayingIndex w <> index ->
  sentenceAt index (sentences (state w)) = Some s ->
  status s = SReady ->
  audioBuffer s = Some buf ->
  let w' := playSentenceAtIndex index generation notify w in
  let requests := requestsFor w (seqZ index (queueAhead (state w) + 1)) in
  sentenceAt index (sentences (state w')) = Some (with_status SPlaying s)
  /\ currentlyPlayingIndex w' = index
  /\ currentIndex (state w') = currentIndex (state w)
  /\ isPlaying (state w') = true
  /\ (index ∉ generatingSet w -> index ∉ generatingSet w')
  /\ (isAndroid w && truthyString (audioFileUrl s) = true ->
      effects w'
      = effects w ++ requests
        ++ [EMusicPlay (default EmptyString (audioFileUrl s)) index]
      /\ audioPlayer w' = audioPlayer w
      /\ last (pending w') = Some (KMusicPlay index generation notify))
  /\ (isAndroid w && truthyString (audioFileUrl s) = false ->
      effects w' = effects w ++ requests ++ [EAudioPlay buf]
      /\ onEndedCallback (audioPlayer w') = Some (index, generation)
      /\ audio_paused (audioPlayer w') = false).
Proof.
  intros Hg Hpl Hpa Hcpi Hs Hst Hbuf w' requests.
  destruct (ready_start_shape index s w Hs Hst)
    as (H2 & Hc2 & Hap2 & Hci2 & Han2 & Hef2 & Hpl2 & Hgs2).
  rewrite Hpl in Hpl2.
  pose proof (sentenceAt_Some _ _ _ Hs) as Hb.
  assert (Hw' : w' =
    let w2 :=
      triggerPreGeneration index
        (setState (fun p =>
           set_sentences
             (produceAt index (with_status SPlaying) (sentences p)) p)
           (with_currentlyPlayingIndex index w)) in
    if isAndroid w && truthyString (audioFileUrl s) then
      schedule (KMusicPlay index generation notify)
        (emit (EMusicPlay (default EmptyString (audioFileUrl s)) index) w2)
    else settle notify (playBuffer buf (index, generation) w2)).
  { unfold w'. rewrite playSentenceAtIndex_unfold.
    rewrite Hg, Z.eqb_refl. cbn [negb].
    rewrite outOfBounds_inBounds.
    assert (Hin : inBounds index w = true).
    { unfold inBounds, len. apply andb_true_iff.
      split; [apply Z.leb_le | apply Z.ltb_lt]; lia. }
    rewrite Hin, Hpl, Hpa. cbn [negb orb].
    destruct (Z.eqb_spec (currentlyPlayingIndex w) index) as [| _]; [done |].
    rewrite Hs, Hst. cbv zeta. rewrite Han2.
    destruct (isAndroid w && truthyString (audioFileUrl s)); [done |].
    unfold playWithHtml5Audio. rewrite H2. simpl. by rewrite Hbuf. }
  cbv zeta in Hw'.
  set (w2 := triggerPreGeneration index _) in *.
  clearbody w' w2. subst w'.
  destruct (isAndroid w && truthyString (audioFileUrl s)).
  - simpl. repeat split; try done.
    + by rewrite Hef2, <- app_assoc.
    + by rewrite last_snoc.
  - destruct (settle_fields notify (playBuffer buf (index, generation) w2))
      as (He & Ha & Hc & _ & Hg' & _).
    rewrite settle_state, Hc, He, Ha, Hg'. simpl.
    repeat split; try done.
    by rewrite Hef2, <- app_assoc.
Qed.

(** X17. Starting a ready sentence. [playSentenceAtIndex] is called
    with the current generation, while playing and not paused, on a
    sentence that is [ready] and holds its audio. If the index is the one
    recorded in [currentlyPlayingIndex] (which only [stopPlayback] and
    [skipTo] reset), the call returns at the duplicate guard: nothing is
    written, the sentence stays [ready] and no backend is called.
    Otherwise the sentence becomes [playing], it is recorded as the one
    being played, the playhead is left to the caller, and the window
    starting at the sentence is requested as [triggerPreGeneration] would
    from the queue on entry. Then exactly one backend is asked: on
    Android with a saved file, [musicPlay] with that file, leaving the
    audio element alone and suspending until the plugin answers;
    otherwise the audio element with the decoded buffer, with a finish
    callback that carries the index and the generation of the call. *)
Theorem ready_sentence_starts (index generation : Z) (notify : option nat)
  (s : Sentence) (buf : AudioBuffer) (w : Queue) :
  generation = playbackGeneration w ->
  isPlaying (state w) = true ->
  isPaused (state w) = false ->
  sentenceAt index (sentences (state w)) = Some s ->
  status s = SReady ->
  audioBuffer s = Some buf ->
  let w' := playSentenceAtIndex index generation notify w in
  let requests := requestsFor w (seqZ index (queueAhead (state w) + 1)) in
  (currentlyPlayingIndex w = index ->
   state w' = state w
   /\ effects w' = effects w
   /\ pending w' = pending w
   /\ audioPlayer w' = audioPlayer w
   /\ generatingSet w' = generatingSet w
   /\ currentlyPlayingIndex w' = index)
  /\ (currentlyPlayingIndex w <> index ->
      sentenceAt index (sentences (state w')) = Some (with_status SPlaying s)
      /\ currentlyPlayingIndex w' = index
      /\ currentIndex (state w') = currentIndex (state w)
      /\ isPlaying (state w') = true
      /\ (index ∉ generatingSet w -> index ∉ generatingSet w')
      /\ (isAndroid w && truthyString (audioFileUrl s) = true ->
          effects w'
          = effects w ++ requests
            ++ [EMusicPlay (default EmptyString (audioFileUrl s)) index]
          /\ audioPlayer w' = audioPlayer w
          /\ last (pending w') = Some (KMusicPlay index generation notify))
      /\ (isAndroid w && truthyString (audioFileUrl s) = false ->
          effects w' = effects w ++ requests ++ [EAudioPlay buf]
          /\ onEndedCallback (audioPlayer w') = Some (index, generation)
          /\ audio_paused (audioPlayer w') = false)).
Proof.
  intros Hg Hpl Hpa Hs Hst Hbuf. cbv zeta. split.
  - intros Hcpi. rewrite playSentenceAtIndex_unfold.
    rewrite Hg, Z.eqb_refl. cbn [negb].
    rewrite outOfBounds_inBounds, (inBounds_sentenceAt _ _ _ Hs).
    rewrite Hpl, Hpa. cbn [negb orb].
    rewrite Hcpi, Z.eqb_refl. rewrite settle_state.
    destruct (settle_fields notify w) as (-> & -> & -> & -> & -> & _).
    by repeat split.
  - intros Hcpi.
    exact (start_of_ready_sentence index generation notify s buf w
             Hg Hpl Hpa Hcpi Hs Hst Hbuf).
Qed.

(** What the skip over errored sentences leaves when they run to the end
    of the list. *)
Lemma error_run (n : nat) :
  forall (index generation : Z) (notify : option nat) (w : Queue),
    Z.to_nat (len w - 1 - index) = n ->
    generation = playbackGeneration w ->
    0 <= index < len w ->
    isPlaying (state w) = true ->
    isPaused (state w) = false ->
    (forall k, index <= k < len w ->
       currentlyPlayingIndex w <> k
       /\ exists s, sentenceAt k (sentences (state w)) = Some s
                    /\ status s = SError) ->
    playSentenceAtIndex index generation notify w
    = settle notify
        (setState (set_isPlaying false)
           (if index =? len w - 1 then w
            else setState (set_currentIndex (len w - 1)) w)).
Proof.
  induction n as [| n IH]; intros index generation notify w Hn Hg Hb Hpl Hpa Herr;
    rewrite playSentenceAtIndex_unfold;
    rewrite Hg, Z.eqb_refl; cbn [negb];
    rewrite outOfBounds_inBounds;
    (assert (Hin : inBounds index w = true)
       by (unfold inBounds; apply andb_true_iff;
           split; [apply Z.leb_le | apply Z.ltb_lt]; lia));
    rewrite Hin, Hpl, Hpa; cbn [negb orb];
    destruct (Herr index ltac:(lia)) as (Hcpi & s & Hs & Hst);
    (destruct (Z.eqb_spec (currentlyPlayingIndex w) index) as [| _];
       [done |]);
    rewrite Hs, Hst.
  - destruct (Z.ltb_spec (index + 1) (len w)); [lia |].
    destruct (Z.eqb_spec index (len w - 1)); [done | lia].
  - destruct (Z.ltb_spec (index + 1) (len w)); [| lia].
    destruct (Z.eqb_spec index (len w - 1)); [lia |].
    rewrite (IH (index + 1) (playbackGeneration w) notify
               (setState (set_currentIndex (index + 1)) w));
      try done.
    + change (len (setState (set_currentIndex (index + 1)) w)) with (len w).
      destruct (Z.eqb_spec (index + 1) (len w - 1)) as [-> | _]; [done |].
      by destruct w as [[ss ci pl pa lo qa] gs pg pi la cpi an ap iv pe ef].
    + change (len (setState (set_currentIndex (index + 1)) w)) with (len w).
      lia.
    + change (len (setState (set_currentIndex (index + 1)) w)) with (len w).
      lia.
    + intros k Hk.
      change (len (setState (set_currentIndex (index + 1)) w)) with (len w)
        in Hk.
      apply (Herr k). lia.
Qed.

(** The same skip when one of the errored sentences is the one recorded
    in [currentlyPlayingIndex]: it ends there, at the duplicate guard. *)
Lemma error_run_blocked (n : nat) :
  forall (index generation : Z) (notify : option nat) (w : Queue),
    Z.to_nat (currentlyPlayingIndex w - index) = n ->
    generation = playbackGeneration w ->
    0 <= index <= currentlyPlayingIndex w ->
    currentlyPlayingIndex w < len w ->
    isPlaying (state w) = true ->
    isPaused (state w) = false ->
    (forall k, index <= k < currentlyPlayingIndex w ->
       exists s, sentenceAt k (sentences (state w)) = Some s
                 /\ status s = SError) ->
    playSentenceAtIndex index generation notify w
    = settle notify
        (if index =? currentlyPlayingIndex w then w
         else setState (set_currentIndex (currentlyPlayingIndex w)) w).
Proof.
  induction n as [| n IH];
    intros index generation notify w Hn Hg Hb Hlt Hpl Hpa Herr;
    rewrite playSentenceAtIndex_unfold;
    rewrite Hg, Z.eqb_refl; cbn [negb];
    rewrite outOfBounds_inBounds;
    (assert (Hin : inBounds index w = true)
       by (unfold inBounds; apply andb_true_iff;
           split; [apply Z.leb_le | apply Z.ltb_lt]; lia));
    rewrite Hin, Hpl, Hpa; cbn [negb orb].
  - assert (index = currentlyPlayingIndex w) as Heq by lia.
    rewrite <- Heq, !Z.eqb_refl. done.
  - destruct (Z.eqb_spec (currentlyPlayingIndex w) index) as [| _]; [lia |].
    destruct (Herr index ltac:(lia)) as (s & Hs & Hst).
    rewrite Hs, Hst.
    destruct (Z.ltb_spec (index + 1) (len w)); [| lia].
    destruct (Z.eqb_spec index (currentlyPlayingIndex w)); [lia |].
    rewrite (IH (index + 1) (playbackGeneration w) notify
               (setState (set_currentIndex (index + 1)) w));
      try done.
    + change (currentlyPlayingIndex
                (setState (set_currentIndex (index + 1)) w))
        with (currentlyPlayingIndex w).
      destruct (Z.eqb_spec (index + 1) (currentlyPlayingIndex w))
        as [-> | _]; [done |].
      by destruct w as [[ss ci pl pa lo qa] gs pg pi la cpi an ap iv pe ef].
    + change (currentlyPlayingIndex
                (setState (set_currentIndex (index + 1)) w))
        with (currentlyPlayingIndex w).
      lia.
    + change (currentlyPlayingIndex
                (setState (set_currentIndex (index + 1)) w))
        with (currentlyPlayingIndex w).
      lia.
    + intros k Hk.
      change (currentlyPlayingIndex
                (setState (set_currentIndex (index + 1)) w))
        with (currentlyPlayingIndex w) in Hk.
      apply (Herr k). lia.
Qed.

(** X18. Every sentence from [index] to the end of the list is in error,
    and [playSentenceAtIndex(index)] is called with the current
    generation while playing and not paused. If none of these sentences
    is the one recorded in [currentlyPlayingIndex], the call skips them
    all and ends playback: [isPlaying] becomes false and the playhead
    stops on the last sentence (it stays where it was when [index] is the
    last sentence); the playhead is not reset to -1 and [isPaused] is not
    written. If one of them is recorded there (only [stopPlayback] and
    [skipTo] reset the record), the skip ends at that sentence, at the
    duplicate guard: the playhead is left on it and [isPlaying] stays
    true. In both cases no sentence is written, no request is sent, no
    backend is called and nothing is left suspended. *)
Theorem errors_to_the_end_stop_playback (index generation : Z)
  (notify : option nat) (w : Queue) :
  generation = playbackGeneration w ->
  0 <= index < len w ->
  isPlaying (state w) = true ->
  isPaused (state w) = false ->
  (forall k, index <= k < len w ->
     exists s, sentenceAt k (sentences (state w)) = Some s
               /\ status s = SError) ->
  let w' := playSentenceAtIndex index generation notify w in
  (currentlyPlayingIndex w < index \/ len w <= currentlyPlayingIndex w ->
   isPlaying (state w') = false
   /\ currentIndex (state w')
      = (if index =? len w - 1 then currentIndex (state w) else len w - 1))
  /\ (index <= currentlyPlayingIndex w < len w ->
      isPlaying (state w') = true
      /\ currentIndex (state w')
         = (if index =? currentlyPlayingIndex w then currentIndex (state w)
            else currentlyPlayingIndex w))
  /\ isPaused (state w') = false
  /\ sentences (state w') = sentences (state w)
  /\ effects w' = effects w
  /\ pending w' = pending w
  /\ generatingSet w' = generatingSet w
  /\ audioPlayer w' = audioPlayer w
  /\ playbackGeneration w' = playbackGeneration w.
Proof.
  intros Hg Hb Hpl Hpa Herr. cbv zeta.
  assert (Hcases :
    (currentlyPlayingIndex w < index \/ len w <= currentlyPlayingIndex w)
    \/ index <= currentlyPlayingIndex w < len w) by lia.
  destruct Hcases as [Hout | Hin].
  - rewrite (error_run _ index generation notify w eq_refl Hg Hb Hpl Hpa).
    2: { intros k Hk. split; [lia | by apply Herr]. }
    rewrite settle_state, settle_generation.
    destruct (settle_fields notify
                (setState (set_isPlaying false)
                   (if index =? len w - 1 then w
                    else setState (set_currentIndex (len w - 1)) w)))
      as (-> & -> & _ & -> & -> & _).
    split; [| split; [intros ?; lia |]];
      destruct (index =? len w - 1); by repeat split.
  - rewrite (error_run_blocked _ index generation notify w eq_refl Hg
               ltac:(lia) ltac:(lia) Hpl Hpa).
    2: { intros k Hk. apply Herr. lia. }
    rewrite settle_state, settle_generation.
    destruct (settle_fields notify
                (if index =? currentlyPlayingIndex w then w
                 else setState (set_currentIndex (currentlyPlayingIndex w)) w))
      as (-> & -> & _ & -> & -> & _).
    split; [intros ?; lia |].
    destruct (index =? currentlyPlayingIndex w); by repeat split.
Qed.

(* ================================================================== *)
(** ** The poll's debounce                                             *)
(* ================================================================== *)

Lemma foldl_preGenerateOne_lastAdvanceTime (l : list Z) (w : Queue) :
  lastAdvanceTime (foldl preGenerateOne w l) = lastAdvanceTime w.
Proof.
  exact (f_equal snd (foldl_preGenerateOne_backendView l w)).
Qed.

Lemma playSentenceAtIndex_fuel_lastAdvanceTime (fuel : nat)
  (index generation : Z) (notify : option nat) (w : Queue) :
  lastAdvanceTime (playSentenceAtIndex_fuel fuel index generation notify w)
  = lastAdvanceTime w.
Proof.
  revert index w.
  induction fuel as [| fuel IH]; intros index w;
    cbn [playSentenceAtIndex_fuel];
    repeat case_match;
    rewrite ?IH;
    repeat match goal with
    | |- context [lastAdvanceTime (settle ?n ?x)] =>
        replace (lastAdvanceTime (settle n x)) with (lastAdvanceTime x)
          by (by destruct n)
    | |- context [lastAdvanceTime (generateSentence ?i ?a ?x)] =>
        replace (lastAdvanceTime (generateSentence i a x))
          with (lastAdvanceTime x)
          by (symmetry;
              exact (f_equal snd (generateSentence_backendView i a x)))
    | |- context [lastAdvanceTime (playWithHtml5Audio ?i ?g ?x)] =>
        replace (lastAdvanceTime (playWithHtml5Audio i g x))
          with (lastAdvanceTime x)
          by (unfold playWithHtml5Audio; by repeat case_match)
    end;
    try reflexivity;
    simpl; unfold triggerPreGeneration;
    by rewrite foldl_preGenerateOne_lastAdvanceTime.
Qed.

(** X19. The debounce of the Android poll. When a poll query reports that
    the plugin is idle while the queue is playing and not paused, and at
    least 300 ms have passed since the last advance, the poll records the
    time of the report, whatever the advance then does (even when it
    throws or the next sentence is not ready). From then on a report
    that arrives less than 300 ms after that time changes nothing at
    all, whichever interval it comes from. *)
Theorem advance_debounced (h : nat) (c : PollClosure) (now : Z) (w : Queue) :
  intervals w !! h = Some c ->
  isPlaying (state w) = true ->
  isPaused (state w) = false ->
  ADVANCE_DEBOUNCE_MS <= now - lastAdvanceTime w ->
  let w1 := pollTick_done h (Fulfilled false) now w in
  lastAdvanceTime w1 = now
  /\ forall h' musicIsPlaying now',
       now' - now < ADVANCE_DEBOUNCE_MS ->
       pollTick_done h' (Fulfilled musicIsPlaying) now' w1 = w1.
Proof.
  intros Hc Hpl Hpa Hdue w1.
  assert (Hla : lastAdvanceTime w1 = now).
  { unfold w1, pollTick_done. rewrite Hc, Hpl, Hpa. cbn [negb andb].
    destruct (Z.ltb_spec (now - lastAdvanceTime w) ADVANCE_DEBOUNCE_MS);
      [lia |].
    cbv zeta.
    set (w0 := with_lastAdvanceTime now
                 (with_intervals
                    (alter (set_isAdvancing true) h (intervals w)) w)).
    assert (Hset : forall q,
              setStatusAt (currentIndex (state w0)) SPlayed w0 = Some q ->
              lastAdvanceTime q = now).
    { unfold setStatusAt. intros q.
      destruct (sentenceAt _ _); [| done]. by intros [= <-]. }
    destruct (currentIndex (state w0) + 1 <? len w0);
      destruct (setStatusAt (currentIndex (state w0)) SPlayed w0)
        as [q |] eqn:Hq;
      rewrite ?(proj2 (proj2 (proj2 (proj2 (proj2 (settle_fields _ _))))));
      try reflexivity.
    - unfold playSentenceAtIndex.
      rewrite playSentenceAtIndex_fuel_lastAdvanceTime. exact (Hset q eq_refl).
    - unfold clearPollInterval. simpl.
      destruct (pollInterval q); exact (Hset q eq_refl). }
  split; [done |].
  intros h' b now' Hsoon. unfold pollTick_done.
  destruct (intervals w1 !! h'); [| done].
  destruct (negb b && isPlaying (state w1) && negb (isPaused (state w1)));
    [| done].
  rewrite Hla.
  by destruct (Z.ltb_spec (now' - now) ADVANCE_DEBOUNCE_MS); [| lia].
Qed.

(* ================================================================== *)
(** ** From play() to sound                                            *)
(* ================================================================== *)

Lemma play_fresh (w : Queue) :
  len w <> 0 ->
  isPaused (state w) = false ->
  play w
  = playSentenceAtIndex (Z.max 0 (currentIndex (state w)))
      (playbackGeneration w + 1) None
      (setState (fun p =>
         set_currentIndex (Z.max 0 (currentIndex (state w)))
           (set_isPaused false (set_isPlaying true p)))
         (with_playbackGeneration (playbackGeneration w + 1) w)).
Proof.
  intros Hlen Hpa. unfold play.
  destruct (Z.eqb_spec (len w) 0); [done |]. rewrite Hpa. cbv zeta.
  replace (if currentIndex (state w) <? 0 then 0 else currentIndex (state w))
    with (Z.max 0 (currentIndex (state w)));
    [done |].
  destruct (Z.ltb_spec (currentIndex (state w)) 0); lia.
Qed.

(** [play()] and the synthesis it awaits, when the start sentence is not
    the one recorded in [currentlyPlayingIndex]. *)
Lemma play_then_synthesis (resp : SynthesizeChunkResponse)
  (buf : AudioBuffer) (r : SynthReply) (s : Sentence) (w : Queue) :
  isPaused (state w) = false ->
  sentenceAt (Z.max 0 (currentIndex (state w))) (sentences (state w))
  = Some s ->
  status s = SPending ->
  Z.max 0 (currentIndex (state w)) ∉ generatingSet w ->
  currentlyPlayingIndex w <> Z.max 0 (currentIndex (state w)) ->
  response r = Fulfilled resp ->
  success resp = true ->
  truthyString (audio_base64 resp) = true ->
  decoded r = Fulfilled buf ->
  let start := Z.max 0 (currentIndex (state w)) in
  let s1 := replyUpdate (isAndroid w) r (with_status SGenerating s) in
  exists w2,
    run [Call_play; SynthDone (length (pending w)) r] w = Some w2
    /\ sentenceAt start (sentences (state w2)) = Some (with_status SPlaying s1)
    /\ audioBuffer s1 = Some buf
    /\ text s1 = text s
    /\ currentlyPlayingIndex w2 = start
    /\ currentIndex (state w2) = start
    /\ isPlaying (state w2) = true
    /\ isPaused (state w2) = false
    /\ playbackGeneration w2 = playbackGeneration w + 1
    /\ (start ∉ generatingSet w2)
    /\ (if isAndroid w && truthyString (audioFileUrl s1) then
          (last (effects w2)
           = Some (EMusicPlay (default EmptyString (audioFileUrl s1)) start))
        else
          (last (effects w2) = Some (EAudioPlay buf)
           /\ onEndedCallback (audioPlayer w2)
              = Some (start, playbackGeneration w + 1))).
Proof.
  intros Hpa Hs Hst Hnin Hcpi Hresp Hok Hdata Hdec. cbv zeta.
  set (start := Z.max 0 (currentIndex (state w))) in *.
  set (s1 := replyUpdate (isAndroid w) r (with_status SGenerating s)).
  pose proof (inBounds_sentenceAt _ _ _ Hs) as Hin.
  assert (Hlen : len w <> 0).
  { apply sentenceAt_Some in Hs. unfold len. lia. }
  cbn [run step]. rewrite (play_fresh w Hlen Hpa). fold start.
  set (w0 := setState _ (with_playbackGeneration _ w)).
  (* play() suspends on the synthesis of the start sentence *)
  assert (Hplay :
    playSentenceAtIndex start (playbackGeneration w + 1) None w0
    = schedule (KSynth start (Some (playbackGeneration w + 1, None)))
        (emit (ESynthesize start (text s))
           (setState (fun p =>
              set_sentences
                (produceAt start (with_status SGenerating) (sentences p)) p)
              (with_generatingSet ({[ start ]} ∪ generatingSet w0) w0)))).
  { rewrite playSentenceAtIndex_unfold.
    change (playbackGeneration w0) with (playbackGeneration w + 1).
    rewrite Z.eqb_refl. cbn [negb].
    rewrite outOfBounds_inBounds.
    change (inBounds start w0) with (inBounds start w). rewrite Hin.
    change (isPlaying (state w0)) with true.
    change (isPaused (state w0)) with false.
    change (currentlyPlayingIndex w0) with (currentlyPlayingIndex w).
    cbn [negb orb].
    destruct (Z.eqb_spec (currentlyPlayingIndex w) start); [done |].
    change (sentences (state w0)) with (sentences (state w)).
    rewrite Hs, Hst.
    unfold generateSentence. rewrite outOfBounds_inBounds.
    change (inBounds start w0) with (inBounds start w). rewrite Hin.
    change (generatingSet w0) with (generatingSet w).
    rewrite (bool_decide_eq_false_2 _ Hnin). cbn [negb].
    change (sentences (state w0)) with (sentences (state w)).
    rewrite Hs, Hst. done. }
  rewrite Hplay. clear Hplay.
  cbn [pending schedule emit setState with_generatingSet with_pending].
  change (pending w0) with (pending w).
  rewrite lookup_snoc_length.
  eexists. split; [reflexivity |].
  unfold retry, consume.
  cbn [pending schedule emit setState with_generatingSet with_pending].
  change (pending w0) with (pending w). rewrite consume_snoc.
  set (w1 := generateSentence_done start r _).
  assert (Hs1 : sentenceAt start (sentences (state w1)) = Some s1).
  { unfold w1, generateSentence_done. simpl.
    apply sentenceAt_produceAt_eq. by apply sentenceAt_produceAt_eq. }
  assert (Hst1 : status s1 = SReady /\ audioBuffer s1 = Some buf
                 /\ text s1 = text s).
  { unfold s1, replyUpdate. rewrite Hresp, Hok, Hdata, Hdec. done. }
  destruct Hst1 as (Hready & Hbuf & Htext).
  change (playbackGeneration w1) with (playbackGeneration w + 1).
  rewrite Z.eqb_refl. cbn [negb].
  destruct (start_of_ready_sentence start (playbackGeneration w + 1) None
              s1 buf w1 eq_refl eq_refl eq_refl Hcpi Hs1 Hready Hbuf)
    as (H2 & Hc2 & Hci2 & Hpl2 & Hgs2 & Handroid & Hdesktop).
  set (w2 := playSentenceAtIndex _ _ _ w1) in *.
  change (isAndroid w1) with (isAndroid w) in *.
  repeat split; try done.
  - etrans; [apply frame_isPaused, playSentenceAtIndex_frame | done].
  - etrans; [apply playSentenceAtIndex_generation | done].
  - apply Hgs2. unfold w1, generateSentence_done. simpl.
    rewrite not_elem_of_difference, elem_of_singleton. by right.
  - destruct (isAndroid w && truthyString (audioFileUrl s1)).
    + destruct (Handroid eq_refl) as (-> & _). by rewrite !app_assoc, last_snoc.
    + destruct (Hdesktop eq_refl) as (-> & -> & _).
      by rewrite !app_assoc, last_snoc.
Qed.

(** X20. From [play()] to sound. The queue is not paused and its start
    sentence (the one under the playhead, or the first from the rest
    position) is [pending] and not in flight. If that sentence is not the
    one recorded in [currentlyPlayingIndex], [play()] followed by the
    successful completion of the synthesis it awaits can run and ends
    with the sentence [playing], holding its audio and the text it had:
    the playhead and the record of the sentence being played are on it,
    the queue is playing in the generation [play()] started, the
    sentence has left the in-flight set, and the last backend call is
    the one that makes it sound: [musicPlay] with the saved file on
    Android, the audio element with the decoded buffer (and a finish
    callback for this index and generation) otherwise. If the sentence
    is the one recorded there, [play()] sets [isPlaying], starts a new
    generation and returns at the duplicate guard: no request is sent,
    nothing is suspended, and there is no synthesis to complete. *)
Theorem play_from_pending (resp : SynthesizeChunkResponse)
  (buf : AudioBuffer) (r : SynthReply) (s : Sentence) (w : Queue) :
  isPaused (state w) = false ->
  sentenceAt (Z.max 0 (currentIndex (state w))) (sentences (state w))
  = Some s ->
  status s = SPending ->
  Z.max 0 (currentIndex (state w)) ∉ generatingSet w ->
  response r = Fulfilled resp ->
  success resp = true ->
  truthyString (audio_base64 resp) = true ->
  decoded r = Fulfilled buf ->
  let start := Z.max 0 (currentIndex (state w)) in
  let s1 := replyUpdate (isAndroid w) r (with_status SGenerating s) in
  (currentlyPlayingIndex w <> start ->
   exists w2,
     run [Call_play; SynthDone (length (pending w)) r] w = Some w2
     /\ sentenceAt start (sentences (state w2))
        = Some (with_status SPlaying s1)
     /\ audioBuffer s1 = Some buf
     /\ text s1 = text s
     /\ currentlyPlayingIndex w2 = start
     /\ currentIndex (state w2) = start
     /\ isPlaying (state w2) = true
     /\ isPaused (state w2) = false
     /\ playbackGeneration w2 = playbackGeneration w + 1
     /\ (start ∉ generatingSet w2)
     /\ (if isAndroid w && truthyString (audioFileUrl s1) then
           (last (effects w2)
            = Some (EMusicPlay (default EmptyString (audioFileUrl s1)) start))
         else
           (last (effects w2) = Some (EAudioPlay buf)
            /\ onEndedCallback (audioPlayer w2)
               = Some (start, playbackGeneration w + 1))))
  /\ (currentlyPlayingIndex w = start ->
      isPlaying (state (play w)) = true
      /\ currentIndex (state (play w)) = start
      /\ playbackGeneration (play w) = playbackGeneration w + 1
      /\ sentences (state (play w)) = sentences (state w)
      /\ generatingSet (play w) = generatingSet w
      /\ effects (play w) = effects w
      /\ pending (play w) = pending w
      /\ step (SynthDone (length (pending w)) r) (play w) = None).
Proof.
  intros Hpa Hs Hst Hnin Hresp Hok Hdata Hdec. cbv zeta. split.
  - intros Hcpi.
    exact (play_then_synthesis resp buf r s w Hpa Hs Hst Hnin Hcpi
             Hresp Hok Hdata Hdec).
  - intros Hcpi.
    assert (Hlen : len w <> 0).
    { apply sentenceAt_Some in Hs. unfold len. lia. }
    assert (Hplay : play w
              = setState (fun p =>
                  set_currentIndex (Z.max 0 (currentIndex (state w)))
                    (set_isPaused false (set_isPlaying true p)))
                  (with_playbackGeneration (playbackGeneration w + 1) w)).
    { rewrite (play_fresh w Hlen Hpa).
      set (w0 := setState _ (with_playbackGeneration _ w)).
      rewrite playSentenceAtIndex_unfold.
      change (playbackGeneration w0) with (playbackGeneration w + 1).
      rewrite Z.eqb_refl. cbn [negb].
      rewrite outOfBounds_inBounds.
      change (inBounds (Z.max 0 (currentIndex (state w))) w0)
        with (inBounds (Z.max 0 (currentIndex (state w))) w).
      rewrite (inBounds_sentenceAt _ _ _ Hs).
      change (isPlaying (state w0)) with true.
      change (isPaused (state w0)) with false.
      change (currentlyPlayingIndex w0) with (currentlyPlayingIndex w).
      cbn [negb orb]. by rewrite Hcpi, Z.eqb_refl. }
    rewrite Hplay. cbn [step]. simpl.
    repeat split; try done.
    by rewrite lookup_ge_None_2.
Qed.

(** X21. What the continuation after [musicPlay] does when the plugin
    answers, whatever has happened to the queue in between: the
    statement has no hypothesis on the generation or on [isPlaying],
    because the source consults neither at this point. If the plugin
    accepted the track, a new poll interval is armed with the generation
    captured by the call, replacing the one recorded in [pollInterval],
    and the audio element is left alone. If the plugin failed and the
    sentence still holds its audio, the audio element starts playing the
    buffer, with a finish callback for the captured index and
    generation. In both cases the PlaybackState and the generation are
    unchanged. *)
Theorem musicPlay_answer (n : nat) (index generation : Z)
  (notify : option nat) (w : Queue) :
  pending w !! n = Some (KMusicPlay index generation notify) ->
  (exists w',
     step (MusicPlayDone n true) w = Some w'
     /\ pollInterval w' = Some (length (intervals w))
     /\ (exists c, intervals w' !! length (intervals w) = Some c
                   /\ poll_generation c = generation
                   /\ poll_live c = true)
     /\ (forall h c0, pollInterval w = Some h ->
                      intervals w !! h = Some c0 ->
                      exists c, intervals w' !! h = Some c
                                /\ poll_live c = false)
     /\ audioPlayer w' = audioPlayer w
     /\ effects w' = effects w
     /\ state w' = state w
     /\ playbackGeneration w' = playbackGeneration w)
  /\ (forall s buf,
        sentenceAt index (sentences (state w)) = Some s ->
        audioBuffer s = Some buf ->
        exists w',
          step (MusicPlayDone n false) w = Some w'
          /\ effects w' = effects w ++ [EAudioPlay buf]
          /\ onEndedCallback (audioPlayer w') = Some (index, generation)
          /\ audio_paused (audioPlayer w') = false
          /\ pollInterval w' = pollInterval w
          /\ state w' = state w
          /\ playbackGeneration w' = playbackGeneration w).
Proof.
  intros Hn.
  assert (Hgen : forall ok,
            playbackGeneration
              (musicPlay_done index generation notify ok (consume n w))
            = playbackGeneration w).
  { intros ok.
    exact (frame_generation _ _
             (musicPlay_done_frame index generation notify ok (consume n w))). }
  split.
  - cbn [step]. rewrite Hn. eexists. split; [reflexivity |].
    rewrite musicPlay_done_state, Hgen.
    unfold musicPlay_done.
    destruct (settle_fields notify
                (startMusicStatePolling generation (consume n w)))
      as (-> & -> & _).
    set (new := {| poll_generation := generation; isAdvancing := false;
                   poll_live := true |}).
    set (old := intervals (clearPollInterval (consume n w))).
    assert (Hlen : length old = length (intervals w)).
    { unfold old, clearPollInterval, clearInterval. simpl.
      destruct (pollInterval w); simpl; [apply length_alter | done]. }
    assert (Hiv : intervals (settle notify
                    (startMusicStatePolling generation (consume n w)))
                  = match notify with
                    | Some h => alter (set_isAdvancing false) h (old ++ [new])
                    | None => old ++ [new]
                    end).
    { by destruct notify. }
    assert (Hadv : forall h c,
              (old ++ [new]) !! h = Some c ->
              exists c',
                match notify with
                | Some h' => alter (set_isAdvancing false) h' (old ++ [new])
                | None => old ++ [new]
                end !! h = Some c'
                /\ poll_generation c' = poll_generation c
                /\ poll_live c' = poll_live c).
    { intros h c Hc. destruct notify as [h' |]; [| by exists c].
      destruct (decide (h' = h)) as [-> | Hne].
      - rewrite list_lookup_alter_eq, Hc. simpl. eauto.
      - rewrite list_lookup_alter_ne by done. eauto. }
    repeat split; try done.
    + destruct notify; unfold startMusicStatePolling; simpl;
        fold old; by rewrite Hlen.
    + rewrite Hiv, <- Hlen.
      destruct (Hadv (length old) new
                  (list_lookup_middle old [] new (length old) eq_refl))
        as (c' & Hc' & Hg' & Hl').
      exists c'. by repeat split.
    + intros h c0 Hh Hc0. rewrite Hiv.
      assert (Hold : exists c1, old !! h = Some c1 /\ poll_live c1 = false).
      { unfold old, clearPollInterval, clearInterval. simpl.
        rewrite Hh. simpl. rewrite list_lookup_alter_eq, Hc0. simpl. eauto. }
      destruct Hold as (c1 & Hc1 & Hdead).
      destruct (Hadv h c1) as (c' & Hc' & _ & Hl').
      { rewrite lookup_app_l; [done |]. by apply lookup_lt_Some in Hc1. }
      exists c'. split; [done |]. by rewrite Hl'.
    + unfold startMusicStatePolling, clearPollInterval; simpl;
        by destruct (pollInterval w).
    + unfold startMusicStatePolling, clearPollInterval; simpl;
        by destruct (pollInterval w).
  - intros s buf Hs Hbuf. cbn [step]. rewrite Hn.
    eexists. split; [reflexivity |].
    rewrite musicPlay_done_state, Hgen.
    unfold musicPlay_done, playWithHtml5Audio.
    change (sentences (state (consume n w))) with (sentences (state w)).
    rewrite Hs, Hbuf.
    destruct (settle_fields notify
                (playBuffer buf (index, generation) (consume n w)))
      as (-> & -> & _).
    by destruct notify.
Qed.


(** X23. A play chain on a sentence that is [pending] but already in
    flight makes no progress by itself. [playSentenceAtIndex], called
    with the current generation while playing and not paused on such a
    sentence (not the one recorded in [currentlyPlayingIndex]), sends no
    request and writes nothing: [generateSentence] returns at once and
    the chain is suspended on it. When that continuation is resumed it
    does the same again and is suspended anew, with the store, the
    in-flight set, the generation and the backends as they were, so the
    same holds of the next resumption. *)
Theorem pending_in_flight_makes_no_progress (index generation : Z)
  (notify : option nat) (s : Sentence) (w : Queue) :
  generation = playbackGeneration w ->
  isPlaying (state w) = true ->
  isPaused (state w) = false ->
  currentlyPlayingIndex w <> index ->
  sentenceAt index (sentences (state w)) = Some s ->
  status s = SPending ->
  index ∈ generatingSet w ->
  let w1 := playSentenceAtIndex index generation notify w in
  w1 = schedule (KRetry index generation notify) w
  /\ exists w2,
       step (RetryDue (length (pending w))) w1 = Some w2
       /\ state w2 = state w
       /\ generatingSet w2 = generatingSet w
       /\ playbackGeneration w2 = playbackGeneration w
       /\ currentlyPlayingIndex w2 = currentlyPlayingIndex w
       /\ audioPlayer w2 = audioPlayer w
       /\ intervals w2 = intervals w
       /\ effects w2 = effects w
       /\ pending w2
          = pending w ++ [KDone; KRetry index generation notify].
Proof.
  intros Hg Hpl Hpa Hcpi Hs Hst Hin. subst generation.
  assert (Hpark : forall w0,
            playbackGeneration w0 = playbackGeneration w ->
            state w0 = state w ->
            generatingSet w0 = generatingSet w ->
            currentlyPlayingIndex w0 = currentlyPlayingIndex w ->
            playSentenceAtIndex index (playbackGeneration w) notify w0
            = schedule (KRetry index (playbackGeneration w) notify) w0).
  { intros w0 H1 H2 H3 H4. rewrite playSentenceAtIndex_unfold.
    rewrite H1, Z.eqb_refl. cbn [negb].
    rewrite outOfBounds_inBounds.
    assert (Hb : inBounds index w0 = true).
    { unfold inBounds, len. rewrite H2.
      exact (inBounds_sentenceAt _ _ _ Hs). }
    rewrite Hb, H2, Hpl, Hpa, H4. cbn [negb orb].
    destruct (Z.eqb_spec (currentlyPlayingIndex w) index); [done |].
    rewrite Hs, Hst. unfold generateSentence.
    rewrite outOfBounds_inBounds, Hb, H3. cbn [negb].
    by rewrite (bool_decide_eq_true_2 _ Hin). }
  cbv zeta. rewrite (Hpark w) by done. split; [done |].
  cbn [step]. cbn [pending schedule with_pending].
  rewrite lookup_snoc_length.
  eexists. split; [reflexivity |].
  unfold retry.
  change (playbackGeneration
            (consume (length (pending w))
               (schedule (KRetry index (playbackGeneration w) notify) w)))
    with (playbackGeneration w).
  rewrite Z.eqb_refl. cbn [negb].
  rewrite Hpark by done.
  unfold consume. cbn [pending schedule with_pending].
  rewrite consume_snoc. simpl.
  repeat split; try done.
  by rewrite <- app_assoc.
Qed.

(* ================================================================== *)
(** ** The theorems above on sample executions                         *)
(* ================================================================== *)

(** X1 on [stop()] in a loaded queue. *)
Lemma generation_never_decreases_witness :
  playbackGeneration stoppedQueue <= playbackGeneration (stop stoppedQueue).
Proof.
  destruct (generation_never_decreases Call_stop stoppedQueue
              (stop stoppedQueue)) as (H & _).
  - reflexivity.
  - exact H.
Defined.

(** X2 on [play()] in a queue of two pending sentences. *)
Lemma sentences_fixed_between_loads_witness :
  map text (sentences (state (play twoPending)))
  = map text (sentences (state twoPending)).
Proof.
  apply (sentences_fixed_between_loads Call_play twoPending (play twoPending));
    reflexivity.
Defined.

(** X3 on the desktop sample. *)
Lemma playhead_in_range_witness :
  currentIndex (state desktopPlaying) = -1
  \/ inBounds (currentIndex (state desktopPlaying)) desktopPlaying = true.
Proof.
  apply (playhead_in_range false 3 sampleEvents desktopPlaying).
  vm_compute. reflexivity.
Defined.

(** X4 on the Android sample: the suspended [musicPlay] continuation. *)
Lemma captured_generations_not_ahead_witness :
  3 <= playbackGeneration androidStarting.
Proof.
  destruct (captured_generations_not_ahead true 3 sampleEvents androidStarting)
    as (H & _); [vm_compute; reflexivity |].
  apply (H 4%nat 0 3 None). right. left. vm_compute. reflexivity.
Defined.

(** X5 on the desktop sample: the second sentence is in flight. *)
Lemma in_flight_has_request_witness :
  exists n a, pending desktopPlaying !! n = Some (KSynth 1 a).
Proof.
  apply (in_flight_has_request false 3 sampleEvents desktopPlaying 1).
  - vm_compute. reflexivity.
  - apply (bool_decide_unpack (1 ∈ generatingSet desktopPlaying)).
    vm_compute. exact I.
Defined.

(** X6 on the Android sample once the plugin has accepted the track. *)
Lemma single_armed_interval_witness :
  pollInterval androidPolling = Some 0%nat
  /\ forall h', is_Some (step (PollTick h') androidPolling) -> h' = 0%nat.
Proof.
  apply (single_armed_interval true 3 (sampleEvents ++ [MusicPlayDone 4 true])
           androidPolling 0).
  - vm_compute. reflexivity.
  - vm_compute. eexists. reflexivity.
Defined.

(** X7 on the desktop sample. *)
Lemma stop_quiesces_witness :
  step AudioEnded (stop desktopPlaying) = None
  /\ (forall h, step (PollTick h) (stop desktopPlaying) = None)
  /\ (forall e w', isPlaybackEvent e = true ->
                   step e (stop desktopPlaying) = Some w' ->
                   state w' = state (stop desktopPlaying)).
Proof.
  apply (stop_quiesces false 3 sampleEvents desktopPlaying).
  vm_compute. reflexivity.
Defined.


(** X9 on the first load of a one-sentence text. *)
Lemma loadText_success_witness :
  exists w',
    run (loadEvents 0 "A." ["A."]%string) (initial false 3) = Some w'
    /\ length (sentences (state w')) = 1%nat
    /\ playbackGeneration w' = 2.
Proof.
  destruct (loadText_success "A." ["A."]%string (initial false 3))
    as (_ & _ & H).
  destruct H as (w' & Hr & Hl & _ & _ & _ & _ & _ & _ & _ & Hg).
  - reflexivity.
  - exists w'. split; [exact Hr |]. split; [exact Hl | exact Hg].
Defined.


(** X11 past the end of the list. *)
Lemma generateSentence_guard_witness :
  generateSentence 5 None twoPending = twoPending.
Proof.
  destruct (generateSentence_guard 5 twoPending) as [H _];
    [left; reflexivity | exact H].
Defined.

(** X12 on the first of two pending sentences. *)
Lemma request_round_trip_witness :
  generatingSet
    (generateSentence_done 0 (okReply "a") (generateSentence 0 None twoPending))
  = generatingSet twoPending.
Proof.
  destruct (request_round_trip 0 (okReply "a") twoPending) as [H _];
    [vm_compute; reflexivity | exact H].
Defined.

(** X13 on two pending sentences: the request for the first. *)
Lemma triggerPreGeneration_requests_witness :
  inBounds 0 twoPending = true /\ needsGeneration twoPending 0 = true.
Proof.
  destruct (triggerPreGeneration_requests 0 twoPending) as (_ & _ & H).
  destruct (H 0 "A."%string) as (_ & H1 & H2 & _).
  - vm_compute. constructor.
  - split; [exact H1 | exact H2].
Defined.

(** X14 on the desktop sample: forward is enabled at index 0 of 2. *)
Lemma skip_buttons_witness :
  skipForward desktopPlaying
  = skipTo (Z.max 0 (currentIndex (state desktopPlaying) + 1)) desktopPlaying.
Proof.
  destruct (skip_buttons false 3 sampleEvents desktopPlaying)
    as (_ & H & _); [vm_compute; reflexivity |].
  destruct H as (_ & H & _); [vm_compute; reflexivity | exact H].
Defined.

(** X15 on a stopped queue: the [pause] action is ignored. *)
Lemma media_actions_guarded_witness :
  handleMediaAction MPause stoppedQueue = stoppedQueue.
Proof.
  destruct (media_actions_guarded MPause stoppedQueue) as (_ & H & _).
  apply H. reflexivity.
Defined.

(** X16 on a reload of a loaded queue. *)
Lemma progress_shown_witness :
  canPlay (loadText "B." stoppedQueue) = false.
Proof.
  destruct (progress_shown stoppedQueue) as (_ & _ & _ & _ & H).
  apply H. reflexivity.
Defined.

(** X17 on a desktop queue whose only sentence is ready. *)
Lemma ready_sentence_starts_witness :
  sentenceAt 0 (sentences (state (playSentenceAtIndex 0 0 None readyQueue)))
  = Some (with_status SPlaying readySentence)
  /\ currentlyPlayingIndex (playSentenceAtIndex 0 0 None readyQueue) = 0.
Proof.
  destruct (ready_sentence_starts 0 0 None readySentence
              {| buf_data := "a"; buf_duration := 2 |} readyQueue)
    as (_ & H).
  - reflexivity.
  - reflexivity.
  - reflexivity.
  - reflexivity.
  - reflexivity.
  - reflexivity.
  - destruct H as (H1 & H2 & _); [discriminate |].
    split; [exact H1 | exact H2].
Defined.

(** X18 on a queue whose only sentence is in error. *)
Lemma errors_to_the_end_stop_playback_witness :
  isPlaying (state (playSentenceAtIndex 0 0 None erroredQueue)) = false.
Proof.
  destruct (errors_to_the_end_stop_playback 0 0 None erroredQueue)
    as (H & _).
  - reflexivity.
  - vm_compute. split; [discriminate | reflexivity].
  - reflexivity.
  - reflexivity.
  - intros k Hk. change (len erroredQueue) with 1 in Hk.
    assert (k = 0) as -> by lia.
    exists (markError "boom" (newSentence 0 "A.")). split; reflexivity.
  - destruct H as (H & _); [left; reflexivity | exact H].
Defined.

(** X19 on the Android sample: an idle report one second in. *)
Lemma advance_debounced_witness :
  lastAdvanceTime (pollTick_done 0 (Fulfilled false) 1000 androidPolling)
  = 1000.
Proof.
  destruct (advance_debounced 0
              {| poll_generation := 3; isAdvancing := false;
                 poll_live := true |} 1000 androidPolling)
    as (H & _).
  - vm_compute. reflexivity.
  - vm_compute. reflexivity.
  - vm_compute. reflexivity.
  - vm_compute. discriminate.
  - exact H.
Defined.

(** X20 on two pending sentences, on the desktop. *)
Lemma play_from_pending_witness :
  exists w2,
    run [Call_play; SynthDone 0 (okReply "a")] twoPending = Some w2
    /\ currentlyPlayingIndex w2 = 0
    /\ isPlaying (state w2) = true.
Proof.
  destruct (play_from_pending
              {| success := true; audio_base64 := Some "a"%string;
                 resp_duration := Some 2; resp_error := None |}
              {| buf_data := "a"; buf_duration := 2 |}
              (okReply "a") (newSentence 0 "A.") twoPending)
    as (H & _).
  - reflexivity.
  - reflexivity.
  - reflexivity.
  - apply not_elem_of_empty.
  - reflexivity.
  - reflexivity.
  - reflexivity.
  - reflexivity.
  - destruct H as (w2 & Hr & _ & _ & _ & Hc & _ & Hp & _); [discriminate |].
    exists w2. split; [exact Hr |]. split; [exact Hc | exact Hp].
Defined.

(** X21 on the Android sample: the plugin accepts the track. *)
Lemma musicPlay_answer_witness :
  exists w',
    step (MusicPlayDone 4 true) androidStarting = Some w'
    /\ pollInterval w' = Some 0%nat.
Proof.
  destruct (musicPlay_answer 4 0 3 None androidStarting) as [H _];
    [vm_compute; reflexivity |].
  destruct H as (w' & Hs & Hp & _). exists w'. split; [exact Hs | exact Hp].
Defined.


(** X23 on two pending sentences with the first one in flight. *)
Lemma pending_in_flight_makes_no_progress_witness :
  playSentenceAtIndex 0 0 None inFlightQueue
  = schedule (KRetry 0 0 None) inFlightQueue.
Proof.
  destruct (pending_in_flight_makes_no_progress 0 0 None
              (newSentence 0 "A.") inFlightQueue) as (H & _).
  - reflexivity.
  - reflexivity.
  - reflexivity.
  - discriminate.
  - reflexivity.
  - reflexivity.
  - apply (bool_decide_unpack (0 ∈ generatingSet inFlightQueue)).
    vm_compute. exact I.
  - exact H.
Defined.
